(** * Generation orchestration of agent-server: session lock, background
    jobs, Codex process adapter and JSONL tailer.

    The development follows the sources
    - [routes/generate] (POST /v2, GET /v2/jobs/:taskId, GET
      /v2/jobs/:taskId/stream, DELETE /:sessionId/stop),
    - [src/services/codex.ts] (queryCodex, waitForSessionFileById,
      tailJsonlFile), and
    - of the other routes, what touches the same state: the deletion of the
      lock key by DELETE /sessions/:sessionId ([services/sessionService],
      deleteSessionById).

    Asynchronous functions are embedded as resumable machines: one step
    runs one synchronous segment of the JavaScript, from one [await] to the
    next, and the value an [await] resolves to is the label of the step.
    The event loop runs one segment at a time, so a run of the server is a
    list of labels. *)

From Stdlib Require Import List String Ascii Arith NArith Lia Bool.
From stdpp Require Import base gmap strings list option pretty.

Import ListNotations.
Open Scope string_scope.
Open Scope list_scope.
Open Scope nat_scope.

(** ** The shared key-value store *)

(** The three Redis commands the sources issue on the lock key:
    [SET key value EX seconds NX], [DEL key] and [GET key]. Time is the
    store's clock in seconds; a key whose expiry has been reached is
    absent. *)
Module Redis.

Record entry : Type := Entry { value : string; expireAt : nat }.

Abbreviation db := (gmap string entry).

Definition live (now : nat) (e : entry) : bool := now <? expireAt e.

Definition get (now : nat) (key : string) (d : db) : option string :=
  match d !! key with
  | Some e => if live now e then Some (value e) else None
  | None => None
  end.

Definition exists_ (now : nat) (key : string) (d : db) : bool :=
  match get now key d with Some _ => true | None => false end.

(** [SET key value EX seconds NX]: the reply is [Some OK] when the key was
    set and [None] (nil) when it already exists. *)
Definition set_ex_nx (now : nat) (key val : string) (seconds : nat) (d : db)
  : option string * db :=
  if exists_ now key d then (None, d)
  else (Some "OK", <[key := Entry val (now + seconds)]> d).

(** [DEL key]: the reply is the number of keys removed. *)
Definition del (now : nat) (key : string) (d : db) : nat * db :=
  ((if exists_ now key d then 1 else 0), delete key d).

End Redis.

(** ** Session lock (routes/generate, POST /v2) *)

Module SessionLock.

(** [`session:active:${sessionId}`] *)
Definition activeSessionKey (sessionId : string) : string :=
  "session:active:" +:+ sessionId.

(** The expiration passed with [EX]. *)
Definition LOCK_TTL : nat := 3600.

(** [lockAcquired = await redisClient.set(activeSessionKey, "1", "EX", 3600, "NX")];
    the handler tests the reply for truthiness. *)
Definition acquire (now : nat) (sessionId : string) (d : Redis.db) : bool * Redis.db :=
  match Redis.set_ex_nx now (activeSessionKey sessionId) "1" LOCK_TTL d with
  | (Some _, d') => (true, d')
  | (None, d') => (false, d')
  end.

(** [await redisClient.del(activeSessionKey)] *)
Definition release (now : nat) (sessionId : string) (d : Redis.db) : Redis.db :=
  snd (Redis.del now (activeSessionKey sessionId) d).

(** [doneKey(sessionId)] (redis.ts) *)
Definition doneKey (sessionId : string) : string :=
  "session:" +:+ sessionId +:+ ":done".

(** [await redisClient.del(`session:active:${sessionId}`, doneKey(sessionId))]
    of [deleteSessionById] (services/sessionService): the lock key of the
    session is deleted whoever holds it. *)
Definition delete_session (now : nat) (sessionId : string) (d : Redis.db) : Redis.db :=
  snd (Redis.del now (doneKey sessionId)
         (snd (Redis.del now (activeSessionKey sessionId) d))).

(** What can happen to the store between two acquisitions: other requests try
    to acquire, finished generations (or the deletion of a session) delete a
    key, and time passes. *)
Inductive store_op : Type :=
| OpAcquire (sessionId : string)
| OpRelease (sessionId : string)
| OpElapse (seconds : nat).

Definition exec_op (o : store_op) (st : nat * Redis.db) : nat * Redis.db :=
  let (now, d) := st in
  match o with
  | OpAcquire sid => (now, snd (acquire now sid d))
  | OpRelease sid => (now, release now sid d)
  | OpElapse n => (now + n, d)
  end.

Definition exec_ops (ops : list store_op) (st : nat * Redis.db) : nat * Redis.db :=
  fold_left (fun s o => exec_op o s) ops st.

Definition releases (sessionId : string) (o : store_op) : bool :=
  match o with
  | OpRelease sid => if decide (sid = sessionId) then true else false
  | _ => false
  end.

End SessionLock.

(** ** The generate routes (routes/generate) *)

Module Generate.

Inductive Agent : Type := claude_code | codex.

(** The validated body of POST /v2 ([GenerateRequestSchema]). *)
Record GenerateRequest : Type := {
  session_id : string;
  prompt : string;
  agent : Agent;
  use_worktree : bool;
  background : bool;
  images : list string;
}.

Inductive JobStatus : Type := queued | running | completed | failed | cancelled.

(** One GET /v2/jobs/:taskId/stream request. Its closures [onEvent] and
    [onDone] are registered on the job's emitter together and removed
    together, so one entry stands for both, and carries the response they
    write to. *)
Record Subscriber : Type := {
  written : list string;   (* the data frames written to [res], in order *)
  listening : bool;        (* [onEvent] and [onDone] are registered *)
  ended : bool;            (* [res.end()] has been called *)
}.

Record BackgroundJob : Type := {
  taskId : string;
  sessionId : string;
  status : JobStatus;
  createdAt : nat;
  startedAt : option nat;
  finishedAt : option nat;
  error : option string;
  events : list string;
  emitter : list Subscriber;
  doneEmitted : nat;       (* how many times [emitter.emit("done")] has run *)
  abortController : nat;
  activeSessionKey : string;
}.

Inductive CorePc : Type :=
| K_Images      (* await readImagesAsBase64(generateRequest.images) *)
| K_Find        (* await findCodexSessionFileById(session.internalSessionId) *)
| K_Loop        (* for await (const message of messages) *)
| K_Update.     (* await updateSession(sessionId) *)

(** Where an invocation of the POST /v2 handler is suspended. *)
Inductive Pc : Type :=
| P_GetSession                    (* await getOrCreateSession(...) *)
| P_GetMessages                   (* await getMessages(sessionId) *)
| P_Lock (lockAcquired : bool)    (* await redisClient.set(..., "NX") *)
| P_Worktree                      (* the awaits of the first worktree block *)
| P_UserMessage                   (* await createUserMessage(...) *)
| P_BgWorktree                    (* the awaits of the background worktree block *)
| P_Scheduled                     (* setImmediate(...) is pending *)
| P_Core (k : CorePc)             (* inside the try block / runGenerationCore *)
| P_Returned                      (* the handler, and the job if any, has finished *)
| P_Threw (message : string).     (* the handler's promise is rejected: an
                                     unhandled rejection, on which index.ts
                                     exits the process; what was written to
                                     the store stays *)

(** The detached task started by [startTail]. *)
Inductive TailTask : Type := NoTail | Tailing | TailEnded.

(** One invocation of the POST /v2 handler with its local variables. The
    [AbortController] it creates is identified with the invocation. *)
Record Invocation : Type := {
  request : GenerateRequest;
  pc : Pc;
  isFirstTurn : bool;
  aborted : bool;          (* abortController.signal.aborted *)
  keepAlive : bool;        (* the setInterval timer is running *)
  closeListener : bool;    (* req.on("close", ...) is registered, not yet fired *)
  sent : list string;      (* the data frames [send] wrote to [res] *)
  closed : bool;
  statusCode : nat;
  jobId : option string;
  tail : TailTask;
}.

(** The module-level state of the route file, the store and the clock. *)
Record Server : Type := {
  clock : nat;
  redis : Redis.db;
  sessionAbortControllers : gmap string nat;
  backgroundJobs : gmap string BackgroundJob;
  invocations : list Invocation;
}.

Definition init : Server :=
  {| clock := 0; redis := ∅; sessionAbortControllers := ∅;
     backgroundJobs := ∅; invocations := [] |}.

Inductive Message : Type :=
| SdkMessage (json : string)                         (* claude-code: JSON.stringify(message) *)
| CodexInit (session_file_path session_id : string)  (* codex: { type: "init", ... } *)
| CodexDone.                                         (* codex: { type: "done" } *)

(** What the pending [await] of an invocation resolves to, or the callback
    that fires for it. An [err] is the message of a rejection; the [err] of a
    [Msg] is that of the persistence calls made for the message
    ([updateInternalSessionId], [createMessage]). *)
Inductive Reply : Type :=
| GotSession (ok : bool)
| GotMessages (r : option bool)
| LockReply
| WorktreeDone (r : option (string * string))
| UserMessage (contents : option (list string)) (uuid : string)
| BgWorktreeDone (r : option (string * string))
| Immediate
| ImagesRead (err : option string)
| Found (r : option string)
| Msg (m : Message) (err : option string)
| IterEnd
| Throw (e : string)
| Updated (err : option string)
| TailLine (line : string)
| ClientClose.

Inductive Label : Type :=
| Arrive (g : GenerateRequest)           (* POST /v2 with a valid body *)
| Resume (i : nat) (r : Reply)
| Stop (session_id : string)             (* DELETE /:sessionId/stop *)
| Stream (taskId : string)               (* GET /v2/jobs/:taskId/stream *)
| StreamClose (taskId : string) (k : nat)  (* that request's "close" event *)
| Tick (seconds : nat)
| DeleteSession (sessionId : string).    (* DELETE /sessions/:sessionId, at the
                                            redisClient.del of deleteSessionById *)

(** *** Constants and payloads *)

Definition dq : string := String (ascii_of_nat 34) EmptyString.

(** ['{"done": true}'] *)
Definition DONE_LINE : string := "{" +:+ dq +:+ "done" +:+ dq +:+ ": true}".

(** ['{"type":"error","content":"Stream failed","done":true}'] *)
Definition STREAM_FAILED_LINE : string :=
  "{" +:+ dq +:+ "type" +:+ dq +:+ ":" +:+ dq +:+ "error" +:+ dq +:+ ","
  +:+ dq +:+ "content" +:+ dq +:+ ":" +:+ dq +:+ "Stream failed" +:+ dq +:+ ","
  +:+ dq +:+ "done" +:+ dq +:+ ":true}".

Definition hex_digit (n : nat) : ascii :=
  nth n (list_ascii_of_string "0123456789abcdef") "0"%char.

(** The backslash. *)
Definition bs : string := String (ascii_of_nat 92) EmptyString.

(** [JSON.stringify] on one character of a string: the quote and the
    backslash are escaped by a backslash, a control character is written by
    its short escape (b, t, n, f, r) or as u00XX after a backslash, and every
    other character stands for itself. *)
Definition json_escape (a : ascii) : string :=
  let n := nat_of_ascii a in
  if n =? 34 then bs +:+ dq
  else if n =? 92 then bs +:+ bs
  else if n =? 8 then bs +:+ "b"
  else if n =? 9 then bs +:+ "t"
  else if n =? 10 then bs +:+ "n"
  else if n =? 12 then bs +:+ "f"
  else if n =? 13 then bs +:+ "r"
  else if n <? 32 then
    bs +:+ "u00" +:+ String (hex_digit (n / 16)) (String (hex_digit (n mod 16)) EmptyString)
  else String a EmptyString.

Fixpoint json_chars (s : string) : string :=
  match s with
  | EmptyString => EmptyString
  | String a s' => json_escape a +:+ json_chars s'
  end.

(** [JSON.stringify(s)] for a string [s]. *)
Definition json_string (s : string) : string := dq +:+ json_chars s +:+ dq.

(** [JSON.stringify({ type: "error", error })] *)
Definition error_line (e : string) : string :=
  "{" +:+ dq +:+ "type" +:+ dq +:+ ":" +:+ dq +:+ "error" +:+ dq +:+ ","
  +:+ dq +:+ "error" +:+ dq +:+ ":" +:+ json_string e +:+ "}".

(** [JSON.stringify({ type: "system", subtype: "worktree_init", cwd, git_root })] *)
Definition worktree_line (w : string * string) : string :=
  "{" +:+ dq +:+ "type" +:+ dq +:+ ":" +:+ dq +:+ "system" +:+ dq +:+ ","
  +:+ dq +:+ "subtype" +:+ dq +:+ ":" +:+ dq +:+ "worktree_init" +:+ dq +:+ ","
  +:+ dq +:+ "cwd" +:+ dq +:+ ":" +:+ json_string (fst w) +:+ ","
  +:+ dq +:+ "git_root" +:+ dq +:+ ":" +:+ json_string (snd w) +:+ "}".

Definition busy_message (sid : string) : string :=
  "Session " +:+ sid +:+ " is already processing a request".

(** *** Field updates *)

Definition set_pc (p : Pc) (r : Invocation) : Invocation :=
  {| request := request r; pc := p; isFirstTurn := isFirstTurn r;
     aborted := aborted r; keepAlive := keepAlive r;
     closeListener := closeListener r; sent := sent r; closed := closed r;
     statusCode := statusCode r; jobId := jobId r; tail := tail r |}.

Definition set_isFirstTurn (b : bool) (r : Invocation) : Invocation :=
  {| request := request r; pc := pc r; isFirstTurn := b;
     aborted := aborted r; keepAlive := keepAlive r;
     closeListener := closeListener r; sent := sent r; closed := closed r;
     statusCode := statusCode r; jobId := jobId r; tail := tail r |}.

Definition set_aborted (b : bool) (r : Invocation) : Invocation :=
  {| request := request r; pc := pc r; isFirstTurn := isFirstTurn r;
     aborted := b; keepAlive := keepAlive r;
     closeListener := closeListener r; sent := sent r; closed := closed r;
     statusCode := statusCode r; jobId := jobId r; tail := tail r |}.

Definition set_keepAlive (b : bool) (r : Invocation) : Invocation :=
  {| request := request r; pc := pc r; isFirstTurn := isFirstTurn r;
     aborted := aborted r; keepAlive := b;
     closeListener := closeListener r; sent := sent r; closed := closed r;
     statusCode := statusCode r; jobId := jobId r; tail := tail r |}.

Definition set_closeListener (b : bool) (r : Invocation) : Invocation :=
  {| request := request r; pc := pc r; isFirstTurn := isFirstTurn r;
     aborted := aborted r; keepAlive := keepAlive r;
     closeListener := b; sent := sent r; closed := closed r;
     statusCode := statusCode r; jobId := jobId r; tail := tail r |}.

Definition set_jobId (t : option string) (r : Invocation) : Invocation :=
  {| request := request r; pc := pc r; isFirstTurn := isFirstTurn r;
     aborted := aborted r; keepAlive := keepAlive r;
     closeListener := closeListener r; sent := sent r; closed := closed r;
     statusCode := statusCode r; jobId := t; tail := tail r |}.

Definition set_tail (t : TailTask) (r : Invocation) : Invocation :=
  {| request := request r; pc := pc r; isFirstTurn := isFirstTurn r;
     aborted := aborted r; keepAlive := keepAlive r;
     closeListener := closeListener r; sent := sent r; closed := closed r;
     statusCode := statusCode r; jobId := jobId r; tail := t |}.

(** [res.write(`data: ...`)]: a frame written after [res.end()] reaches nobody. *)
Definition write (line : string) (r : Invocation) : Invocation :=
  {| request := request r; pc := pc r; isFirstTurn := isFirstTurn r;
     aborted := aborted r; keepAlive := keepAlive r;
     closeListener := closeListener r;
     sent := if closed r then sent r else sent r ++ [line];
     closed := closed r;
     statusCode := statusCode r; jobId := jobId r; tail := tail r |}.

(** [close(code)]: ends the response once. *)
Definition close (code : nat) (r : Invocation) : Invocation :=
  if closed r then r else
  {| request := request r; pc := pc r; isFirstTurn := isFirstTurn r;
     aborted := aborted r; keepAlive := keepAlive r;
     closeListener := closeListener r; sent := sent r; closed := true;
     statusCode := code; jobId := jobId r; tail := tail r |}.

Definition with_redis (d : Redis.db) (s : Server) : Server :=
  {| clock := clock s; redis := d;
     sessionAbortControllers := sessionAbortControllers s;
     backgroundJobs := backgroundJobs s; invocations := invocations s |}.

Definition with_controllers (m : gmap string nat) (s : Server) : Server :=
  {| clock := clock s; redis := redis s; sessionAbortControllers := m;
     backgroundJobs := backgroundJobs s; invocations := invocations s |}.

Definition with_jobs (m : gmap string BackgroundJob) (s : Server) : Server :=
  {| clock := clock s; redis := redis s;
     sessionAbortControllers := sessionAbortControllers s;
     backgroundJobs := m; invocations := invocations s |}.

Definition with_invocations (l : list Invocation) (s : Server) : Server :=
  {| clock := clock s; redis := redis s;
     sessionAbortControllers := sessionAbortControllers s;
     backgroundJobs := backgroundJobs s; invocations := l |}.

Definition with_clock (n : nat) (s : Server) : Server :=
  {| clock := n; redis := redis s;
     sessionAbortControllers := sessionAbortControllers s;
     backgroundJobs := backgroundJobs s; invocations := invocations s |}.

Definition update_inv (i : nat) (f : Invocation -> Invocation) (s : Server) : Server :=
  with_invocations (alter f i (invocations s)) s.

Definition update_job (t : string) (f : BackgroundJob -> BackgroundJob) (s : Server) : Server :=
  with_jobs (alter f t (backgroundJobs s)) s.

(** *** Jobs *)

Definition set_status (st : JobStatus) (j : BackgroundJob) : BackgroundJob :=
  {| taskId := taskId j; sessionId := sessionId j; status := st;
     createdAt := createdAt j; startedAt := startedAt j;
     finishedAt := finishedAt j; error := error j; events := events j;
     emitter := emitter j; doneEmitted := doneEmitted j;
     abortController := abortController j;
     activeSessionKey := activeSessionKey j |}.

Definition set_startedAt (t : nat) (j : BackgroundJob) : BackgroundJob :=
  {| taskId := taskId j; sessionId := sessionId j; status := status j;
     createdAt := createdAt j; startedAt := Some t;
     finishedAt := finishedAt j; error := error j; events := events j;
     emitter := emitter j; doneEmitted := doneEmitted j;
     abortController := abortController j;
     activeSessionKey := activeSessionKey j |}.

Definition set_finishedAt (t : nat) (j : BackgroundJob) : BackgroundJob :=
  {| taskId := taskId j; sessionId := sessionId j; status := status j;
     createdAt := createdAt j; startedAt := startedAt j;
     finishedAt := Some t; error := error j; events := events j;
     emitter := emitter j; doneEmitted := doneEmitted j;
     abortController := abortController j;
     activeSessionKey := activeSessionKey j |}.

Definition set_error (e : string) (j : BackgroundJob) : BackgroundJob :=
  {| taskId := taskId j; sessionId := sessionId j; status := status j;
     createdAt := createdAt j; startedAt := startedAt j;
     finishedAt := finishedAt j; error := Some e; events := events j;
     emitter := emitter j; doneEmitted := doneEmitted j;
     abortController := abortController j;
     activeSessionKey := activeSessionKey j |}.

(** The listener [onEvent = (line) => send(line)] of one stream request. *)
Definition deliver (line : string) (c : Subscriber) : Subscriber :=
  if listening c
  then {| written := written c ++ [line]; listening := true; ended := ended c |}
  else c.

(** [job.events.push(line); job.emitter.emit("event", line)] *)
Definition push_emit (line : string) (j : BackgroundJob) : BackgroundJob :=
  {| taskId := taskId j; sessionId := sessionId j; status := status j;
     createdAt := createdAt j; startedAt := startedAt j;
     finishedAt := finishedAt j; error := error j;
     events := events j ++ [line];
     emitter := map (deliver line) (emitter j);
     doneEmitted := doneEmitted j;
     abortController := abortController j;
     activeSessionKey := activeSessionKey j |}.

(** The listener [onDone]: [res.end()], then both listeners are removed. *)
Definition onDone (c : Subscriber) : Subscriber :=
  if listening c
  then {| written := written c; listening := false; ended := true |}
  else c.

(** [job.emitter.emit("done")] *)
Definition emit_done (j : BackgroundJob) : BackgroundJob :=
  {| taskId := taskId j; sessionId := sessionId j; status := status j;
     createdAt := createdAt j; startedAt := startedAt j;
     finishedAt := finishedAt j; error := error j; events := events j;
     emitter := map onDone (emitter j);
     doneEmitted := S (doneEmitted j);
     abortController := abortController j;
     activeSessionKey := activeSessionKey j |}.

(** GET /v2/jobs/:taskId/stream on a known job: the replay loop
    [for (const line of job.events) send(line)], then [emitter.on("event",
    onEvent)] and [emitter.once("done", onDone)], with no [await] in
    between. *)
Definition subscribe (j : BackgroundJob) : BackgroundJob :=
  let replayed := fold_left (fun (w : list string) line => (w ++ [line])%list) (events j) [] in
  {| taskId := taskId j; sessionId := sessionId j; status := status j;
     createdAt := createdAt j; startedAt := startedAt j;
     finishedAt := finishedAt j; error := error j; events := events j;
     emitter := emitter j ++ [{| written := replayed; listening := true; ended := false |}];
     doneEmitted := doneEmitted j;
     abortController := abortController j;
     activeSessionKey := activeSessionKey j |}.

(** The "close" handler of a stream request: both listeners are removed and
    the response is ended. *)
Definition disconnect (c : Subscriber) : Subscriber :=
  {| written := written c; listening := false; ended := true |}.

Definition unsubscribe (k : nat) (j : BackgroundJob) : BackgroundJob :=
  {| taskId := taskId j; sessionId := sessionId j; status := status j;
     createdAt := createdAt j; startedAt := startedAt j;
     finishedAt := finishedAt j; error := error j; events := events j;
     emitter := alter disconnect k (emitter j);
     doneEmitted := doneEmitted j;
     abortController := abortController j;
     activeSessionKey := activeSessionKey j |}.

(** *** POST /v2 *)

Definition new_invocation (g : GenerateRequest) : Invocation :=
  {| request := g; pc := P_GetSession; isFirstTurn := false; aborted := false;
     keepAlive := false; closeListener := false; sent := []; closed := false;
     statusCode := 200; jobId := None; tail := NoTail |}.

Definition nonempty {A} (l : list A) : bool :=
  match l with [] => false | _ => true end.

(** Where the work starts: [runGenerationCore], or the body of the [try]. *)
Definition core_entry (g : GenerateRequest) : CorePc :=
  match agent g with
  | claude_code => if nonempty (images g) then K_Images else K_Loop
  | codex => K_Find
  end.

(** [onEvent] of the job in background mode, [send] in the foreground. *)
Definition out (i : nat) (r : Invocation) (line : string) (s : Server) : Server :=
  match jobId r with
  | Some t => update_job t (push_emit line) s
  | None => update_inv i (write line) s
  end.

(** [sessionAbortControllers.delete(sessionId); await redisClient.del(activeSessionKey)] *)
Definition release_session (sid : string) (s : Server) : Server :=
  with_redis (SessionLock.release (clock s) sid (redis s))
    (with_controllers (delete sid (sessionAbortControllers s)) s).

(** The [finally] of the background job. *)
Definition job_finally (i : nat) (t sid : string) (s : Server) : Server :=
  release_session sid
    (update_job t (fun j => emit_done (set_finishedAt (clock s) j))
       (update_inv i (set_pc P_Returned) s)).

(** The [finally] of the foreground [try]. *)
Definition fg_finally (i : nat) (sid : string) (s : Server) : Server :=
  release_session sid (update_inv i (set_pc P_Returned) s).

(** The work ends without an error: the [{"done": true}] line goes out, then
    the job is [completed], or the foreground response is closed. *)
Definition core_resolved (i : nat) (r : Invocation) (s : Server) : Server :=
  let sid := session_id (request r) in
  let s := out i r DONE_LINE s in
  match jobId r with
  | Some t => job_finally i t sid (update_job t (set_status completed) s)
  | None =>
      fg_finally i sid (update_inv i (fun r => close 200 (set_keepAlive false r)) s)
  end.

(** The work throws [e]: the [catch] blocks. *)
Definition core_threw (e : string) (i : nat) (r : Invocation) (s : Server) : Server :=
  let sid := session_id (request r) in
  match jobId r with
  | Some t =>
      job_finally i t sid
        (update_job t (fun j => set_error e (set_status failed (push_emit (error_line e) j))) s)
  | None =>
      fg_finally i sid
        (update_inv i (fun r => close 500 (set_keepAlive false (write STREAM_FAILED_LINE r))) s)
  end.

(** After the [for await] loop: the Codex branch aborts the controller to
    stop the tailer; both branches then call [updateSession]. *)
Definition after_loop (i : nat) (r : Invocation) (s : Server) : Server :=
  match agent (request r) with
  | claude_code => update_inv i (set_pc (P_Core K_Update)) s
  | codex => update_inv i (fun r => set_pc (P_Core K_Update) (set_aborted true r)) s
  end.

(** [startTail(filePath)] *)
Definition startTail (r : Invocation) : Invocation :=
  match tail r with
  | NoTail => set_tail Tailing r
  | _ => r
  end.

Definition resume (i : nat) (rp : Reply) (s : Server) : option Server :=
  r ← invocations s !! i;
  let g := request r in
  let sid := session_id g in
  match rp with
  | TailLine line =>
      (* for await (const line of tailJsonlFile(...)) { if (aborted) break; onEvent(line) } *)
      match tail r with
      | Tailing =>
          if aborted r then Some (update_inv i (set_tail TailEnded) s)
          else Some (out i r line s)
      | _ => None
      end
  | ClientClose =>
      (* req.on("close", ...) of a foreground request *)
      if closeListener r then
        Some (with_controllers (delete sid (sessionAbortControllers s))
               (update_inv i (fun r => close 200 (set_keepAlive false
                                (set_aborted true (set_closeListener false r)))) s))
      else None
  | _ =>
  match pc r, rp with
  | P_GetSession, GotSession true => Some (update_inv i (set_pc P_GetMessages) s)
  | P_GetSession, GotSession false =>
      Some (update_inv i (set_pc (P_Threw "getOrCreateSession rejected")) s)
  | P_GetMessages, GotMessages None =>
      Some (update_inv i (set_pc (P_Threw "getMessages rejected")) s)
  | P_GetMessages, GotMessages (Some first) =>
      (* SSE headers and keepAlive (foreground); new AbortController();
         sessionAbortControllers.set(sessionId, abortController);
         redisClient.set(activeSessionKey, "1", "EX", 3600, "NX") *)
      let (ok, d) := SessionLock.acquire (clock s) sid (redis s) in
      Some (with_redis d
             (with_controllers (<[sid := i]> (sessionAbortControllers s))
               (update_inv i (fun r => set_pc (P_Lock ok)
                                (set_keepAlive (negb (background g))
                                  (set_isFirstTurn first r))) s)))
  | P_Lock false, LockReply =>
      Some (update_inv i (set_pc (P_Threw (busy_message sid))) s)
  | P_Lock true, LockReply =>
      Some (update_inv i
              (fun r => set_pc (if use_worktree g && isFirstTurn r
                                then P_Worktree else P_UserMessage)
                          (set_closeListener (negb (background g)) r)) s)
  | P_Worktree, WorktreeDone w =>
      Some (update_inv i
              (fun r => set_pc P_UserMessage
                          match w with
                          | Some w => write (worktree_line w) r
                          | None => r
                          end) s)
  | P_UserMessage, UserMessage None _ =>
      Some (update_inv i (set_pc (P_Threw "createUserMessage rejected")) s)
  | P_UserMessage, UserMessage (Some contents) uuid =>
      if background g then
        match backgroundJobs s !! uuid with
        | Some _ => None   (* randomUUID() returns an id that is not in use *)
        | None =>
            let job :=
              {| taskId := uuid; sessionId := sid; status := queued;
                 createdAt := clock s; startedAt := None; finishedAt := None;
                 error := None; events := []; emitter := []; doneEmitted := 0;
                 abortController := i;
                 activeSessionKey := SessionLock.activeSessionKey sid |} in
            let job := fold_left (fun j content => push_emit content j) contents job in
            Some (with_jobs (<[uuid := job]> (backgroundJobs s))
                   (update_inv i
                      (fun r => set_pc (if use_worktree g && isFirstTurn r
                                        then P_BgWorktree else P_Scheduled)
                                  (set_jobId (Some uuid) r)) s))
        end
      else
        match agent g with
        | claude_code =>
            Some (update_inv i
                    (fun r => set_pc (P_Core (core_entry g))
                                (fold_left (fun r content => write content r) contents r)) s)
        | codex => Some (update_inv i (set_pc (P_Core (core_entry g))) s)
        end
  | P_BgWorktree, BgWorktreeDone w =>
      let s := match w, jobId r with
               | Some w, Some t => update_job t (push_emit (worktree_line w)) s
               | _, _ => s
               end in
      Some (update_inv i (set_pc P_Scheduled) s)
  | P_Scheduled, Immediate =>
      match jobId r with
      | Some t =>
          Some (update_inv i (set_pc (P_Core (core_entry g)))
                 (update_job t (fun j => set_startedAt (clock s) (set_status running j)) s))
      | None => None
      end
  | P_Core K_Images, ImagesRead None => Some (update_inv i (set_pc (P_Core K_Loop)) s)
  | P_Core K_Images, ImagesRead (Some e) =>
      match jobId r with
      | Some _ => Some (core_threw e i r s)
      | None =>
          Some (fg_finally i sid
                 (update_inv i
                    (fun r => close 400 (set_keepAlive false
                                (write (error_line ("Failed to read images: " +:+ e)) r))) s))
      end
  | P_Core K_Find, Found (Some _) =>
      Some (update_inv i (fun r => set_pc (P_Core K_Loop) (startTail r)) s)
  | P_Core K_Find, Found None => Some (update_inv i (set_pc (P_Core K_Loop)) s)
  | P_Core K_Find, Throw e => Some (core_threw e i r s)
  | P_Core K_Loop, Msg m err =>
      if aborted r then Some (after_loop i r s)
      else
        match agent g, m with
        | claude_code, SdkMessage json =>
            match err with
            | None => Some (out i r json s)
            | Some e => Some (core_threw e i r s)
            end
        | codex, CodexInit _ _ =>
            match err with
            | None => Some (update_inv i startTail s)
            | Some e => Some (core_threw e i r s)
            end
        | codex, CodexDone => Some (after_loop i r s)
        | _, _ => None
        end
  | P_Core K_Loop, IterEnd => Some (after_loop i r s)
  | P_Core K_Loop, Throw e => Some (core_threw e i r s)
  | P_Core K_Update, Updated None => Some (core_resolved i r s)
  | P_Core K_Update, Updated (Some e) => Some (core_threw e i r s)
  | _, _ => None
  end
  end.

(** *** The other routes, and the event loop *)

Definition step (l : Label) (s : Server) : option Server :=
  match l with
  | Arrive g => Some (with_invocations (invocations s ++ [new_invocation g]) s)
  | Resume i rp => resume i rp s
  | Stop sid =>
      match sessionAbortControllers s !! sid with
      | Some j =>
          (* abortController.abort(); sessionAbortControllers.delete(session_id) *)
          Some (with_controllers (delete sid (sessionAbortControllers s))
                 (update_inv j (set_aborted true) s))
      | None => Some s   (* 404 *)
      end
  | Stream t =>
      match backgroundJobs s !! t with
      | Some _ => Some (update_job t subscribe s)
      | None => Some s   (* 404 *)
      end
  | StreamClose t k =>
      j ← backgroundJobs s !! t;
      _ ← emitter j !! k;
      Some (update_job t (unsubscribe k) s)
  | Tick n => Some (with_clock (clock s + n) s)
  | DeleteSession sid =>
      (* routes/sessions: the session exists and its rows have been deleted;
         the route file of the generations is not told *)
      Some (with_redis (SessionLock.delete_session (clock s) sid (redis s)) s)
  end.

Fixpoint run (tr : list Label) (s : Server) : option Server :=
  match tr with
  | [] => Some s
  | l :: tr => s' ← step l s; run tr s'
  end.

(** GET /v2/jobs/:taskId *)
Definition job_status (t : string) (s : Server) : option JobStatus :=
  status <$> backgroundJobs s !! t.

End Generate.

(** ** The Codex process adapter (src/services/codex.ts) *)

(** Time is counted in milliseconds. A run of the subprocess is described by
    what it does and when; [queryCodex] and [waitForSessionFileById] are
    functions of that description. *)
Module Codex.

Inductive CodexStreamEvent : Type :=
| Init (session_file_path session_id : string)
| Done.

Inductive CodexError : Type :=
| PromptRequired                 (* "prompt is required" *)
| SpawnFailed (e : string)       (* the "error" event of the child *)
| ExitedWithCode (code : N).   (* `codex exited with code ${exitCode}` *)

(** How the generator ends. *)
Inductive Completion : Type :=
| Returned
| Threw (e : CodexError).

Inductive WaitError : Type :=
| ErrAborted          (* "Aborted while waiting for Codex session file by id" *)
| ErrTimedOut         (* "Timed out waiting for Codex session file by id" *)
| ErrNotInitialised.  (* [onAbort] runs before [timer] is initialised *)

Inductive WaitResult : Type :=
| Resolved (path : string) (at_ms : N)
| Rejected (e : WaitError) (at_ms : N).

(** [signal] has fired by time [t]. *)
Definition fired (abortAt : option N) (t : N) : bool :=
  match abortAt with
  | Some a => (a <=? t)%N
  | None => false
  end.

(** The timers of [waitForSessionFileById], from tick [k] of
    [setInterval(check, intervalMs)] on: [find t] is what
    [findCodexSessionFileById(sessionId)] returns at time [t], the timeout
    fires at [timeoutMs + 5], and [abortAt] is when the signal fires. The
    scan of a check is taken to be instantaneous. *)
Fixpoint poll (fuel : nat) (k timeoutMs intervalMs : N)
    (find : N -> option string) (abortAt : option N) : WaitResult :=
  let deadline := (timeoutMs + 5)%N in
  let t := (k * intervalMs)%N in
  match fuel with
  | 0 => Rejected ErrTimedOut deadline
  | S fuel' =>
      if (deadline <? t)%N then
        match abortAt with
        | Some a => if (a <=? deadline)%N then Rejected ErrAborted a
                    else Rejected ErrTimedOut deadline
        | None => Rejected ErrTimedOut deadline
        end
      else
        match abortAt with
        | Some a =>
            if (a <=? t)%N then Rejected ErrAborted a
            else match find t with
                 | Some p => Resolved p t
                 | None => poll fuel' (k + 1)%N timeoutMs intervalMs find abortAt
                 end
        | None =>
            match find t with
            | Some p => Resolved p t
            | None => poll fuel' (k + 1)%N timeoutMs intervalMs find abortAt
            end
        end
  end.

(** [waitForSessionFileById(sessionId, { timeoutMs, intervalMs, signal })],
    called at time 0. *)
Definition waitForSessionFileById (timeoutMs intervalMs : N)
    (find : N -> option string) (abortAt : option N) : WaitResult :=
  match find 0%N with
  | Some p => Resolved p 0                      (* the quick immediate check *)
  | None =>
      if fired abortAt 0 then Rejected ErrNotInitialised 0
      else
        let interval := N.max 1 intervalMs in
        poll (S (N.to_nat ((timeoutMs + 5) / interval))) 1 timeoutMs interval find abortAt
  end.

Definition WAIT_TIMEOUT_MS : N := 60000.
Definition WAIT_INTERVAL_MS : N := 250.
Definition DRAIN_MS : N := 50.

(** One run of the subprocess, as [queryCodex] sees it. Times are counted
    from the "spawn" event. *)
Record CodexRun : Type := {
  prompt : string;
  resume : string;                   (* options.resume, empty when absent *)
  spawnError : option string;        (* the child fails to spawn *)
  stderrId : option (N * string);    (* when the accumulated stderr first
                                        matches "session id: <uuid>", and the uuid *)
  sessionFile : string -> N -> option string;
                                     (* findCodexSessionFileById(id) at a time *)
  abortedBefore : bool;              (* abortController.signal.aborted when the
                                        body of the generator starts to run *)
  abortCall : option N;              (* when abortController.abort() is called
                                        after that *)
  stdoutEnd : N;                     (* when the loop over child.stdout ends *)
  closeAt : N;                       (* the "close" event of the child *)
  exitCode : option N;               (* its code, null for a death by signal *)
}.

(** When the signal is aborted, as [signal.aborted] and the listeners added
    during the run see it: from the start on for a controller that was
    aborted before the generator ran (a later [abort()] changes nothing),
    and from the call of [abort()] on otherwise. *)
Definition abortAt (c : CodexRun) : option N :=
  if abortedBefore c then Some 0%N else abortCall c.

(** The wait started by the stderr handler, in the time of the run. *)
Definition discovery (c : CodexRun) : option (string * WaitResult) :=
  match resume c, stderrId c with
  | EmptyString, Some (idAt, id) =>
      let abort' := match abortAt c with
                    | Some a => Some (a - idAt)%N
                    | None => None
                    end in
      Some (id, waitForSessionFileById WAIT_TIMEOUT_MS WAIT_INTERVAL_MS
                  (fun t => sessionFile c id (idAt + t)%N) abort')
  | _, _ => None
  end.

(** [pendingEmits]: the init event and the time it is pushed, when the wait
    resolves; a rejection of the wait is logged by [.catch] and dropped. *)
Definition pendingEmit (c : CodexRun) : option (N * CodexStreamEvent) :=
  match discovery c, stderrId c with
  | Some (id, Resolved path t), Some (idAt, _) => Some ((idAt + t)%N, Init path id)
  | _, _ => None
  end.

(** The loop "Drain background parsing while process runs": flush the
    pending events, then wait for the end of stdout or for 50 ms. *)
Fixpoint drain (fuel : nat) (now : N) (pending : option (N * CodexStreamEvent))
    (stdoutEnd : N) : list CodexStreamEvent :=
  match fuel with
  | 0 => []
  | S fuel' =>
      let flushed := match pending with
                     | Some (at_ms, ev) => if (at_ms <=? now)%N then [ev] else []
                     | None => []
                     end in
      let pending' := match flushed with [] => pending | _ => None end in
      if (stdoutEnd <=? now + DRAIN_MS)%N then flushed
      else flushed ++ drain fuel' (now + DRAIN_MS)%N pending' stdoutEnd
  end.

(** The local variable [aborted] when the "close" event arrives. It is set
    by the listener [onAbort], which the generator adds when its body
    starts to run, and by nothing else: a signal that was aborted before
    fires no event any more, and [aborted] stays false. *)
Definition abortedAtClose (c : CodexRun) : bool :=
  negb (abortedBefore c) && fired (abortCall c) (closeAt c).

(** [code ?? 0] *)
Definition closeCode (c : CodexRun) : N := default 0%N (exitCode c).

(** The events [queryCodex] yields to a consumer that takes them all, and
    how it ends. *)
Definition queryCodex (c : CodexRun) : list CodexStreamEvent * Completion :=
  match prompt c with
  | EmptyString => ([], Threw PromptRequired)
  | _ =>
      match spawnError c with
      | Some e => ([], Threw (SpawnFailed e))
      | None =>
          let inits := drain (S (N.to_nat (stdoutEnd c / DRAIN_MS))) 0 (pendingEmit c) (stdoutEnd c) in
          if negb (abortedAtClose c) && negb (closeCode c =? 0)%N
          then (inits, Threw (ExitedWithCode (closeCode c)))
          else if negb (abortedAtClose c) then (inits ++ [Done], Returned)
          else (inits, Returned)
      end
  end.


Definition is_done (e : CodexStreamEvent) : bool :=
  match e with Done => true | Init _ _ => false end.

Definition done_count (evs : list CodexStreamEvent) : nat :=
  length (List.filter is_done evs).


End Codex.

(** ** The JSONL tailer (src/services/codex.ts, tailJsonlFile) *)

(** Bytes are numbers below 256 and a JavaScript string is the list of its
    code points. *)
Module Tail.

Abbreviation byte := N (only parsing).
Abbreviation text := (list N) (only parsing).

(** *** [buffer.toString("utf8")] *)

Definition REPLACEMENT : N := 65533.   (* U+FFFD *)

(** The decoder between two characters, or inside one: the code point so
    far, the continuation bytes still needed, and the range allowed for the
    next byte. *)
Record Partial : Type := {
  codePoint : N;
  needed : nat;
  lower : N;
  upper : N;
}.

(** A byte read between two characters: a character of one byte, the first
    byte of a longer one, or an invalid byte. *)
Definition lead (b : N) : N + Partial :=
  if (b <=? 127)%N then inl b
  else if (194 <=? b)%N && (b <=? 223)%N then
    inr {| codePoint := N.land b 31; needed := 1; lower := 128; upper := 191 |}
  else if (224 <=? b)%N && (b <=? 239)%N then
    inr {| codePoint := N.land b 15; needed := 2;
           lower := if (b =? 224)%N then 160 else 128;
           upper := if (b =? 237)%N then 159 else 191 |}
  else if (240 <=? b)%N && (b <=? 244)%N then
    inr {| codePoint := N.land b 7; needed := 3;
           lower := if (b =? 240)%N then 144 else 128;
           upper := if (b =? 244)%N then 143 else 191 |}
  else inl REPLACEMENT.

Fixpoint decode_from (st : option Partial) (bs : list N) : list N :=
  match bs with
  | [] => match st with None => [] | Some _ => [REPLACEMENT] end
  | b :: bs' =>
      match st with
      | None =>
          match lead b with
          | inl cp => cp :: decode_from None bs'
          | inr p => decode_from (Some p) bs'
          end
      | Some p =>
          if (lower p <=? b)%N && (b <=? upper p)%N then
            let cp := N.lor (N.shiftl (codePoint p) 6) (N.land b 63) in
            match needed p with
            | 0 | 1 => cp :: decode_from None bs'
            | S n => decode_from
                       (Some {| codePoint := cp; needed := n; lower := 128; upper := 191 |}) bs'
            end
          else
            REPLACEMENT ::
            match lead b with
            | inl cp => cp :: decode_from None bs'
            | inr p' => decode_from (Some p') bs'
            end
      end
  end.

Definition utf8_decode (bs : list N) : list N := decode_from None bs.

(** *** Lines *)

Definition NL : N := 10.

(** The code points [String.prototype.trim] removes. *)
Definition is_space (c : N) : bool :=
  ((9 <=? c) && (c <=? 13) || (c =? 32) || (c =? 160) || (c =? 5760)
   || (8192 <=? c) && (c <=? 8202) || (c =? 8232) || (c =? 8233) || (c =? 8239)
   || (c =? 8287) || (c =? 12288) || (c =? 65279))%N.

Fixpoint trim_start (s : list N) : list N :=
  match s with
  | c :: s' => if is_space c then trim_start s' else s
  | [] => []
  end.

Definition trim (s : list N) : list N := rev (trim_start (rev (trim_start s))).

(** [nl = pending.indexOf("\n")], [pending.slice(0, nl)] and
    [pending.slice(nl + 1)]: the text before the first newline and the text
    after it, when there is a newline. *)
Fixpoint cut_line (s : list N) : option (list N * list N) :=
  match s with
  | [] => None
  | c :: s' =>
      if (c =? NL)%N then Some ([], s')
      else match cut_line s' with
           | Some (line, rest) => Some (c :: line, rest)
           | None => None
           end
  end.

(** The inner [while (true)] loop of [readNew]: the lines it enqueues and
    the text it leaves in [pending]. Each turn removes a character, so the
    length of [pending] bounds the turns. *)
Fixpoint split_lines (fuel : nat) (pending : list N) : list (list N) * list N :=
  match fuel with
  | 0 => ([], pending)
  | S fuel' =>
      match cut_line pending with
      | None => ([], pending)
      | Some (line, rest) =>
          let (lines, pending') := split_lines fuel' rest in
          let trimmed := trim line in
          (match trimmed with [] => lines | _ => trimmed :: lines end, pending')
      end
  end.

Definition take_lines (pending : list N) : list (list N) * list N :=
  split_lines (length pending) pending.

(** *** The file system *)

(** The files that have existed at [filePath], by inode, and the inode the
    path names now. An open handle keeps naming its inode. *)
Record Disk : Type := {
  inodes : list (list N);
  bound : option nat;
}.

Definition file_size (d : Disk) (ino : nat) : N :=
  N.of_nat (length (default [] (inodes d !! ino))).

(** [fs.stat(filePath)]: the size, or ENOENT. *)
Definition stat_path (d : Disk) : option N := file_size d <$> bound d.

(** The bytes [handle.read(buffer, 0, n, position)] returns. *)
Definition read_at (d : Disk) (ino : nat) (position n : N) : list N :=
  take (N.to_nat n) (drop (N.to_nat position) (default [] (inodes d !! ino))).

(** *** The tailer *)

(** Where the invocation of [readNew] that holds [reading] is suspended. *)
Inductive ReaderPc : Type :=
| R_Open                                   (* await openIfNeeded(false) *)
| R_Stat                                   (* await fs.stat(filePath) *)
| R_Read (ino : nat) (position remaining buflen : N).
                                           (* await handle.read(buffer, 0, chunkSize, position) *)

Record Tailer : Type := {
  startAtEnd : bool;
  started : bool;          (* the first openIfNeeded(true) has returned *)
  handle : option nat;
  offset : N;
  pending : list N;
  reading : bool;
  readQueued : bool;
  reader : option ReaderPc;
  closing : nat;           (* rename handlers suspended at [await fh.close()] *)
  opening : nat;           (* rename handlers suspended in openIfNeeded(true) *)
  queue : list (list N);
  yielded : list (list N); (* the lines the generator has yielded *)
  aborted : bool;
}.

Definition CHUNK : N := 1048576.   (* 1 << 20 *)

Inductive Event : Type :=
| Append (bytes : list N)     (* the writer appends to the file at the path *)
| Delete                      (* the file at the path is unlinked *)
| Create (bytes : list N)     (* a new file appears at the path *)
| Change                      (* the watcher reports "change" on the file *)
| Rename                      (* the watcher reports "rename" on the file *)
| FirstOpen                   (* the first openIfNeeded(true) settles *)
| ReaderOpen                  (* openIfNeeded(false) of readNew settles *)
| StatDone                    (* fs.stat(filePath) of readNew settles *)
| ReadDone (bytesRead : N)    (* handle.read of readNew settles *)
| CloseDone                   (* fh.close() of a rename handler settles *)
| RenameOpen                  (* openIfNeeded(true) of a rename handler settles *)
| Take                        (* the consumer takes the next line *)
| Abort.                      (* the signal fires *)

Definition start (atEnd : bool) : Tailer :=
  {| startAtEnd := atEnd; started := false; handle := None; offset := 0;
     pending := []; reading := false; readQueued := false; reader := None;
     closing := 0; opening := 0; queue := []; yielded := []; aborted := false |}.

Definition set_file (h : option nat) (off : N) (p : list N) (t : Tailer) : Tailer :=
  {| startAtEnd := startAtEnd t; started := started t; handle := h; offset := off;
     pending := p; reading := reading t; readQueued := readQueued t;
     reader := reader t; closing := closing t; opening := opening t;
     queue := queue t; yielded := yielded t; aborted := aborted t |}.

Definition set_reader (rd : bool) (q : bool) (r : option ReaderPc) (t : Tailer) : Tailer :=
  {| startAtEnd := startAtEnd t; started := started t; handle := handle t;
     offset := offset t; pending := pending t; reading := rd; readQueued := q;
     reader := r; closing := closing t; opening := opening t;
     queue := queue t; yielded := yielded t; aborted := aborted t |}.

Definition set_renames (c o : nat) (t : Tailer) : Tailer :=
  {| startAtEnd := startAtEnd t; started := started t; handle := handle t;
     offset := offset t; pending := pending t; reading := reading t;
     readQueued := readQueued t; reader := reader t; closing := c; opening := o;
     queue := queue t; yielded := yielded t; aborted := aborted t |}.

Definition set_lines (p : list N) (q y : list (list N)) (t : Tailer) : Tailer :=
  {| startAtEnd := startAtEnd t; started := started t; handle := handle t;
     offset := offset t; pending := p; reading := reading t;
     readQueued := readQueued t; reader := reader t; closing := closing t;
     opening := opening t; queue := q; yielded := y; aborted := aborted t |}.

Definition set_flags (st ab : bool) (t : Tailer) : Tailer :=
  {| startAtEnd := startAtEnd t; started := st; handle := handle t;
     offset := offset t; pending := pending t; reading := reading t;
     readQueued := readQueued t; reader := reader t; closing := closing t;
     opening := opening t; queue := queue t; yielded := yielded t; aborted := ab |}.

(** [openIfNeeded(initial)], from [fs.open] on: ENOENT leaves the state as
    it is; otherwise the handle is set and the offset is the size of the
    file for [initial && startAtEnd], and zero otherwise. The two awaits of
    the function, [fs.open] and [handle.stat], settle in one step here: a
    notification of the watcher handled between the two is not a run of
    this machine. *)
Definition opened (initial : bool) (d : Disk) (t : Tailer) : Tailer :=
  match bound d with
  | None => t
  | Some ino =>
      set_file (Some ino)
        (if initial && startAtEnd t then file_size d ino else 0%N) (pending t) t
  end.

(** [readNew()] up to its first [await]. *)
Definition readNew (t : Tailer) : Tailer :=
  if reading t then set_reader true true (reader t) t
  else match handle t with
       | None => set_reader true (readQueued t) (Some R_Open) t
       | Some _ => set_reader true (readQueued t) (Some R_Stat) t
       end.

(** The [finally] of [readNew]. *)
Definition read_finally (t : Tailer) : Tailer :=
  if readQueued t then readNew (set_reader false false None t)
  else set_reader false false None t.

(** The body of the read loop after a chunk: [pending += chunk], then the
    complete lines are enqueued. *)
Definition feed (bytes : list N) (t : Tailer) : Tailer :=
  let (lines, rest) := take_lines (pending t ++ utf8_decode bytes) in
  set_lines rest (queue t ++ lines) (yielded t) t.

Definition step (e : Event) (st : Disk * Tailer) : option (Disk * Tailer) :=
  let (d, t) := st in
  match e with
  | Append bytes =>
      match bound d with
      | Some ino =>
          Some ({| inodes := alter (fun c => c ++ bytes) ino (inodes d); bound := bound d |}, t)
      | None => None
      end
  | Delete =>
      match bound d with
      | Some _ => Some ({| inodes := inodes d; bound := None |}, t)
      | None => None
      end
  | Create bytes =>
      match bound d with
      | None => Some ({| inodes := inodes d ++ [bytes]; bound := Some (length (inodes d)) |}, t)
      | Some _ => None
      end
  | Change => if aborted t then Some (d, t) else Some (d, readNew t)
  | Rename =>
      if aborted t then Some (d, t)
      else match handle t with
           | Some _ => Some (d, set_renames (S (closing t)) (opening t) t)
           | None => Some (d, set_renames (closing t) (S (opening t)) (set_file None 0 [] t))
           end
  | CloseDone =>
      match closing t with
      | S c =>
          (* handle = null; offset = 0; pending = ""; then openIfNeeded(true) *)
          Some (d, set_renames c (S (opening t)) (set_file None 0 [] t))
      | 0 => None
      end
  | RenameOpen =>
      match opening t with
      | S o => Some (d, readNew (opened true d (set_renames (closing t) o t)))
      | 0 => None
      end
  | FirstOpen =>
      if started t then None
      else
        let t := set_flags true (aborted t) (opened true d t) in
        Some (d, if startAtEnd t then t else readNew t)
  | ReaderOpen =>
      match reader t with
      | Some R_Open =>
          let t := opened false d t in
          match handle t with
          | None => Some (d, read_finally t)
          | Some _ => Some (d, set_reader true (readQueued t) (Some R_Stat) t)
          end
      | _ => None
      end
  | StatDone =>
      match reader t with
      | Some R_Stat =>
          match stat_path d with
          | None =>
              (* ENOENT: close the handle, reset, wait for a rename *)
              Some (d, read_finally (set_file None 0 [] t))
          | Some size =>
              if (size <=? offset t)%N then Some (d, read_finally t)
              else
                let toRead := (size - offset t)%N in
                if aborted t then
                  (* the loop is not entered; offset = position *)
                  Some (d, read_finally t)
                else
                  match handle t with
                  | None => Some (d, read_finally t)   (* handle.read throws *)
                  | Some ino =>
                      Some (d, set_reader true (readQueued t)
                                 (Some (R_Read ino (offset t) toRead (N.min toRead CHUNK))) t)
                  end
          end
      | _ => None
      end
  | ReadDone n =>
      match reader t with
      | Some (R_Read ino position remaining buflen) =>
          let chunkSize := N.min buflen remaining in
          let available := (file_size d ino - position)%N in
          let most := N.min chunkSize available in
          if (n <=? most)%N && ((0 <? n)%N || (most =? 0)%N) then
            if (n =? 0)%N then
              Some (d, read_finally (set_file (handle t) position (pending t) t))
            else
              let t := feed (read_at d ino position n) t in
              let position := (position + n)%N in
              let remaining := (remaining - n)%N in
              if (0 <? remaining)%N && negb (aborted t) then
                match handle t with
                | None => Some (d, read_finally t)   (* handle.read throws *)
                | Some ino' =>
                    Some (d, set_reader true (readQueued t)
                               (Some (R_Read ino' position remaining buflen)) t)
                end
              else Some (d, read_finally (set_file (handle t) position (pending t) t))
          else None
      | _ => None
      end
  | Take =>
      if started t && negb (aborted t) then
        match queue t with
        | line :: q => Some (d, set_lines (pending t) q (yielded t ++ [line]) t)
        | [] => None
        end
      else None
  | Abort => Some (d, set_flags (started t) true t)
  end.

Fixpoint run (es : list Event) (st : Disk * Tailer) : option (Disk * Tailer) :=
  match es with
  | [] => Some st
  | e :: es => st' ← step e st; run es st'
  end.

(** *** Reading the whole file at once *)

(** The lines of a text: split on newlines, each piece trimmed, the empty
    ones dropped, the piece after the last newline left out. *)
Definition lines_of (s : list N) : list (list N) := fst (take_lines s).

(** What the tailer is to yield for the bytes [content]: the lines of the
    decoded content. *)
Definition full_read (content : list N) : list (list N) := lines_of (utf8_decode content).

End Tail.

(** ** JavaScript strings *)

(** A string is the list of its UTF-16 code units. *)
Module Js.

(** A literal of ASCII characters. *)
Definition lit (s : string) : list N :=
  map (fun a => N.of_nat (nat_of_ascii a)) (list_ascii_of_string s).

Definition is_digit (c : N) : bool := ((48 <=? c) && (c <=? 57))%N.

(** [0-9a-fA-F-] *)
Definition is_uuid_unit (c : N) : bool :=
  (is_digit c || (97 <=? c) && (c <=? 102) || (65 <=? c) && (c <=? 70) || (c =? 45))%N.

(** The lower case of a code unit, for the letters A to Z. A unit above 127
    is left as it is: neither [toLowerCase] nor the case folding of a regular
    expression without the [u] flag maps such a unit to one below 128 that
    the patterns of this file mention. *)
Definition to_lower (c : N) : N :=
  if ((65 <=? c) && (c <=? 90))%N then (c + 32)%N else c.

Definition toLowerCase (s : list N) : list N := map to_lower s.

Fixpoint startsWith (s p : list N) {struct p} : bool :=
  match p, s with
  | [], _ => true
  | a :: p', b :: s' => (a =? b)%N && startsWith s' p'
  | _ :: _, [] => false
  end.

Definition endsWith (s p : list N) : bool := startsWith (rev s) (rev p).

Fixpoint drop_while {A} (f : A -> bool) (s : list A) : list A :=
  match s with
  | c :: s' => if f c then drop_while f s' else s
  | [] => []
  end.

Fixpoint take_while {A} (f : A -> bool) (s : list A) : list A :=
  match s with
  | c :: s' => if f c then c :: take_while f s' else []
  | [] => []
  end.

(** [s.split(sep)] for a separator of one unit. *)
Fixpoint split (sep : N) (s : list N) : list (list N) :=
  match s with
  | [] => [[]]
  | c :: s' =>
      if (c =? sep)%N then [] :: split sep s'
      else match split sep s' with
           | piece :: pieces => (c :: piece) :: pieces
           | [] => [[c]]
           end
  end.

(** [xs.join(sep)] *)
Fixpoint join (sep : N) (pieces : list (list N)) : list N :=
  match pieces with
  | [] => []
  | [piece] => piece
  | piece :: pieces' => piece ++ sep :: join sep pieces'
  end.

Definition nonempty (t : list N) : bool := match t with [] => false | _ => true end.

End Js.

(** ** Session ids and session files (src/services/codex.ts) *)

Module SessionFiles.
Import Js.

(** *** parseSessionId *)

Definition SESSION_ID_KEY : list N := lit "session id:".

(** A match of [/session id:\s*([0-9a-fA-F-]{36})/i] that starts at the
    first unit of [s]: the group. The class of the group and the white space
    are disjoint, so the greedy [\s*] never gives a unit back. *)
Definition match_session_id (s : list N) : option (list N) :=
  if startsWith (toLowerCase (take 11 s)) SESSION_ID_KEY then
    let group := take 36 (drop_while Tail.is_space (drop 11 s)) in
    if (length group =? 36) && forallb is_uuid_unit group then Some group else None
  else None.

(** [text.match(re)]: the leftmost match. *)
Fixpoint parseSessionId (text : list N) : option (list N) :=
  match match_session_id text with
  | Some id => Some id
  | None =>
      match text with
      | [] => None
      | _ :: text' => parseSessionId text'
      end
  end.

(** The part of the handler of [child.stderr.on("data")] that looks for the
    session id: [resume] is [options.resume]. *)
Record StderrScan : Type := {
  stderrBuffer : list N;
  sessionIdFound : option (list N);
}.

Definition on_stderr_data (resume : list N) (st : StderrScan) (data : list N) : StderrScan :=
  match resume, sessionIdFound st with
  | [], None =>
      let buffer := stderrBuffer st ++ data in
      {| stderrBuffer := buffer; sessionIdFound := parseSessionId buffer |}
  | _, _ => st
  end.

Definition scan_stderr (resume : list N) (chunks : list (list N)) : StderrScan :=
  fold_left (on_stderr_data resume) chunks {| stderrBuffer := []; sessionIdFound := None |}.

(** *** extractUuidFromJsonlPath *)

Definition SLASH : N := 47.
Definition is_slash (c : N) : bool := (c =? SLASH)%N.

(** [path.basename(p)] of [node:path] on POSIX: the last component, trailing
    slashes left out. *)
Definition basename (p : list N) : list N :=
  rev (take_while (fun c => negb (is_slash c)) (drop_while is_slash (rev p))).

(** One position of a pattern of fixed length. *)
Inductive UnitClass : Type :=
| Digit                (* \d *)
| UuidUnit             (* [0-9a-fA-F-] *)
| Unit (c : N).

Definition in_class (k : UnitClass) (c : N) : bool :=
  match k with
  | Digit => is_digit c
  | UuidUnit => is_uuid_unit c
  | Unit c' => (c =? c')%N
  end.

Fixpoint matches (pat : list UnitClass) (s : list N) : bool :=
  match pat, s with
  | [], [] => true
  | k :: pat', c :: s' => in_class k c && matches pat' s'
  | _, _ => false
  end.

Definition DASH : UnitClass := Unit 45.

(** [rollout-\d{4}-\d{2}-\d{2}T\d{2}-\d{2}-\d{2}-] *)
Definition ROLLOUT_STAMP : list UnitClass :=
  map Unit (lit "rollout-")
  ++ [Digit; Digit; Digit; Digit; DASH; Digit; Digit; DASH; Digit; Digit; Unit 84;
      Digit; Digit; DASH; Digit; Digit; DASH; Digit; Digit; DASH].

(** The whole pattern: the stamp, the group [uuid] and [\.jsonl]. *)
Definition ROLLOUT_FILE : list UnitClass :=
  ROLLOUT_STAMP ++ repeat UuidUnit 36 ++ map Unit (lit ".jsonl").

(** The pattern has a fixed length and ends in [$]: it can only match the
    last 70 units of the base name. *)
Definition extractUuidFromJsonlPath (p : list N) : option (list N) :=
  let name := basename p in
  let n := length ROLLOUT_FILE in
  if length name <? n then None
  else
    let last := drop (length name - n) name in
    if matches ROLLOUT_FILE last then Some (take 36 (drop (length ROLLOUT_STAMP) last))
    else None.

End SessionFiles.

(** *** findCodexSessionFileById *)

Module FindSession.
Import Js SessionFiles.

(** What is found at a path when the search reaches it. *)
#[warnings="-register-all"]
Inductive Node : Type :=
| File (mtime : option N)                    (* a regular file, and what [fs.stat] gives:
                                                [mtimeMs], or an error *)
| Other                                      (* a link, a socket, ... *)
| Directory (entries : list (list N * Node)) (* what [fs.readdir] gives *)
| Missing                                    (* a directory whose [readdir] fails with ENOENT *)
| Broken (err : list N).                     (* a directory whose [readdir] fails otherwise *)

(** [entry.isDirectory()] *)
Definition isDirectory (n : Node) : bool :=
  match n with
  | Directory _ | Missing | Broken _ => true
  | File _ | Other => false
  end.

Record Match : Type := { filePath : list N; mtimeMs : N }.

(** [path.join(dir, entry.name)], for a normalized [dir] and the name of a
    directory entry. *)
Definition join (dir name : list N) : list N := dir ++ [SLASH] ++ name.

(** The tests a file passes to be a match. *)
Definition is_session_file (lowerId name fullPath : list N) : bool :=
  endsWith name (lit ".jsonl") && startsWith name (lit "rollout-")
  && match extractUuidFromJsonlPath fullPath with
     | Some uuid => bool_decide (toLowerCase uuid = lowerId)
     | None => false
     end.

(** The directories still to read, the last one pushed first. *)
Definition Stack : Type := list (list N * Node).

(** One turn of [for (const entry of entries)]. *)
Definition visit (lowerId dir : list N) (acc : Stack * list Match)
    (entry : list N * Node) : Stack * list Match :=
  let (stack, matches) := acc in
  let (name, node) := entry in
  let fullPath := join dir name in
  if isDirectory node then ((fullPath, node) :: stack, matches)
  else
    match node with
    | File mtime =>
        if is_session_file lowerId name fullPath
        then (stack, matches ++ [{| filePath := fullPath; mtimeMs := default 0%N mtime |}])
        else (stack, matches)
    | _ => (stack, matches)
    end.

Inductive Outcome (A : Type) : Type :=
| Returned (a : A)
| Threw (err : list N).
Arguments Returned {A} a.
Arguments Threw {A} err.

Definition ENOTDIR : list N := lit "ENOTDIR".

(** [while (stack.length)]: each turn pops one directory. *)
Fixpoint walk (fuel : nat) (lowerId : list N) (stack : Stack) (matches : list Match)
    : option (Outcome (list Match)) :=
  match fuel with
  | 0 => None
  | S fuel' =>
      match stack with
      | [] => Some (Returned matches)
      | (dir, node) :: stack' =>
          match node with
          | Directory entries =>
              let (stack'', matches') :=
                fold_left (visit lowerId dir) entries (stack', matches) in
              walk fuel' lowerId stack'' matches'
          | Missing => walk fuel' lowerId stack' matches
          | Broken err => Some (Threw err)
          | File _ | Other => Some (Threw ENOTDIR)
          end
      end
  end.

(** [matches.sort((a, b) => b.mtimeMs - a.mtimeMs)]: the sort is stable. *)
Fixpoint insert_desc (m : Match) (sorted : list Match) : list Match :=
  match sorted with
  | [] => [m]
  | x :: sorted' =>
      if (mtimeMs x <=? mtimeMs m)%N then m :: sorted else x :: insert_desc m sorted'
  end.

Definition sort_desc (matches : list Match) : list Match := foldr insert_desc [] matches.

(** The turns of the loop a tree takes: one for each directory pushed. *)
Fixpoint turns (n : Node) : nat :=
  match n with
  | Directory entries =>
      S ((fix go (es : list (list N * Node)) : nat :=
            match es with
            | [] => 0
            | (_, child) :: es' => (if isDirectory child then turns child else 0) + go es'
            end) entries)
  | _ => 1
  end.

(** [findCodexSessionFileById(sessionId)], for the tree [sessions] found at
    [root = ~/.codex/sessions]. *)
Definition findCodexSessionFileById (root : list N) (sessions : Node) (sessionId : list N)
    : option (Outcome (option (list N))) :=
  match walk (S (turns sessions)) (toLowerCase sessionId) [(root, sessions)] [] with
  | None => None
  | Some (Threw err) => Some (Threw err)
  | Some (Returned matches) =>
      match sort_desc matches with
      | [] => Some (Returned None)
      | m :: _ => Some (Returned (Some (filePath m)))
      end
  end.

End FindSession.

(** ** The API key middleware (src/middleware/auth.ts) *)

Module Auth.
Import Js.

Definition BEARER : list N := lit "Bearer ".

(** The units [.] does not match. *)
Definition is_line_terminator (c : N) : bool :=
  ((c =? 10) || (c =? 13) || (c =? 8232) || (c =? 8233))%N.

(** [apiKeyHeaderSchema.safeParse(headers).success]: [authorization] is a
    string that matches [/^Bearer .+/]. *)
Definition header_ok (authorization : option (list N)) : bool :=
  match authorization with
  | Some a =>
      startsWith a BEARER
      && match drop (length BEARER) a with
         | c :: _ => negb (is_line_terminator c)
         | [] => false
         end
  | None => false
  end.

(** [s.replace(pattern, replacement)] for a string pattern: the first
    occurrence is replaced. *)
Fixpoint replace_first (pattern replacement s : list N) : list N :=
  if startsWith s pattern then replacement ++ drop (length pattern) s
  else match s with
       | [] => []
       | c :: s' => c :: replace_first pattern replacement s'
       end.

Definition extractApiKey (authorization : option (list N)) : list N :=
  match authorization with
  | Some a => if startsWith a BEARER then replace_first BEARER [] a else a
  | None => []
  end.

(** [new AgentError(message, status)] *)
Record AgentError : Type := { message : string; status : nat }.

(** [getValidatedApiKey(headers)], for [process.env.API_KEY] and
    [headers.authorization]: the token, or the error thrown. *)
Definition getValidatedApiKey (expectedApiKey authorization : option (list N))
    : AgentError + list N :=
  match expectedApiKey with
  | None | Some [] => inl {| message := "API key not configured on server"; status := 500 |}
  | Some expected =>
      if negb (header_ok authorization) then
        inl {| message := "Invalid authorization header format. Expected: Bearer <token>";
               status := 401 |}
      else
        let token := extractApiKey authorization in
        match token with
        | [] => inl {| message := "Invalid API key"; status := 401 |}
        | _ => if bool_decide (token = expected) then inr token
               else inl {| message := "Invalid API key"; status := 401 |}
        end
  end.

(** What the middleware does with a request. *)
Inductive Decision : Type :=
| Next (apiKey : list N)                 (* req.apiKey = token; next() *)
| Respond (status : nat) (error : string).

Definition validateApiKey (expectedApiKey authorization : option (list N)) : Decision :=
  match getValidatedApiKey expectedApiKey authorization with
  | inr token => Next token
  | inl e => Respond (status e) (message e)
  end.

End Auth.

(** ** GET /env/:env_name (routes/env) *)

Module EnvRoute.
Import Js.

Definition COMMA : N := 44.

(** [raw.split(",").map((t) => t.trim()).filter((t) => t.length > 0)] *)
Definition tokens (raw : list N) : list (list N) :=
  List.filter nonempty (map Tail.trim (split COMMA raw)).

(** [/^[A-Z0-9_]+$/.test(t)] *)
Definition is_name_unit (c : N) : bool :=
  ((65 <=? c) && (c <=? 90) || is_digit c || (c =? 95))%N.

Definition is_env_name (t : list N) : bool := nonempty t && forallb is_name_unit t.

(** [process.env]: every value is a string. *)
Definition Env : Type := gmap (list N) (list N).

(** [hasOwnProperty(process.env, name) && typeof process.env[name] ===
    "string" && process.env[name] !== ""] *)
Definition exists_ (env : Env) (name : list N) : bool :=
  match env !! name with
  | Some value => nonempty value
  | None => false
  end.

Inductive Response : Type :=
| BadRequest (error : string) (invalid : option (list N))    (* status 400 *)
| Json (results : gmap (list N) bool).

(** The handler, for [req.params.env_name]. *)
Definition get_env (env : Env) (env_name : list N) : Response :=
  if (length env_name <? 1) || (1024 <? length env_name) then
    BadRequest "Invalid env_name" None
  else
    let tokens := tokens env_name in
    match tokens with
    | [] => BadRequest "env_name must contain at least one variable name" None
    | _ =>
        match List.find (fun t => negb (is_env_name t)) tokens with
        | Some invalid =>
            BadRequest
              "Each env_name must be uppercase alphanumerics and underscores (A-Z, 0-9, _)"
              (Some invalid)
        | None =>
            Json (fold_left (fun results name => <[name := exists_ env name]> results)
                    tokens ∅)
        end
    end.

End EnvRoute.

(** ** Worktrees (services/git, createWorktree) *)

Module Worktree.
Import Js.

Definition HYPHEN : N := 45.

(** [sessionId.split("-")[0]] *)
Definition first_segment (sessionId : list N) : list N :=
  take_while (fun c => negb (c =? HYPHEN)%N) sessionId.

(** [(sessionId.split("-")?.[0] || sessionId).toLowerCase()], for an id of
    ASCII characters. *)
Definition shortId (sessionId : list N) : list N :=
  toLowerCase (match first_segment sessionId with
               | [] => sessionId
               | segment => segment
               end).

(** [`session/${shortId}`] *)
Definition branchBase (sessionId : list N) : list N := lit "session/" ++ shortId sessionId.

(** [`${branchBase}-${counter}`] *)
Definition numbered (base : list N) (counter : nat) : list N :=
  base ++ [HYPHEN] ++ lit (pretty counter).

(** The loop [while (counter < 10)]: [branch_exists b] is whether
    [git rev-parse --verify --quiet b] succeeds. Each turn that goes on
    increments [counter], so ten turns are enough. *)
Fixpoint choose (fuel : nat) (branch_exists : list N -> bool) (base : list N)
    (counter : nat) (branch : list N) : list N :=
  match fuel with
  | 0 => branch
  | S fuel' =>
      if counter <? 10 then
        if branch_exists branch
        then choose fuel' branch_exists base (S counter) (numbered base (S counter))
        else branch
      else branch
  end.

(** The branch [createWorktree] passes to [git worktree add -b]. *)
Definition choose_branch (branch_exists : list N -> bool) (sessionId : list N) : list N :=
  choose 11 branch_exists (branchBase sessionId) 0 (branchBase sessionId).

End Worktree.

(** ** The messages of a Codex session (db/session, getMessages) *)

Module Messages.
Import Js.

(** [file.split("\n").map((line) => line.trim()).filter((line) =>
    line.length > 0)]: the lines [getMessages] hands to [JSON.parse]. *)
Definition jsonl_lines (file : list N) : list (list N) :=
  List.filter nonempty (map Tail.trim (split Tail.NL file)).

End Messages.

(** ** Names of uploaded files (services/sessionService, sanitizeRelativePath) *)

Module Upload.
Import Js.

Definition BACKSLASH : N := 92.
Definition SLASH : N := 47.
Definition DOT : N := 46.

(** [s.replace(/\\+/g, "/")]: every run of backslashes becomes one slash;
    [in_run] tells that the unit before was a backslash. *)
Fixpoint replace_backslashes (in_run : bool) (s : list N) : list N :=
  match s with
  | [] => []
  | c :: s' =>
      if (c =? BACKSLASH)%N
      then (if in_run then [] else [SLASH]) ++ replace_backslashes true s'
      else c :: replace_backslashes false s'
  end.

(** [segment !== "" && segment !== "." && segment !== ".."] *)
Definition is_name (segment : list N) : bool :=
  nonempty segment && negb (bool_decide (segment = [DOT]))
  && negb (bool_decide (segment = [DOT; DOT])).

Definition sanitizeRelativePath (filePath : list N) : option (list N) :=
  let normalized :=
    drop_while (fun c => (c =? SLASH)%N) (replace_backslashes false filePath) in
  let segments := List.filter is_name (map Tail.trim (split SLASH normalized)) in
  match segments with
  | [] => None
  | _ => Some (join SLASH segments)
  end.

End Upload.

(** ** Server-sent events (routes/generate, send) *)

Module Sse.
Import Js.

Definition NL : N := 10.
Definition BACKSLASH : N := 92.

(** [data.replace(/\n/g, "\\n")]: a newline becomes a backslash and an "n". *)
Fixpoint escape (data : list N) : list N :=
  match data with
  | [] => []
  | c :: data' => if (c =? NL)%N then BACKSLASH :: 110%N :: escape data' else c :: escape data'
  end.

(** What [send(data)] writes to the response. *)
Definition send (data : list N) : list N := lit "data: " ++ escape data ++ [NL; NL].

End Sse.

(** ** Theorems: session lock *)

Module SessionLockFacts.
Import SessionLock.

Lemma activeSessionKey_inj a b : activeSessionKey a = activeSessionKey b -> a = b.
Proof. unfold activeSessionKey. cbn. intros H. by injection H. Qed.

(** [acquire] is create-if-absent: it succeeds exactly when the key is absent. *)
Lemma acquire_spec now sid d :
  acquire now sid d =
  if Redis.exists_ now (activeSessionKey sid) d then (false, d)
  else (true, <[activeSessionKey sid := Redis.Entry "1" (now + LOCK_TTL)]> d).
Proof. unfold acquire, Redis.set_ex_nx. by destruct Redis.exists_. Qed.

Lemma exists_lookup now key d :
  Redis.exists_ now key d = true <->
  exists e, d !! key = Some e /\ now < Redis.expireAt e.
Proof.
  unfold Redis.exists_, Redis.get, Redis.live.
  destruct (d !! key) as [e|] eqn:E.
  - destruct (Nat.ltb_spec now (Redis.expireAt e)); split.
    + intros _. by exists e.
    + done.
    + done.
    + intros (e' & [= <-] & ?). lia.
  - split; [done | intros (e' & ? & _); done].
Qed.

Lemma exec_op_clock o now d : now <= fst (exec_op o (now, d)).
Proof. destruct o; cbn; lia. Qed.

Lemma exec_ops_clock ops : forall now d, now <= fst (exec_ops ops (now, d)).
Proof.
  induction ops as [|o ops IH]; intros now d; [cbn; lia|].
  unfold exec_ops in *. cbn [fold_left].
  pose proof (exec_op_clock o now d) as H1.
  destruct (exec_op o (now, d)) as [now1 d1]. cbn in H1.
  specialize (IH now1 d1). lia.
Qed.

(** One operation that is not a deletion of the key of [sid] leaves a live
    entry of that key as it is. *)
Lemma exec_op_held sid e o now d :
  d !! activeSessionKey sid = Some e ->
  now < Redis.expireAt e ->
  releases sid o = false ->
  snd (exec_op o (now, d)) !! activeSessionKey sid = Some e.
Proof.
  intros Hd Hlt Ho. destruct o as [sid'|sid'|n]; cbn.
  - rewrite acquire_spec.
    destruct (Redis.exists_ now (activeSessionKey sid') d) eqn:Hex; cbn; [done|].
    destruct (decide (activeSessionKey sid' = activeSessionKey sid)) as [Heq|Hne].
    + rewrite Heq in Hex.
      assert (Redis.exists_ now (activeSessionKey sid) d = true) as Hlive; [|congruence].
      apply exists_lookup. by exists e.
    + by rewrite lookup_insert_ne.
  - unfold release, Redis.del. cbn. cbn in Ho.
    destruct (decide (sid' = sid)) as [->|Hne]; [done|].
    rewrite lookup_delete_ne; [done|].
    intros Heq. by apply activeSessionKey_inj in Heq.
  - done.
Qed.

(** The entry written by a successful acquisition stays in the store, with
    its expiry, as long as nobody deletes that key. *)
Lemma held_preserved sid e ops : forall now d,
  d !! activeSessionKey sid = Some e ->
  forallb (fun o => negb (releases sid o)) ops = true ->
  fst (exec_ops ops (now, d)) < Redis.expireAt e ->
  snd (exec_ops ops (now, d)) !! activeSessionKey sid = Some e.
Proof.
  induction ops as [|o ops IH]; intros now d Hd Hnr Hlt; [done|].
  cbn in Hnr. apply andb_true_iff in Hnr as [Ho Hnr].
  apply negb_true_iff in Ho.
  unfold exec_ops in *. cbn [fold_left] in *.
  pose proof (exec_op_clock o now d) as Hc1.
  destruct (exec_op o (now, d)) as [now1 d1] eqn:Hstep. cbn in Hc1.
  pose proof (exec_ops_clock ops now1 d1) as Hc2. unfold exec_ops in Hc2.
  apply IH; [|done|done].
  replace d1 with (snd (exec_op o (now, d))) by by rewrite Hstep.
  apply exec_op_held; [done|lia|done].
Qed.

(** C1 (as stated, refuted). A successful [acquire] of a session, no release
    in between, and a second [acquire] of the same session that succeeds:
    the key written with [EX 3600] has expired 3601 seconds later. *)
Lemma session_lock_expiry_reacquire :
  let first := acquire 0 "s1" ∅ in
  let ops := [OpElapse 3601] in
  let st := exec_ops ops (0, snd first) in
  fst first = true /\
  forallb (fun o => negb (releases "s1" o)) ops = true /\
  fst (acquire (fst st) "s1" (snd st)) = true.
Proof. vm_compute. done. Qed.

(** C1 (amended). [acquire] is a create-if-absent of the key
    [session:active:<sessionId>] with the fixed expiry of 3600 seconds, and
    returns whether the key was created; after a successful [acquire], every
    further [acquire] of the same session fails, and changes nothing, until
    the key is deleted or 3600 seconds have passed since the first. *)
Theorem session_lock_exclusion sid now d :
  acquire now sid d =
    (if Redis.exists_ now (activeSessionKey sid) d then (false, d)
     else (true, <[activeSessionKey sid := Redis.Entry "1" (now + LOCK_TTL)]> d))
  /\ forall ops,
      fst (acquire now sid d) = true ->
      forallb (fun o => negb (releases sid o)) ops = true ->
      fst (exec_ops ops (now, snd (acquire now sid d))) < now + LOCK_TTL ->
      acquire (fst (exec_ops ops (now, snd (acquire now sid d)))) sid
              (snd (exec_ops ops (now, snd (acquire now sid d))))
      = (false, snd (exec_ops ops (now, snd (acquire now sid d)))).
Proof.
  split; [apply acquire_spec|].
  intros ops Hok Hnr Hlt.
  pose proof (acquire_spec now sid d) as Ha.
  destruct (Redis.exists_ now (activeSessionKey sid) d) eqn:Hex;
    rewrite Ha in *; cbn [fst snd] in *; [done|].
  set (e := Redis.Entry "1" (now + LOCK_TTL)) in *.
  assert (snd (exec_ops ops (now, <[activeSessionKey sid:=e]> d))
            !! activeSessionKey sid = Some e) as Hheld.
  { apply held_preserved; [apply lookup_insert_eq|done|done]. }
  assert (Redis.exists_ (fst (exec_ops ops (now, <[activeSessionKey sid:=e]> d)))
            (activeSessionKey sid)
            (snd (exec_ops ops (now, <[activeSessionKey sid:=e]> d))) = true) as Hlive.
  { apply exists_lookup. by exists e. }
  by rewrite acquire_spec, Hlive.
Qed.

Lemma session_lock_exclusion_witness :
  let ops := [OpAcquire "s1"; OpElapse 10; OpRelease "s2"; OpAcquire "s2"; OpElapse 3589] in
  acquire (fst (exec_ops ops (0, snd (acquire 0 "s1" ∅)))) "s1"
          (snd (exec_ops ops (0, snd (acquire 0 "s1" ∅))))
  = (false, snd (exec_ops ops (0, snd (acquire 0 "s1" ∅)))).
Proof.
  intros ops.
  apply (proj2 (session_lock_exclusion "s1" 0 ∅) ops).
  - vm_compute. reflexivity.
  - vm_compute. reflexivity.
  - vm_compute. lia.
Defined.

End SessionLockFacts.

(** ** Theorems: the job registry *)

Module GenerateFacts.
Import Generate.

(** What a step can do to one job, as a sequence of the elementary updates
    the route file performs on a [BackgroundJob]. *)
Inductive job_trans : BackgroundJob -> BackgroundJob -> Prop :=
| jt_refl j : job_trans j j
| jt_push line j j' : job_trans j j' -> job_trans j (push_emit line j')
| jt_done j j' : job_trans j j' -> job_trans j (emit_done j')
| jt_running j j' : job_trans j j' -> job_trans j (set_status running j')
| jt_completed j j' : job_trans j j' -> job_trans j (set_status completed j')
| jt_failed j j' : job_trans j j' -> job_trans j (set_status failed j')
| jt_started n j j' : job_trans j j' -> job_trans j (set_startedAt n j')
| jt_finished n j j' : job_trans j j' -> job_trans j (set_finishedAt n j')
| jt_error e j j' : job_trans j j' -> job_trans j (set_error e j')
| jt_subscribe j j' : job_trans j j' -> job_trans j (subscribe j')
| jt_unsubscribe k j j' : job_trans j j' -> job_trans j (unsubscribe k j').

Create HintDb jobs.
#[local] Hint Constructors job_trans : jobs.

Lemma job_trans_trans j1 j2 j3 : job_trans j1 j2 -> job_trans j2 j3 -> job_trans j1 j3.
Proof. intros H12 H23. induction H23; eauto with jobs. Qed.

(** The job a background request creates, before the user message is pushed. *)
Definition fresh_job (uuid sid : string) (now i : nat) : BackgroundJob :=
  {| taskId := uuid; sessionId := sid; status := queued;
     createdAt := now; startedAt := None; finishedAt := None;
     error := None; events := []; emitter := []; doneEmitted := 0;
     abortController := i;
     activeSessionKey := SessionLock.activeSessionKey sid |}.

Definition opt_trans (o o' : option BackgroundJob) : Prop :=
  match o, o' with
  | Some j, Some j' => job_trans j j'
  | None, Some j' => exists uuid sid now i, job_trans (fresh_job uuid sid now i) j'
  | None, None => True
  | Some _, None => False
  end.

Lemma opt_trans_refl o : opt_trans o o.
Proof. destruct o; cbn; eauto with jobs. Qed.

Lemma opt_trans_alter f t (m : gmap string BackgroundJob) o t' :
  (forall j, job_trans j (f j)) ->
  opt_trans o (m !! t') ->
  opt_trans o (alter f t m !! t').
Proof.
  intros Hf Ho. destruct (decide (t = t')) as [->|Hne].
  - rewrite lookup_alter_eq. destruct o, (m !! t'); cbn in *; try done.
    + eauto using job_trans_trans.
    + destruct Ho as (u & sid & n & i & Ho). exists u, sid, n, i.
      eauto using job_trans_trans.
  - by rewrite lookup_alter_ne.
Qed.

Lemma job_trans_pushes contents : forall j0 j,
  job_trans j0 j ->
  job_trans j0 (fold_left (fun j content => push_emit content j) contents j).
Proof. induction contents; cbn; eauto with jobs. Qed.

Ltac unfold_server :=
  unfold core_resolved, core_threw, job_finally, fg_finally, release_session,
    out, after_loop, update_inv, update_job, with_redis, with_controllers,
    with_jobs, with_invocations, with_clock in *;
  cbn [backgroundJobs invocations clock redis sessionAbortControllers] in *.

Ltac open_bind H :=
  repeat match type of H with
  | (?o ≫= _) = Some _ =>
      let E := fresh "E" in
      destruct o eqn:E; cbn [mbind option_bind] in H; [|discriminate H]
  end.

Ltac step_cases H :=
  unfold step, resume in H; open_bind H;
  repeat (case_match; simplify_eq; try done); open_bind H; simplify_eq.

(** Every step acts on every job through the elementary updates only. *)
Lemma step_jobs l s s' t :
  step l s = Some s' ->
  opt_trans (backgroundJobs s !! t) (backgroundJobs s' !! t).
Proof.
  intros H. destruct l; step_cases H; unfold_server;
    repeat case_match; simplify_eq; unfold_server;
    try apply opt_trans_refl;
    repeat (apply opt_trans_alter; [intros; eauto 8 with jobs|]);
    try apply opt_trans_refl.
  all: try (destruct (decide (uuid = t)) as [->|];
    [ rewrite lookup_insert_eq;
      match goal with H : _ !! _ = None |- _ => rewrite H end;
      cbn; do 4 eexists; apply job_trans_pushes, jt_refl
    | rewrite lookup_insert_ne by done; apply opt_trans_refl ]).
Qed.

(** Jobs are never removed, and a run acts on a job as a sequence of
    elementary updates. *)
Lemma run_jobs tr : forall s s' t j,
  run tr s = Some s' ->
  backgroundJobs s !! t = Some j ->
  exists j', backgroundJobs s' !! t = Some j' /\ job_trans j j'.
Proof.
  induction tr as [|l tr IH]; intros s s' t j Hrun Hj; cbn in Hrun.
  - simplify_eq. eauto with jobs.
  - destruct (step l s) as [s1|] eqn:Hstep; cbn in Hrun; [|done].
    pose proof (step_jobs l s s1 t Hstep) as Ht. rewrite Hj in Ht.
    destruct (backgroundJobs s1 !! t) as [j1|] eqn:Hj1; cbn in Ht; [|done].
    destruct (IH s1 s' t j1 Hrun Hj1) as (j' & Hj' & Htr).
    eauto using job_trans_trans.
Qed.

Lemma run_app tr1 : forall tr2 s,
  run (tr1 ++ tr2) s = run tr1 s ≫= run tr2.
Proof.
  induction tr1 as [|l tr1 IH]; intros tr2 s; cbn; [done|].
  destruct (step l s); cbn; [apply IH|done].
Qed.

(** *** Replay, then live events *)













(** The event log only grows, and so does what each stream request has
    received; stream requests keep their position in the emitter. *)
Definition job_le (j j' : BackgroundJob) : Prop :=
  (exists more, events j' = events j ++ more) /\
  (forall k c, emitter j !! k = Some c ->
     exists c' live, emitter j' !! k = Some c' /\ written c' = written c ++ live).

Lemma job_le_refl j : job_le j j.
Proof.
  split; [exists []; by rewrite app_nil_r|].
  intros k c Hk. exists c, []. by rewrite app_nil_r.
Qed.

Lemma job_trans_le j j' : job_trans j j' -> job_le j j'.
Proof.
  induction 1 as [ j | line j j' _ IH | j j' _ IH | j j' _ IH | j j' _ IH | j j' _ IH
    | n j j' _ IH | n j j' _ IH | e j j' _ IH | j j' _ IH | n j j' _ IH ];
    try apply job_le_refl; try exact IH;
    destruct IH as [[more Hev] Hsub]; split; cbn.
  - exists (more ++ [line]). by rewrite Hev, app_assoc.
  - intros k c Hk. destruct (Hsub k c Hk) as (c' & live & Hk' & Hw).
    rewrite list_lookup_fmap, Hk'. cbn. unfold deliver.
    destruct (listening c'); cbn.
    + eexists _, (live ++ [line]). split; [done|]. cbn. by rewrite Hw, app_assoc.
    + by exists c', live.
  - by exists more.
  - intros k c Hk. destruct (Hsub k c Hk) as (c' & live & Hk' & Hw).
    rewrite list_lookup_fmap, Hk'. cbn. unfold onDone.
    destruct (listening c'); cbn; eexists _, live; by split.
  - by exists more.
  - intros k c Hk. destruct (Hsub k c Hk) as (c' & live & Hk' & Hw).
    exists c', live. split; [|done]. by apply lookup_app_l_Some.
  - by exists more.
  - intros k c Hk. destruct (Hsub k c Hk) as (c' & live & Hk' & Hw).
    destruct (decide (k = n)) as [->|Hne].
    + rewrite list_lookup_alter_eq, Hk'. cbn. by eexists _, live.
    + rewrite list_lookup_alter_ne by done. by exists c', live.
Qed.

(** Sample requests and runs, used to exercise the theorems below. *)
Definition bg_codex : GenerateRequest :=
  {| session_id := "s1"; prompt := "fix the build"; agent := codex;
     use_worktree := false; background := true; images := [] |}.

Definition fg_claude : GenerateRequest :=
  {| session_id := "s1"; prompt := "and the tests"; agent := claude_code;
     use_worktree := false; background := false; images := [] |}.

(** A background Codex turn of a resumed session, up to the message loop:
    the job "job1" is running and the tailer has been started. *)
Definition bg_running : list Label :=
  [Arrive bg_codex; Resume 0 (GotSession true); Resume 0 (GotMessages (Some false));
   Resume 0 LockReply; Resume 0 (UserMessage (Some ["u1"]) "job1");
   Resume 0 Immediate; Resume 0 (Found (Some "/sessions/rollout.jsonl"))].

Definition state_after (tr : list Label) : Server := default init (run tr init).

(** *** The life of a background job *)

Definition same_life (j j' : BackgroundJob) : Prop :=
  status j' = status j /\ startedAt j' = startedAt j /\
  finishedAt j' = finishedAt j /\ error j' = error j /\
  doneEmitted j' = doneEmitted j.

(** The error a reply carries, for the replies that end the work. *)
Definition reply_error (rp : Reply) : option string :=
  match rp with
  | ImagesRead e => e
  | Throw e => Some e
  | Msg _ e => e
  | Updated e => e
  | _ => None
  end.

(** The program points of an invocation that owns a job. *)
Definition job_pc (p : Pc) : Prop :=
  match p with
  | P_BgWorktree | P_Scheduled | P_Core _ | P_Returned => True
  | _ => False
  end.

(** What one step of the invocation that owns a job does to the job: [r], [j]
    before the step, [r'], [j'] after it, [now] the clock at the step. *)
Definition job_step_spec (now : nat) (r : Invocation) (rp : Reply)
    (r' : Invocation) (j j' : BackgroundJob) : Prop :=
  abortController j' = abortController j /\
  match pc r, pc r' with
  | P_BgWorktree, P_Scheduled => same_life j j'
  | P_Scheduled, P_Core k =>
      rp = Immediate /\ k = core_entry (request r) /\
      status j' = running /\ startedAt j' = Some now /\
      finishedAt j' = finishedAt j /\ error j' = error j /\
      doneEmitted j' = doneEmitted j /\ events j' = events j
  | P_Core _, P_Core _ => same_life j j'
  | P_Core _, P_Returned =>
      startedAt j' = startedAt j /\ finishedAt j' = Some now /\
      doneEmitted j' = S (doneEmitted j) /\
      match reply_error rp with
      | None =>
          status j' = completed /\ error j' = error j /\
          events j' = events j ++ [DONE_LINE]
      | Some e =>
          status j' = failed /\ error j' = Some e /\
          events j' = events j ++ [error_line e]
      end
  | p, p' =>
      p' = p /\ same_life j j' /\
      (rp = ClientClose /\ events j' = events j \/
       exists line,
         rp = TailLine line /\ tail r = Tailing /\
         (aborted r = true /\ events j' = events j \/
          aborted r = false /\ events j' = events j ++ [line]))
  end.

Lemma resume_own i rp s s' r t j :
  resume i rp s = Some s' ->
  invocations s !! i = Some r ->
  jobId r = Some t ->
  job_pc (pc r) ->
  backgroundJobs s !! t = Some j ->
  exists r' j',
    invocations s' !! i = Some r' /\ backgroundJobs s' !! t = Some j' /\
    jobId r' = Some t /\ request r' = request r /\
    job_step_spec (clock s) r rp r' j j'.
Proof.
  intros H Hr Ht Hpc Hj. unfold job_step_spec, job_pc, same_life in *.
  unfold resume in H. rewrite Hr in H. cbn [mbind option_bind] in H.
  repeat (case_match; simplify_eq; try done);
    unfold_server; repeat (case_match; simplify_eq); unfold_server;
    (eexists _, _; split;
     [ rewrite ?list_lookup_alter_eq, ?Hr; reflexivity
     | split; [ rewrite ?lookup_alter_eq, ?Hj; reflexivity | ] ]);
    unfold reply_error, close, startTail in *; cbn in *; simplify_eq;
    repeat (case_match; cbn in *; simplify_eq; try congruence);
    try (intuition (eauto 10; congruence)).
Qed.

(** The state of a job at each program point of the invocation that owns it. *)
Definition life (p : Pc) (j : BackgroundJob) : Prop :=
  match p with
  | P_BgWorktree | P_Scheduled =>
      status j = queued /\ startedAt j = None /\ finishedAt j = None /\
      error j = None /\ doneEmitted j = 0
  | P_Core _ =>
      status j = running /\ is_Some (startedAt j) /\ finishedAt j = None /\
      error j = None /\ doneEmitted j = 0
  | P_Returned =>
      (status j = completed /\ error j = None \/
       status j = failed /\ is_Some (error j)) /\
      is_Some (startedAt j) /\ is_Some (finishedAt j) /\ doneEmitted j = 1
  | _ => False
  end.

Lemma life_job_pc p j : life p j -> job_pc p.
Proof. by destruct p. Qed.

Lemma life_step now r rp r' j j' :
  life (pc r) j -> job_step_spec now r rp r' j j' -> life (pc r') j'.
Proof.
  unfold job_step_spec, same_life.
  destruct (pc r), (pc r'); cbn; try done;
    destruct (reply_error rp); intros; destruct_and?; simplify_eq;
    repeat match goal with H : _ = _ |- _ => rewrite H end;
    try done; intuition eauto.
Qed.

Lemma pushes_same_life contents : forall j,
  same_life j (fold_left (fun j content => push_emit content j) contents j).
Proof.
  induction contents as [|c contents IH]; intros j; cbn; [done|].
  destruct (IH (push_emit c j)) as (? & ? & ? & ? & ?). done.
Qed.

Lemma pushes_abortController contents : forall j,
  abortController (fold_left (fun j content => push_emit content j) contents j)
  = abortController j.
Proof. induction contents as [|c contents IH]; intros j; cbn; [done|]. by rewrite IH. Qed.

(** A step of an invocation leaves the other invocations and the jobs of the
    other invocations alone. *)
Lemma resume_frame i rp s s' r :
  resume i rp s = Some s' ->
  invocations s !! i = Some r ->
  (forall i', i' <> i -> invocations s' !! i' = invocations s !! i') /\
  (forall t', jobId r <> Some t' -> is_Some (backgroundJobs s !! t') ->
     backgroundJobs s' !! t' = backgroundJobs s !! t').
Proof.
  intros H Hr.
  unfold resume in H. rewrite Hr in H. cbn [mbind option_bind] in H.
  repeat (case_match; simplify_eq; try done);
    unfold_server; repeat (case_match; simplify_eq); unfold_server;
    (split; [intros i' Hi'; by rewrite ?list_lookup_alter_ne by done|]);
    intros t' Ht' Hsome;
    try (rewrite ?lookup_alter_ne by congruence; done).
  all: rewrite lookup_insert_ne; [done|].
  all: intros ->; destruct Hsome as [? Hsome]; congruence.
Qed.

Lemma writes_pc contents : forall r,
  pc (fold_left (fun r content => write content r) contents r) = pc r.
Proof. induction contents as [|c contents IH]; intros r; cbn; [done|]. by rewrite IH. Qed.

Lemma writes_jobId contents : forall r,
  jobId (fold_left (fun r content => write content r) contents r) = jobId r.
Proof. induction contents as [|c contents IH]; intros r; cbn; [done|]. by rewrite IH. Qed.

(** An invocation that owns no job either still owns none after its step, or
    has just created one, in the state [queued]. *)
Lemma resume_create i rp s s' r :
  resume i rp s = Some s' ->
  invocations s !! i = Some r ->
  jobId r = None ->
  exists r',
    invocations s' !! i = Some r' /\
    (jobId r' = None \/
     exists uuid j0,
       jobId r' = Some uuid /\ backgroundJobs s !! uuid = None /\
       backgroundJobs s' !! uuid = Some j0 /\ abortController j0 = i /\
       life (pc r') j0).
Proof.
  intros H Hr Ht.
  unfold resume in H. rewrite Hr in H. cbn [mbind option_bind] in H.
  repeat (case_match; simplify_eq; try done);
    unfold_server; repeat (case_match; simplify_eq); unfold_server;
    (eexists; split; [ rewrite ?list_lookup_alter_eq, ?Hr; reflexivity | ]);
    unfold close, startTail in *; cbn in *; rewrite ?writes_jobId;
    repeat (case_match; cbn in *; simplify_eq; try congruence);
    try (left; congruence).
  all: right; eexists _, _; split; [reflexivity|]; split; [done|];
    split; [apply lookup_insert_eq|]; rewrite pushes_abortController;
    split; [done|].
  all: match goal with
       | |- context [fold_left _ ?c ?j] =>
           destruct (pushes_same_life c j) as (-> & -> & -> & -> & ->)
       end; done.
Qed.

(** Every invocation that names a job owns it: the job exists, was created
    by that invocation, and is in the state of the invocation's program
    point. *)
Definition owns (s : Server) : Prop :=
  forall i r t, invocations s !! i = Some r -> jobId r = Some t ->
    exists j, backgroundJobs s !! t = Some j /\ abortController j = i /\ life (pc r) j.

Lemma owns_alter_jobs (g : BackgroundJob -> BackgroundJob) t s :
  (forall j, abortController (g j) = abortController j) ->
  (forall p j, life p j -> life p (g j)) ->
  owns s -> owns (update_job t g s).
Proof.
  intros Hab Hlife Hs i r t0 Hi Ht0. cbn in Hi.
  destruct (Hs i r t0 Hi Ht0) as (j & Hj & Hji & Hl). cbn.
  destruct (decide (t = t0)) as [->|Hne].
  - exists (g j). rewrite lookup_alter_eq, Hj. cbn. rewrite Hab. eauto.
  - exists j. rewrite lookup_alter_ne by done. eauto.
Qed.

Lemma step_owns l s s' : step l s = Some s' -> owns s -> owns s'.
Proof.
  intros H Hs. destruct l as [g|i rp|sid|t|t k|n|sid]; cbn in H.
  - simplify_eq. intros i r t Hi Ht. cbn in *.
    apply lookup_app_Some in Hi as [Hi|[_ Hi]]; [by eapply Hs|].
    destruct (i - length (invocations s)); cbn in Hi; by simplify_eq.
  - destruct (invocations s !! i) as [r|] eqn:Hr;
      [|unfold resume in H; rewrite Hr in H; done].
    destruct (resume_frame i rp s s' r H Hr) as [Hfi Hfj].
    intros i0 r0 t0 Hi0 Ht0. destruct (decide (i0 = i)) as [->|Hne].
    + destruct (jobId r) as [t|] eqn:Hjr.
      * destruct (Hs i r t Hr Hjr) as (j & Hj & Hji & Hl).
        destruct (resume_own i rp s s' r t j H Hr Hjr (life_job_pc _ _ Hl) Hj)
          as (r' & j' & Hr' & Hj' & Hjr' & _ & Hspec).
        simplify_eq. exists j'. split; [done|]. split.
        -- destruct Hspec as [-> _]. done.
        -- eapply life_step; [exact Hl|exact Hspec].
      * destruct (resume_create i rp s s' r H Hr Hjr) as (r' & Hr' & Hc).
        simplify_eq. destruct Hc as [Hc|(uuid & j0 & Hu & _ & Hj0 & Hi & Hl)]; [congruence|].
        simplify_eq. eauto.
    + rewrite Hfi in Hi0 by done.
      destruct (Hs i0 r0 t0 Hi0 Ht0) as (j0 & Hj0 & Hji0 & Hl0).
      exists j0. split; [|done]. rewrite Hfj; [done| |by eexists].
      intros Hjr. destruct (Hs i r t0 Hr Hjr) as (j & Hj & Hji & _). congruence.
  - destruct (sessionAbortControllers s !! sid) as [j|]; simplify_eq; [|done].
    intros i r t Hi Ht. cbn in *.
    destruct (decide (i = j)) as [->|Hne].
    + rewrite list_lookup_alter_eq in Hi.
      destruct (invocations s !! j) as [r0|] eqn:Hr0; cbn in Hi; simplify_eq.
      by apply (Hs j r0 t).
    + rewrite list_lookup_alter_ne in Hi by done. by apply (Hs i r t).
  - destruct (backgroundJobs s !! t); simplify_eq; [|done].
    apply owns_alter_jobs; [done| |done]. by intros [].
  - destruct (backgroundJobs s !! t) as [j|]; cbn in H; [|done].
    destruct (emitter j !! k); cbn in H; simplify_eq.
    apply owns_alter_jobs; [done| |done]. by intros [].
  - simplify_eq. done.
  - simplify_eq. done.
Qed.

Lemma run_owns tr : forall s s', run tr s = Some s' -> owns s -> owns s'.
Proof.
  induction tr as [|l tr IH]; intros s s' Hrun Hs; cbn in Hrun.
  - by simplify_eq.
  - destruct (step l s) as [s1|] eqn:Hstep; cbn in Hrun; [|done].
    eapply IH; [exact Hrun|]. by eapply step_owns.
Qed.

Lemma init_owns : owns init.
Proof. intros i r t Hi. done. Qed.

(** A step that is not a step of invocation [i] leaves the program point of
    [i] and the life and event log of its job as they are. *)
Lemma step_other l s s' i r t j :
  owns s ->
  step l s = Some s' ->
  (forall rp, l <> Resume i rp) ->
  invocations s !! i = Some r ->
  jobId r = Some t ->
  backgroundJobs s !! t = Some j ->
  exists r' j',
    invocations s' !! i = Some r' /\ backgroundJobs s' !! t = Some j' /\
    pc r' = pc r /\ jobId r' = jobId r /\ same_life j j' /\ events j' = events j.
Proof.
  intros Hs H Hl Hr Ht Hj. destruct l as [g|i' rp|sid|t'|t' k|n|sid]; cbn in H.
  - simplify_eq. exists r, j. cbn. rewrite lookup_app_l_Some with (x := r); done.
  - assert (i' <> i) as Hne by (intros ->; by eapply Hl).
    destruct (invocations s !! i') as [r0|] eqn:Hr0;
      [|unfold resume in H; rewrite Hr0 in H; done].
    destruct (resume_frame i' rp s s' r0 H Hr0) as [Hfi Hfj].
    exists r, j. rewrite Hfi by done. rewrite Hfj; [done| |by eexists].
    intros Hjr. destruct (Hs i' r0 t Hr0 Hjr) as (j0 & Hj0 & Hji0 & _).
    destruct (Hs i r t Hr Ht) as (j1 & Hj1 & Hji1 & _). congruence.
  - destruct (sessionAbortControllers s !! sid) as [k|]; simplify_eq; cbn.
    + destruct (decide (i = k)) as [->|Hne].
      * exists (set_aborted true r), j. rewrite list_lookup_alter_eq, Hr. done.
      * exists r, j. rewrite list_lookup_alter_ne by done. done.
    + by exists r, j.
  - destruct (backgroundJobs s !! t') eqn:Ht'; simplify_eq; cbn; [|by exists r, j].
    destruct (decide (t' = t)) as [->|Hne].
    + exists r, (subscribe j). rewrite lookup_alter_eq, Hj. done.
    + exists r, j. rewrite lookup_alter_ne by done. done.
  - destruct (backgroundJobs s !! t') as [j0|]; cbn in H; [|done].
    destruct (emitter j0 !! k); cbn in H; simplify_eq. cbn.
    destruct (decide (t' = t)) as [->|Hne].
    + exists r, (unsubscribe k j). rewrite lookup_alter_eq, Hj. done.
    + exists r, j. rewrite lookup_alter_ne by done. done.
  - simplify_eq. by exists r, j.
  - simplify_eq. by exists r, j.
Qed.

(** *** Replay, then live events: the theorem *)













Section JobInvariant.

Variable P : BackgroundJob -> Prop.
Hypothesis P_fresh : forall uuid sid now i, P (fresh_job uuid sid now i).
Hypothesis P_trans : forall j j', job_trans j j' -> P j -> P j'.

Lemma run_job_invariant tr : forall s s',
  run tr s = Some s' ->
  (forall t j, backgroundJobs s !! t = Some j -> P j) ->
  forall t j, backgroundJobs s' !! t = Some j -> P j.
Proof using P_fresh P_trans.
  induction tr as [|l tr IH]; intros s s' Hrun Hs; cbn in Hrun.
  - by simplify_eq.
  - destruct (step l s) as [s1|] eqn:Hstep; cbn in Hrun; [|done].
    eapply IH; [exact Hrun|]. intros t j1 Hj1.
    pose proof (step_jobs l s s1 t Hstep) as Ht. rewrite Hj1 in Ht.
    destruct (backgroundJobs s !! t) as [j|] eqn:Hj; cbn in Ht.
    + eapply P_trans; [exact Ht|]. by eapply Hs.
    + destruct Ht as (u & sid & n & i & Ht). eapply P_trans; [exact Ht|]. apply P_fresh.
Qed.

End JobInvariant.

Lemma job_trans_not_cancelled j j' :
  job_trans j j' -> status j <> cancelled -> status j' <> cancelled.
Proof. induction 1; cbn; auto; done. Qed.

(** C10. In every state the server can reach, no job has the status
    [cancelled]: the status is [queued], [running], [completed] or [failed];
    and a job whose run has ended, whether or not its controller was aborted
    on the way, is [completed] or [failed]. *)
Theorem cancelled_unreachable tr s t j :
  run tr init = Some s ->
  backgroundJobs s !! t = Some j ->
  status j <> cancelled /\
  (forall i r, invocations s !! i = Some r -> jobId r = Some t ->
     pc r = P_Returned -> status j = completed \/ status j = failed).
Proof.
  intros Hrun Hj. split.
  - eapply (run_job_invariant (fun j => status j <> cancelled)); try exact Hrun; try exact Hj.
    + done.
    + apply job_trans_not_cancelled.
    + intros t0 j0 H0. cbn in H0. by rewrite lookup_empty in H0.
  - intros i r Hr Ht Hpc.
    destruct (run_owns tr init s Hrun init_owns i r t Hr Ht) as (j0 & Hj0 & _ & Hl).
    simplify_eq. rewrite Hpc in Hl. cbn in Hl. intuition.
Qed.

(** A background Codex turn stopped by DELETE /:sessionId/stop while it runs. *)
Definition stopped_run : list Label :=
  bg_running ++ [Resume 0 (TailLine "l1"); Stop "s1"; Resume 0 IterEnd;
                 Resume 0 (Updated None)].

Definition stopped_job : BackgroundJob :=
  default (fresh_job "" "" 0 0) (backgroundJobs (state_after stopped_run) !! "job1").

Lemma cancelled_unreachable_witness :
  (aborted <$> invocations (state_after stopped_run) !! 0 = Some true /\
   status stopped_job = completed) /\
  status stopped_job <> cancelled /\
  (forall i r, invocations (state_after stopped_run) !! i = Some r ->
     jobId r = Some "job1" -> pc r = P_Returned ->
     status stopped_job = completed \/ status stopped_job = failed).
Proof.
  split; [by vm_compute|].
  apply (cancelled_unreachable stopped_run (state_after stopped_run) "job1" stopped_job).
  - vm_compute. reflexivity.
  - vm_compute. reflexivity.
Defined.

(** A background Codex turn whose subprocess exits with a non-zero code: the
    work throws while the tailer it started is still running. *)
Definition failed_run : list Label :=
  bg_running ++ [Resume 0 (Throw "codex exited with code 1")].

(** C9 (the code at the failing input). The work of a background Codex job
    throws while the tailer it started is running: the [catch] and the
    [finally] of the dispatch record the failure and publish "done", but the
    controller is aborted only after the message loop, which the error has
    skipped. The tailer is still running, and the line it reads afterwards
    is appended to the event log, after the "done" notification. *)
Lemma event_appended_after_done :
  (fun j => (status j, doneEmitted j, events j))
    <$> backgroundJobs (state_after failed_run) !! "job1"
  = Some (failed, 1, ["u1"; error_line "codex exited with code 1"]) /\
  (fun j => (status j, doneEmitted j, events j))
    <$> backgroundJobs (state_after (failed_run ++ [Resume 0 (TailLine "late")])) !! "job1"
  = Some (failed, 1, ["u1"; error_line "codex exited with code 1"; "late"]).
Proof. by vm_compute. Qed.

(** The life of a background job, in every run: the dispatch
    ([Immediate]) sets the status to [running] and records the start time,
    and only then enters the work; when the work resolves the status
    becomes [completed], and when it throws [e] the status becomes [failed]
    with [e] recorded, after the error line has been appended; in both cases
    the finish time is recorded and the "done" notification is published,
    for the first and only time. After that the dispatch appends nothing:
    the status, times, error and event log stay as they are, except that a
    line delivered by a tailer still running is appended. *)
Theorem dispatch_lifecycle tr s l s' i r t :
  run tr init = Some s ->
  step l s = Some s' ->
  invocations s !! i = Some r ->
  jobId r = Some t ->
  exists j r' j',
    backgroundJobs s !! t = Some j /\
    invocations s' !! i = Some r' /\ backgroundJobs s' !! t = Some j' /\
    life (pc r) j /\ life (pc r') j' /\
    (pc r = P_Scheduled -> l = Resume i Immediate ->
       pc r' = P_Core (core_entry (request r)) /\ status j' = running /\
       startedAt j' = Some (clock s) /\ events j' = events j) /\
    (forall k, pc r = P_Core k -> pc r' = P_Returned ->
       exists rp, l = Resume i rp /\
         finishedAt j' = Some (clock s) /\ doneEmitted j = 0 /\ doneEmitted j' = 1 /\
         match reply_error rp with
         | None => status j' = completed /\ error j' = None /\
                   events j' = events j ++ [DONE_LINE]
         | Some e => status j' = failed /\ error j' = Some e /\
                     events j' = events j ++ [error_line e]
         end) /\
    (pc r = P_Returned ->
       pc r' = P_Returned /\ same_life j j' /\ doneEmitted j' = 1 /\
       (events j' = events j \/
        exists line, l = Resume i (TailLine line) /\ tail r = Tailing /\
                     aborted r = false /\ events j' = events j ++ [line])).
Proof.
  intros Hrun Hstep Hr Ht.
  pose proof (run_owns tr init s Hrun init_owns) as Hs.
  pose proof (step_owns l s s' Hstep Hs) as Hs'.
  destruct (Hs i r t Hr Ht) as (j & Hj & Hji & Hl).
  assert ((exists rp, l = Resume i rp) \/ (forall rp, l <> Resume i rp)) as [[rp ->]|Hother].
  { destruct l as [|i' rp| | | | |]; try (right; done).
    destruct (decide (i' = i)) as [->|]; [left; eauto|right; congruence]. }
  - cbn in Hstep.
    destruct (resume_own i rp s s' r t j Hstep Hr Ht (life_job_pc _ _ Hl) Hj)
      as (r' & j' & Hr' & Hj' & Hjr' & Hreq & Hspec).
    exists j, r', j'. split; [done|]. split; [done|]. split; [done|].
    split; [done|]. split; [by eapply life_step|].
    pose proof (life_step _ _ _ _ _ _ Hl Hspec) as Hl'.
    unfold job_step_spec, same_life in Hspec. destruct Hspec as [_ Hspec].
    split; [|split].
    + intros Hpc [= ->]. rewrite Hpc in Hspec.
      destruct (pc r'); try (destruct Hspec as (? & _ & [[? _]|(? & ? & _)]); done).
      destruct Hspec as (_ & -> & ? & ? & _ & _ & _ & ?). done.
    + intros k Hpc Hpc'. rewrite Hpc, Hpc' in Hspec. rewrite Hpc in Hl. cbn in Hl.
      exists rp. destruct Hspec as (_ & ? & Hd & Hm). destruct Hl as (_ & _ & _ & He & Hd0).
      rewrite Hd0 in Hd. split; [done|]. split; [done|]. split; [done|]. split; [done|].
      destruct (reply_error rp); [done|]. by rewrite <- He.
    + intros Hpc. rewrite Hpc in Hspec.
      destruct (pc r') eqn:Hpc'; try (destruct Hspec as (? & _); done).
      destruct Hspec as (_ & Hsame & Hev). cbn in Hl'.
      split; [done|]. split; [done|]. split; [by destruct Hl' as (_ & _ & _ & ?)|].
      destruct Hev as [[_ ?]|(line & -> & ? & [[_ ?]|[? ?]])]; eauto 10.
  - destruct (step_other l s s' i r t j Hs Hstep Hother Hr Ht Hj)
      as (r' & j' & Hr' & Hj' & Hpc & Hjid & Hsame & Hev).
    assert (jobId r' = Some t) as Ht' by congruence.
    destruct (Hs' i r' t Hr' Ht') as (j1 & Hj1 & _ & Hl'). simplify_eq.
    exists j, r', j'. repeat (split; [done|]).
    split; [|split].
    + intros _ ->. by destruct (Hother Immediate).
    + intros k Hk Hk'. congruence.
    + intros Hk. rewrite Hpc, Hk in Hl'. cbn in Hl'.
      split; [congruence|]. split; [done|]. split; [by destruct Hl' as (_ & _ & _ & ?)|].
      by left.
Qed.

Definition before_exit : Server := state_after bg_running.

Definition running_invocation : Invocation :=
  default (new_invocation bg_codex) (invocations before_exit !! 0).

Lemma dispatch_lifecycle_witness :
  exists j r' j',
    backgroundJobs before_exit !! "job1" = Some j /\
    invocations (state_after failed_run) !! 0 = Some r' /\
    backgroundJobs (state_after failed_run) !! "job1" = Some j' /\
    life (pc running_invocation) j /\ life (pc r') j' /\
    (pc running_invocation = P_Scheduled ->
     Resume 0 (Throw "codex exited with code 1") = Resume 0 Immediate ->
       pc r' = P_Core (core_entry (request running_invocation)) /\ status j' = running /\
       startedAt j' = Some (clock before_exit) /\ events j' = events j) /\
    (forall k, pc running_invocation = P_Core k -> pc r' = P_Returned ->
       exists rp, Resume 0 (Throw "codex exited with code 1") = Resume 0 rp /\
         finishedAt j' = Some (clock before_exit) /\ doneEmitted j = 0 /\ doneEmitted j' = 1 /\
         match reply_error rp with
         | None => status j' = completed /\ error j' = None /\
                   events j' = events j ++ [DONE_LINE]
         | Some e => status j' = failed /\ error j' = Some e /\
                     events j' = events j ++ [error_line e]
         end) /\
    (pc running_invocation = P_Returned ->
       pc r' = P_Returned /\ same_life j j' /\ doneEmitted j' = 1 /\
       (events j' = events j \/
        exists line, Resume 0 (Throw "codex exited with code 1") = Resume 0 (TailLine line) /\
                     tail running_invocation = Tailing /\
                     aborted running_invocation = false /\ events j' = events j ++ [line])).
Proof.
  apply (dispatch_lifecycle bg_running before_exit
           (Resume 0 (Throw "codex exited with code 1")) (state_after failed_run)
           0 running_invocation "job1").
  - vm_compute. reflexivity.
  - vm_compute. reflexivity.
  - vm_compute. reflexivity.
  - vm_compute. reflexivity.
Defined.

(** *** Release of the lock and of the registration *)

(** X2.  The step on which an invocation returns, from inside the [try]
    block or from the background job, deletes the lock key and the
    registration of the session: the two [finally] blocks. *)
Lemma returned_releases i rp s s' r r' :
  resume i rp s = Some s' ->
  invocations s !! i = Some r ->
  invocations s' !! i = Some r' ->
  pc r <> P_Returned ->
  pc r' = P_Returned ->
  redis s' !! SessionLock.activeSessionKey (session_id (request r)) = None /\
  sessionAbortControllers s' !! session_id (request r) = None.
Proof.
  intros H Hr Hr' Hpc Hpc'.
  unfold resume in H. rewrite Hr in H. cbn [mbind option_bind] in H.
  repeat (case_match; simplify_eq; try done);
    unfold_server; repeat (case_match; simplify_eq); unfold_server;
    unfold SessionLock.release, Redis.del; cbn [snd];
    rewrite ?list_lookup_alter_eq, ?Hr in Hr'; cbn in Hr'; simplify_eq;
    unfold close, startTail in *; cbn in *; rewrite ?writes_pc in *;
    repeat (case_match; cbn in *; simplify_eq; try congruence);
    try congruence; try (split; apply lookup_delete_eq).
Qed.

(** The invocation of [failed_run] once its work has thrown. *)
Definition failed_invocation : Invocation :=
  default (new_invocation bg_codex) (invocations (state_after failed_run) !! 0).

Lemma returned_releases_witness :
  redis (state_after failed_run)
    !! SessionLock.activeSessionKey (session_id (request running_invocation)) = None /\
  sessionAbortControllers (state_after failed_run)
    !! session_id (request running_invocation) = None.
Proof.
  apply (returned_releases 0 (Throw "codex exited with code 1") before_exit
           (state_after failed_run) running_invocation failed_invocation).
  - vm_compute. reflexivity.
  - vm_compute. reflexivity.
  - vm_compute. reflexivity.
  - vm_compute. discriminate.
  - vm_compute. reflexivity.
Defined.

(** C2 (the code at the failing input). A foreground request acquires the
    lock and [createUserMessage] rejects: the handler throws before it reaches
    the [try] block, the lock key is still set and the controller is still
    registered; the next request for the session is rejected as busy. *)
Lemma lock_held_after_createUserMessage_rejects :
  let tr := [Arrive fg_claude; Resume 0 (GotSession true);
             Resume 0 (GotMessages (Some false)); Resume 0 LockReply;
             Resume 0 (UserMessage None "")] in
  let s := state_after tr in
  let s2 := state_after (tr ++ [Tick 60; Arrive fg_claude; Resume 1 (GotSession true);
                                Resume 1 (GotMessages (Some false)); Resume 1 LockReply]) in
  run tr init = Some s /\
  pc <$> invocations s !! 0 = Some (P_Threw "createUserMessage rejected") /\
  Redis.exists_ (clock s) (SessionLock.activeSessionKey "s1") (redis s) = true /\
  sessionAbortControllers s !! "s1" = Some 0 /\
  pc <$> invocations s2 !! 1 = Some (P_Threw (busy_message "s1")).
Proof. by vm_compute. Qed.

(** *** The rejection of a busy session *)

(** A background generation of session "s1" that holds the lock, and a
    second request for the same session. *)
Definition second_request : list Label :=
  [Arrive fg_claude; Resume 1 (GotSession true); Resume 1 (GotMessages (Some false));
   Resume 1 LockReply].

(** C4 (the code at the failing input). While the generation of invocation 0
    is in flight, a second request for the session is rejected as busy; it
    has created no job and started no work, but the registration of the
    session now holds the controller of the rejected request, and its
    keep-alive timer runs. A stop request then aborts that controller, and
    the generation in flight is not cancelled. *)
Lemma busy_rejection_replaces_registration :
  let before := state_after bg_running in
  let after := state_after (bg_running ++ second_request) in
  let stopped := state_after (bg_running ++ second_request ++ [Stop "s1"]) in
  sessionAbortControllers before !! "s1" = Some 0 /\
  pc <$> invocations after !! 1 = Some (P_Threw (busy_message "s1")) /\
  map_to_list (backgroundJobs after) = map_to_list (backgroundJobs before) /\
  redis after = redis before /\
  invocations after !! 0 = invocations before !! 0 /\
  sessionAbortControllers after !! "s1" = Some 1 /\
  keepAlive <$> invocations after !! 1 = Some true /\
  aborted <$> invocations stopped !! 0 = Some false /\
  aborted <$> invocations stopped !! 1 = Some true /\
  sessionAbortControllers stopped !! "s1" = None.
Proof. by vm_compute. Qed.

(** *** The end of the Codex message loop *)



End GenerateFacts.

(** ** Theorems: the Codex process adapter *)

Module CodexFacts.
Import Codex.

Lemma drain_inits fuel : forall now pending stdoutEnd,
  (forall t ev, pending = Some (t, ev) -> is_done ev = false) ->
  done_count (drain fuel now pending stdoutEnd) = 0
  /\ existsb is_done (drain fuel now pending stdoutEnd) = false.
Proof.
  unfold done_count.
  induction fuel as [|fuel IH]; intros now pending stdoutEnd Hp; cbn; [done|].
  destruct pending as [[t [p id|]]|]; [ | by specialize (Hp _ _ eq_refl) | ].
  - destruct (t <=? now)%N; destruct (stdoutEnd <=? now + DRAIN_MS)%N; cbn; try done;
      by apply IH.
  - destruct (stdoutEnd <=? now + DRAIN_MS)%N; cbn; [done|]. by apply IH.
Qed.

Lemma pendingEmit_init c t ev : pendingEmit c = Some (t, ev) -> is_done ev = false.
Proof.
  unfold pendingEmit. destruct (discovery c) as [[id [path t0|e t0]]|]; try done.
  destruct (stderrId c) as [[idAt id']|]; [|done]. by intros [= <- <-].
Qed.


Lemma queryCodex_unfold c :
  prompt c <> "" -> spawnError c = None ->
  queryCodex c =
    let inits := drain (S (N.to_nat (stdoutEnd c / DRAIN_MS))) 0 (pendingEmit c) (stdoutEnd c) in
    if negb (abortedAtClose c) && negb (closeCode c =? 0)%N
    then (inits, Threw (ExitedWithCode (closeCode c)))
    else if negb (abortedAtClose c) then (inits ++ [Done], Returned)
    else (inits, Returned).
Proof.
  intros Hp Hs. unfold queryCodex. rewrite Hs. by destruct (prompt c).
Qed.



(** A controller aborted before the generator ran (by a stop request that
    arrived while the handler was waiting for the store, the worktree or the
    search of the session file): no listener hears it, the subprocess is
    not killed, and its exit code decides as if nothing had been aborted. *)
Definition stopped_early (code : N) : CodexRun :=
  {| prompt := "fix the build"; resume := "0199ea78-389d-7dc0-a2b9-a41cf7c8b782";
     spawnError := None; stderrId := None; sessionFile := fun _ _ => None;
     abortedBefore := true; abortCall := None; stdoutEnd := 10; closeAt := 1210;
     exitCode := Some code |}.

Lemma abort_before_start_is_not_heard :
  abortAt (stopped_early 1) = Some 0%N /\
  abortedAtClose (stopped_early 1) = false /\
  queryCodex (stopped_early 1) = ([], Threw (ExitedWithCode 1)) /\
  queryCodex (stopped_early 0) = ([Done], Returned).
Proof. by vm_compute. Qed.








Lemma drain_none fuel : forall now stdoutEnd, drain fuel now None stdoutEnd = [].
Proof.
  induction fuel as [|fuel IH]; intros now stdoutEnd; cbn; [done|].
  destruct (stdoutEnd <=? now + DRAIN_MS)%N; [done|]. apply IH.
Qed.

(** The outcome of a turn that yields no init event. *)
Definition exit_only (c : CodexRun) : list CodexStreamEvent * Completion :=
  if negb (abortedAtClose c) && negb (closeCode c =? 0)%N
  then ([], Threw (ExitedWithCode (closeCode c)))
  else if negb (abortedAtClose c) then ([Done], Returned)
  else ([], Returned).





End CodexFacts.

(** ** Theorems: the JSONL tailer *)

Module TailFacts.
Import Tail.

(** A file that holds one line when the tail starts. *)
Definition one_line : Disk := {| inodes := [[97; 10]%N]; bound := Some 0 |}.

(** The file is tailed from its end and a line is appended and yielded; the
    file is deleted and created again, a first line is written to the new
    file before the rename callback of the watcher has reopened it, and a
    second line after. *)
Definition rotation : list Event :=
  [FirstOpen; Append [98; 10]%N; Change; StatDone; ReadDone 2; Take;
   Delete; Rename; CloseDone; RenameOpen; ReaderOpen;
   Create []; Append [120; 10]%N; Rename; RenameOpen; StatDone;
   Append [121; 10]%N; Change; StatDone; ReadDone 2; Take].

(** C6 (the code at the failing input). After the rotation the tailer has
    reopened the file at offset 2, the size of the new file at that moment,
    not at offset 0: it yields the line "y" and never the line "x", which was
    written after the file was created again; reading the new file from its
    start gives both. *)
Lemma rotation_skips_first_line :
  (fun st => (yielded (snd st), queue (snd st), pending (snd st), offset (snd st),
              reader (snd st), inodes (fst st)))
    <$> run rotation (one_line, start true)
  = Some ([[98]; [121]], [], [], 4, None, [[97; 10; 98; 10]; [120; 10; 121; 10]])%N
  /\ full_read [120; 10; 121; 10]%N = [[120]; [121]]%N.
Proof. by vm_compute. Qed.

(** An empty file, tailed from its start. *)
Definition empty_file : Disk := {| inodes := [[]]; bound := Some 0 |}.

(** The two bytes of "é" are appended one at a time, with a read in between,
    and then the newline. *)
Definition split_character : list Event :=
  [FirstOpen; StatDone;
   Append [195]%N; Change; StatDone; ReadDone 1;
   Append [169; 10]%N; Change; StatDone; ReadDone 2; Take].

(** C7 (the code at the failing input). Every byte is read once, in order,
    and the offset ends at the size of the file; but each chunk is decoded
    on its own, so the character split between two reads comes out as two
    replacement characters: the line yielded is not the line of the file. *)
Lemma split_character_is_replaced :
  (fun st => (yielded (snd st), queue (snd st), offset (snd st), inodes (fst st)))
    <$> run split_character (empty_file, start false)
  = Some ([[65533; 65533]], [], 3, [[195; 169; 10]])%N
  /\ full_read [195; 169; 10]%N = [[233]]%N.
Proof. by vm_compute. Qed.

(** *** Splitting is incremental *)

(** The scanner the loop of [readNew] amounts to: [cur] is the line being
    read. *)
Definition emit (line : list N) (lines : list (list N)) : list (list N) :=
  match trim line with [] => lines | trimmed => trimmed :: lines end.

Fixpoint scan (cur s : list N) : list (list N) * list N :=
  match s with
  | [] => ([], cur)
  | c :: s' =>
      if (c =? NL)%N then let (lines, p) := scan [] s' in (emit cur lines, p)
      else scan (cur ++ [c]) s'
  end.

Lemma cut_line_None s : cut_line s = None -> forall cur, scan cur s = ([], cur ++ s).
Proof.
  induction s as [|c s IH]; intros H cur; cbn in *.
  - by rewrite app_nil_r.
  - destruct (c =? NL)%N; [done|].
    destruct (cut_line s) as [[line rest]|]; [done|].
    rewrite IH by done. by rewrite <- app_assoc.
Qed.

Lemma cut_line_Some s line rest :
  cut_line s = Some (line, rest) ->
  forall cur, scan cur s = (let (lines, p) := scan [] rest in (emit (cur ++ line) lines, p)).
Proof.
  revert line. induction s as [|c s IH]; intros line H cur; cbn in *; [done|].
  destruct (c =? NL)%N.
  - simplify_eq. by rewrite app_nil_r.
  - destruct (cut_line s) as [[line' rest']|]; [|done]. simplify_eq.
    rewrite (IH line' eq_refl). by rewrite <- app_assoc.
Qed.

Lemma cut_line_length s line rest :
  cut_line s = Some (line, rest) -> length rest < length s.
Proof.
  revert line. induction s as [|c s IH]; intros line H; cbn in *; [done|].
  destruct (c =? NL)%N; simplify_eq; [lia|].
  destruct (cut_line s) as [[line' rest']|]; [|done]. simplify_eq.
  specialize (IH line' eq_refl). lia.
Qed.

Lemma split_lines_scan fuel : forall s, length s <= fuel -> split_lines fuel s = scan [] s.
Proof.
  induction fuel as [|fuel IH]; intros s Hlen.
  - destruct s; [done|cbn in Hlen; lia].
  - cbn [split_lines]. destruct (cut_line s) as [[line rest]|] eqn:Hcut.
    + rewrite (cut_line_Some _ _ _ Hcut). cbn [app].
      pose proof (cut_line_length _ _ _ Hcut).
      rewrite IH by lia. unfold emit. destruct (scan [] rest). by destruct (trim line).
    + by rewrite (cut_line_None _ Hcut).
Qed.

Lemma take_lines_scan s : take_lines s = scan [] s.
Proof. by apply split_lines_scan. Qed.

Lemma scan_app a : forall cur b,
  scan cur (a ++ b) =
  (let (l1, p1) := scan cur a in let (l2, p2) := scan p1 b in (l1 ++ l2, p2)).
Proof.
  induction a as [|c a IH]; intros cur b; cbn.
  - by destruct (scan cur b).
  - destruct (c =? NL)%N.
    + rewrite IH. destruct (scan [] a) as [l1 p1]. destruct (scan p1 b) as [l2 p2].
      unfold emit. by destruct (trim cur).
    + apply IH.
Qed.

Definition no_newline (s : list N) : Prop := Forall (fun c => (c =? NL)%N = false) s.

Lemma scan_no_newline x : no_newline x -> forall cur s, scan cur (x ++ s) = scan (cur ++ x) s.
Proof.
  induction 1 as [|c x Hc _ IH]; intros cur s; cbn.
  - by rewrite app_nil_r.
  - rewrite Hc, IH. by rewrite <- app_assoc.
Qed.

Lemma scan_pending s : forall cur l p,
  no_newline cur -> scan cur s = (l, p) -> no_newline p.
Proof.
  induction s as [|c s IH]; intros cur l p Hcur H; cbn in H.
  - by simplify_eq.
  - destruct (c =? NL)%N eqn:Hc.
    + destruct (scan [] s) as [l' p'] eqn:Hs. simplify_eq.
      eapply IH; [|exact Hs]. constructor.
    + eapply IH; [|exact H]. apply Forall_app. split; [done|]. by constructor.
Qed.

(** Splitting a text that arrives in two parts, the second appended to what
    the first left pending, gives the lines of the whole. *)
Lemma take_lines_app a b :
  take_lines (a ++ b) =
  (let (l1, p1) := take_lines a in
   let (l2, p2) := take_lines (p1 ++ b) in (l1 ++ l2, p2)).
Proof.
  rewrite !take_lines_scan, scan_app.
  destruct (scan [] a) as [l1 p1] eqn:Ha.
  rewrite take_lines_scan.
  rewrite (scan_no_newline p1); [done|].
  eapply scan_pending; [|exact Ha]. constructor.
Qed.

(** *** Text of one byte per character *)

Definition plain (bs : list N) : Prop := Forall (fun b => (b <= 127)%N) bs.

Lemma utf8_decode_plain bs : plain bs -> utf8_decode bs = bs.
Proof.
  unfold utf8_decode. induction 1 as [|b bs Hb _ IH]; cbn; [done|].
  unfold lead. apply N.leb_le in Hb. by rewrite Hb, IH.
Qed.

(** The bytes of a file from [a] up to [b]. *)
Definition slice (content : list N) (a b : N) : list N :=
  take (N.to_nat (b - a)) (drop (N.to_nat a) content).

Lemma slice_app content more a b :
  (b <= N.of_nat (length content))%N ->
  slice (content ++ more) a b = slice content a b.
Proof.
  intros Hb. unfold slice.
  destruct (decide (N.to_nat a <= length content)) as [Ha|Ha].
  - rewrite drop_app_le by done. rewrite take_app_le; [done|].
    rewrite length_drop. lia.
  - replace (N.to_nat (b - a)) with 0 by lia. by rewrite !take_0.
Qed.

Lemma slice_read content a p n :
  (a <= p)%N -> (p + n <= N.of_nat (length content))%N ->
  slice content a p ++ take (N.to_nat n) (drop (N.to_nat p) content)
  = slice content a (p + n).
Proof.
  intros Hap Hn. unfold slice.
  replace (N.to_nat (p + n - a)) with (N.to_nat (p - a) + N.to_nat n) by lia.
  rewrite <- take_take_drop. f_equal. rewrite drop_drop. do 2 f_equal. lia.
Qed.

Lemma slice_empty content a : slice content a a = [].
Proof. unfold slice. by rewrite N.sub_diag. Qed.

Lemma slice_all content a :
  slice content a (N.of_nat (length content)) = drop (N.to_nat a) content.
Proof.
  unfold slice. apply take_ge. rewrite length_drop. lia.
Qed.

(** *** Tailing a file that is only appended to *)

Definition append_only (e : Event) : bool :=
  match e with
  | Append _ | Change | StatDone | ReadDone _ | Take => true
  | _ => false
  end.

Definition plain_event (e : Event) : Prop :=
  match e with
  | Append bytes => plain bytes
  | _ => True
  end.

(** Whether bytes have been appended that no "change" notification has
    followed yet. *)
Definition unnotified (u : bool) (e : Event) : bool :=
  match e with
  | Append _ => true
  | Change => false
  | _ => u
  end.

(** The state of a tail of inode [ino] that started at offset [o0]: the
    lines yielded or queued and the pending text are the split of the bytes
    from [o0] up to the position reached, and when every append has been
    notified, the read in flight or a queued one reaches the end of the
    file. *)
Definition tailing (ino : nat) (o0 : N) (u : bool) (st : Disk * Tailer) : Prop :=
  let (d, t) := st in
  exists content,
    bound d = Some ino /\ inodes d !! ino = Some content /\ handle t = Some ino /\
    plain (drop (N.to_nat o0) content) /\
    started t = true /\ aborted t = false /\ (o0 <= offset t)%N /\
    let size := N.of_nat (length content) in
    match reader t with
    | None =>
        reading t = false /\ readQueued t = false /\ (offset t <= size)%N /\
        take_lines (slice content o0 (offset t)) = (yielded t ++ queue t, pending t) /\
        (u = false -> offset t = size)
    | Some R_Stat =>
        reading t = true /\ (offset t <= size)%N /\
        take_lines (slice content o0 (offset t)) = (yielded t ++ queue t, pending t)
    | Some (R_Read ino' p rem buflen) =>
        reading t = true /\ ino' = ino /\ (offset t <= p)%N /\ (0 < rem)%N /\
        (p + rem <= size)%N /\ (0 < buflen)%N /\
        take_lines (slice content o0 p) = (yielded t ++ queue t, pending t) /\
        (u = false -> (p + rem)%N = size \/ readQueued t = true)
    | Some R_Open => False
    end.

Lemma plain_read content o0 p n :
  plain (drop (N.to_nat o0) content) -> (o0 <= p)%N ->
  plain (take (N.to_nat n) (drop (N.to_nat p) content)).
Proof.
  intros Hp Hle. apply Forall_take.
  replace (N.to_nat p) with (N.to_nat o0 + (N.to_nat p - N.to_nat o0)) by lia.
  rewrite <- drop_drop. by apply Forall_drop.
Qed.

Ltac arith := try unfold CHUNK; lia.
Ltac conjs := repeat match goal with |- _ /\ _ => split end.

Lemma tailing_step ino o0 u e st st' :
  append_only e = true -> plain_event e ->
  step e st = Some st' ->
  tailing ino o0 u st -> tailing ino o0 (unnotified u e) st'.
Proof.
  intros He Hplain Hstep. destruct st as [d t].
  intros (content & Hb & Hc & Hh & Hpl & Hst & Hab & Ho0 & Hinv). cbn zeta in Hinv.
  destruct e; try done.
  - (* Append *)
    cbn in Hstep. rewrite Hb in Hstep. simplify_eq. cbn.
    exists (content ++ bytes). cbn. rewrite list_lookup_alter_eq, Hc. cbn.
    assert (N.to_nat o0 <= length content) as Hlen.
    { destruct (reader t) as [[| |? p rem ?]|]; destruct_and?; try done; lia. }
    repeat (split; [done|]). split.
    { rewrite drop_app_le by done. by apply Forall_app. }
    repeat (split; [done|]). rewrite length_app.
    destruct (reader t) as [[| |? p rem ?]|]; cbn in Hinv; destruct_and?; try done.
    + repeat (split; [done || arith|]). by rewrite slice_app.
    + repeat (split; [done || arith|]). split; [|done]. by rewrite slice_app by lia.
    + repeat (split; [done || arith|]). split; [|done]. by rewrite slice_app.
  - (* Change *)
    cbn in Hstep. rewrite Hab in Hstep. simplify_eq. cbn. exists content. unfold readNew.
    destruct (reader t) as [[| |? p rem ?]|] eqn:Hr; cbn in Hinv; destruct_and?; try done;
      repeat match goal with H : reading t = _ |- _ => rewrite H end;
      rewrite ?Hh; cbn; rewrite ?Hr; repeat (split; [done|]); try done.
    intros _. by right.
  - (* StatDone *)
    cbn in Hstep. destruct (reader t) as [[| |? p rem ?]|] eqn:Hr; try done.
    destruct Hinv as (Hrd & Hle & Hdata).
    unfold stat_path in Hstep. rewrite Hb in Hstep. cbn in Hstep.
    unfold file_size in Hstep. rewrite Hc in Hstep. cbn in Hstep.
    destruct (N.leb_spec (N.of_nat (length content)) (offset t)) as [Hsz|Hsz].
    + simplify_eq. cbn. exists content. unfold read_finally, readNew.
      destruct (readQueued t); cbn; rewrite ?Hh; cbn;
        repeat (split; [done|]); try done.
      repeat (split; [done|]). intros _. lia.
    + rewrite Hab, Hh in Hstep. simplify_eq. cbn. exists content.
      repeat (split; [done|]). cbn.
      repeat (split; [done || arith|]).
      intros _. left. lia.
  - (* ReadDone *)
    cbn [step] in Hstep.
    destruct (reader t) as [[| |ino' p rem buflen]|] eqn:Hr; try done. cbn zeta in Hstep.
    destruct Hinv as (Hrd & -> & Hop & Hrem & Hsz & Hbuf & Hdata & Hcov).
    unfold file_size in Hstep. rewrite Hc in Hstep.
    change (default [] (Some content)) with content in Hstep.
    destruct (N.leb_spec bytesRead
                (N.min (N.min buflen rem) (N.of_nat (length content) - p))) as [Hn|];
      [|cbn [andb] in Hstep; done].
    cbn [andb] in Hstep.
    assert ((0 <? bytesRead)%N = true) as Hpos.
    { destruct (N.ltb_spec 0 bytesRead) as [|H0]; [done|].
      cbn in Hstep.
      destruct (N.eqb_spec (N.min (N.min buflen rem) (N.of_nat (length content) - p)) 0);
        [lia|done]. }
    rewrite Hpos in Hstep. cbn [orb] in Hstep.
    apply N.ltb_lt in Hpos.
    destruct (N.eqb_spec bytesRead 0) as [|_]; [lia|].
    assert (feed (read_at d ino p bytesRead) t
            = set_lines (snd (take_lines (pending t ++ read_at d ino p bytesRead)))
                (queue t ++ fst (take_lines (pending t ++ read_at d ino p bytesRead)))
                (yielded t) t) as Hfeed.
    { unfold feed. rewrite utf8_decode_plain.
      - by destruct (take_lines (pending t ++ _)).
      - unfold read_at. rewrite Hc. change (default [] (Some content)) with content.
        apply (plain_read content o0 p bytesRead Hpl). lia. }
    assert (take_lines (slice content o0 (p + bytesRead))
            = (yielded t ++ queue t ++ fst (take_lines (pending t ++ read_at d ino p bytesRead)),
               snd (take_lines (pending t ++ read_at d ino p bytesRead)))) as Hdata'.
    { rewrite <- (slice_read content o0 p bytesRead) by lia.
      rewrite take_lines_app, Hdata. unfold read_at. rewrite Hc.
      change (default [] (Some content)) with content.
      destruct (take_lines (pending t ++ take _ _)). cbn. by rewrite app_assoc. }
    rewrite Hfeed in Hstep. cbn in Hstep. rewrite Hab, Hh in Hstep. cbn in Hstep.
    destruct (N.ltb_spec 0 (rem - bytesRead)) as [Hmore|Hlast]; cbn in Hstep; simplify_eq.
    + cbn. exists content. conjs; try done; try arith.
      intros Hu. destruct (Hcov Hu); [left; lia|by right].
    + exists content. unfold read_finally, readNew. cbn.
      destruct (readQueued t) eqn:Hq; cbn; rewrite ?Hh; cbn; conjs; try done; try arith.
      intros Hu. destruct (Hcov Hu); [lia|done].
  - (* Take *)
    cbn in Hstep. rewrite Hst, Hab in Hstep. cbn in Hstep.
    destruct (queue t) as [|line q] eqn:Hq; simplify_eq. cbn.
    exists content. repeat (split; [done|]). cbn.
    replace ((yielded t ++ [line]) ++ q) with (yielded t ++ line :: q)
      by by rewrite <- app_assoc.
    destruct (reader t) as [[| |? p rem ?]|]; cbn in Hinv; destruct_and?; try done.
Qed.

Lemma tailing_run ino o0 es : forall u st st',
  forallb append_only es = true -> Forall plain_event es ->
  run es st = Some st' ->
  tailing ino o0 u st -> tailing ino o0 (fold_left unnotified es u) st'.
Proof.
  induction es as [|e es IH]; intros u st st' Hes Hpl Hrun Hinv; cbn in *.
  - by simplify_eq.
  - apply andb_prop in Hes as [He Hes]. inversion Hpl as [|? ? Hp Hpl']; subst.
    destruct (step e st) as [st1|] eqn:Hstep; [|done]. cbn in Hrun.
    eapply IH; [done|done|exact Hrun|]. by eapply tailing_step.
Qed.

(** The bytes the events of a run append. *)
Definition appended (es : list Event) : list N :=
  concat (map (fun e => match e with Append bytes => bytes | _ => [] end) es).

Lemma run_content ino es : forall d t d' t' content,
  forallb append_only es = true ->
  bound d = Some ino -> inodes d !! ino = Some content ->
  run es (d, t) = Some (d', t') ->
  bound d' = Some ino /\ inodes d' !! ino = Some (content ++ appended es).
Proof.
  induction es as [|e es IH]; intros d t d' t' content Hes Hb Hc Hrun.
  - cbn in *. simplify_eq. by rewrite app_nil_r.
  - cbn [forallb] in Hes. apply andb_prop in Hes as [He Hes]. cbn [run] in Hrun.
    destruct (step e (d, t)) as [[d1 t1]|] eqn:Hstep; [|done].
    cbn [mbind option_bind] in Hrun.
    assert (bound d1 = Some ino /\
            inodes d1 !! ino
            = Some (content ++ match e with Append bytes => bytes | _ => [] end)) as [Hb1 Hc1].
    { destruct e; try done; cbn in Hstep; rewrite ?app_nil_r.
      - rewrite Hb in Hstep. simplify_eq. cbn. by rewrite list_lookup_alter_eq, Hc.
      - destruct (aborted t); by simplify_eq.
      - repeat case_match; by simplify_eq.
      - repeat case_match; by simplify_eq.
      - repeat case_match; by simplify_eq. }
    unfold appended. cbn [map concat]. rewrite app_assoc.
    by eapply IH.
Qed.

(** The offset the tail starts from. *)
Definition first_offset (atEnd : bool) (c0 : list N) : nat :=
  if atEnd then length c0 else 0.

Lemma tailing_first (atEnd : bool) d ino c0 st :
  bound d = Some ino -> inodes d !! ino = Some c0 ->
  plain (drop (first_offset atEnd c0) c0) ->
  step FirstOpen (d, start atEnd) = Some st ->
  tailing ino (N.of_nat (first_offset atEnd c0)) false st.
Proof.
  intros Hb Hc Hpl Hstep. cbn in Hstep. unfold opened in Hstep. rewrite Hb in Hstep.
  unfold file_size in Hstep. rewrite Hc in Hstep.
  change (default [] (Some c0)) with c0 in Hstep.
  destruct atEnd; cbn in Hstep; simplify_eq; cbn; exists c0;
    rewrite ?Nat2N.id; conjs; try done; try lia;
    by rewrite slice_empty.
Qed.

(** A tail whose first open has settled before the watcher reports
    anything, on a file that is only appended to from then on, with text of
    one byte per character from the starting offset on. *)
Lemma tail_reads_all (atEnd : bool) d ino c0 es d' t' :
  bound d = Some ino -> inodes d !! ino = Some c0 ->
  plain (drop (first_offset atEnd c0) c0) ->
  forallb append_only es = true -> Forall plain_event es ->
  run (FirstOpen :: es) (d, start atEnd) = Some (d', t') ->
  fold_left unnotified es false = false -> reader t' = None ->
  let content := c0 ++ appended es in
  inodes d' !! ino = Some content /\
  yielded t' ++ queue t' = full_read (drop (first_offset atEnd c0) content) /\
  pending t' = snd (take_lines (drop (first_offset atEnd c0) content)) /\
  offset t' = N.of_nat (length content).
Proof.
  intros Hb Hc Hpl Hes Hev Hrun Hu Hr content.
  cbn [run] in Hrun.
  destruct (step FirstOpen (d, start atEnd)) as [[d1 t1]|] eqn:Hfirst; [|done].
  cbn [mbind option_bind] in Hrun.
  pose proof (tailing_first atEnd d ino c0 _ Hb Hc Hpl Hfirst) as Hinv.
  assert (d1 = d) as ->.
  { cbn in Hfirst. by repeat case_match; simplify_eq. }
  destruct (run_content ino es d t1 d' t' c0 Hes Hb Hc Hrun) as [Hb' Hc'].
  pose proof (tailing_run ino _ es false _ _ Hes Hev Hrun Hinv) as Hfin.
  rewrite Hu in Hfin. destruct Hfin as (content' & _ & Hc'' & _ & Hpl' & _ & _ & _ & Hfin).
  rewrite Hc' in Hc''. injection Hc'' as <-. fold content in Hpl', Hfin.
  cbn zeta in Hfin. rewrite Hr in Hfin.
  destruct Hfin as (_ & _ & _ & Hdata & Hsize). specialize (Hsize eq_refl).
  rewrite Hsize, slice_all, Nat2N.id in Hdata. rewrite Nat2N.id in Hpl'.
  split; [done|]. unfold full_read, lines_of.
  rewrite (utf8_decode_plain _ Hpl'), Hdata. done.
Qed.

(** X1.  For a tail whose first open (the open and the stat that sets the
    offset) has settled before any notification of the watcher is handled,
    on a file that is only appended to, neither deleted nor renamed nor
    aborted, with text of one byte per character from the starting offset
    on: whatever the order of the appends, the notifications, the reads,
    which may be partial, and the takes of the consumer after that, once
    every append has been notified and no read is in flight, the lines
    yielded or queued are the lines of the content from the starting
    offset, the pending text is its incomplete last line, and the offset is
    the size of the file. *)
Theorem tail_equals_full_read (atEnd : bool) d ino c0 es d' t' :
  bound d = Some ino -> inodes d !! ino = Some c0 ->
  plain (drop (first_offset atEnd c0) c0) ->
  forallb append_only es = true -> Forall plain_event es ->
  run (FirstOpen :: es) (d, start atEnd) = Some (d', t') ->
  fold_left unnotified es false = false -> reader t' = None ->
  let content := c0 ++ appended es in
  inodes d' !! ino = Some content /\
  yielded t' ++ queue t' = full_read (drop (first_offset atEnd c0) content) /\
  pending t' = snd (take_lines (drop (first_offset atEnd c0) content)) /\
  offset t' = N.of_nat (length content).
Proof. apply tail_reads_all. Qed.

(** Two lines are appended in a burst: the second "change" arrives while
    the read the first one started is in flight, the read returns the four
    bytes in two chunks, and the queued read finds nothing new. *)
Definition burst : list Event :=
  [StatDone; Append [97; 10]%N; Change; Append [98; 10]%N; Change;
   StatDone; ReadDone 2; ReadDone 2; StatDone; Take; Take].

Definition after_burst : Disk * Tailer :=
  Eval vm_compute in
    default (empty_file, start false)
      (run (FirstOpen :: burst) (empty_file, start false)).

Lemma tail_equals_full_read_witness :
  inodes (fst after_burst) !! 0 = Some ([] ++ appended burst) /\
  yielded (snd after_burst) ++ queue (snd after_burst)
  = full_read (drop (first_offset false []) ([] ++ appended burst)) /\
  pending (snd after_burst)
  = snd (take_lines (drop (first_offset false []) ([] ++ appended burst))) /\
  offset (snd after_burst) = N.of_nat (length ([] ++ appended burst)).
Proof.
  apply (tail_equals_full_read false empty_file 0 [] burst
           (fst after_burst) (snd after_burst)).
  - reflexivity.
  - reflexivity.
  - constructor.
  - reflexivity.
  - repeat constructor; by vm_compute.
  - by vm_compute.
  - reflexivity.
  - reflexivity.
Defined.

Lemma after_burst_yields :
  yielded (snd after_burst) = [[97]; [98]]%N /\ queue (snd after_burst) = [] /\
  offset (snd after_burst) = 4%N /\ readQueued (snd after_burst) = false.
Proof. by vm_compute. Qed.

(** The premise on the first open is needed. The watcher is registered
    before the first open: a "change" handled before that open has settled
    starts a read that opens the file itself, at offset 0, and a tail that
    was to start at the end of the file yields the line that was there. *)
Lemma change_before_first_open :
  (fun st => (yielded (snd st), offset (snd st)))
    <$> run [Change; FirstOpen; ReaderOpen; StatDone; ReadDone 2; Take] (one_line, start true)
  = Some ([[97]]%N, 2%N).
Proof. by vm_compute. Qed.

End TailFacts.

Module LockExpiryFacts.
Import SessionLock SessionLockFacts.

(** *** The expiry of the lock *)

(** X18.  A rejected [SET NX] does not renew the expiry: whatever was tried on
    the store while the lock was held (short of deleting the key), the lock
    can be taken again as soon as [LOCK_TTL] seconds have passed since it
    was granted. *)
Theorem lock_expires_on_time sid now d ops n :
  fst (acquire now sid d) = true ->
  forallb (fun o => negb (releases sid o)) ops = true ->
  fst (exec_ops ops (now, snd (acquire now sid d))) < now + LOCK_TTL ->
  now + LOCK_TTL <= fst (exec_ops ops (now, snd (acquire now sid d))) + n ->
  fst (acquire (fst (exec_ops ops (now, snd (acquire now sid d))) + n) sid
         (snd (exec_ops ops (now, snd (acquire now sid d))))) = true.
Proof.
  intros Hok Hnr Hlt Hge.
  pose proof (acquire_spec now sid d) as Ha.
  destruct (Redis.exists_ now (activeSessionKey sid) d) eqn:Hex;
    rewrite Ha in *; cbn [fst snd] in *; [done|].
  set (e := Redis.Entry "1" (now + LOCK_TTL)) in *.
  assert (snd (exec_ops ops (now, <[activeSessionKey sid:=e]> d))
            !! activeSessionKey sid = Some e) as Hheld.
  { apply held_preserved; [apply lookup_insert_eq|done|done]. }
  rewrite acquire_spec.
  match goal with
  | |- context [Redis.exists_ ?a ?b ?c] => destruct (Redis.exists_ a b c) eqn:Hlive
  end; [|done].
  apply exists_lookup in Hlive as (e' & He' & Hlive).
  rewrite Hheld in He'. injection He' as <-. cbn in Hlive. lia.
Qed.

Lemma lock_expires_on_time_witness :
  fst (acquire (fst (exec_ops [OpAcquire "s1"; OpElapse 3599; OpAcquire "s1"]
                       (0, snd (acquire 0 "s1" ∅))) + 1) "s1"
         (snd (exec_ops [OpAcquire "s1"; OpElapse 3599; OpAcquire "s1"]
                 (0, snd (acquire 0 "s1" ∅))))) = true.
Proof.
  apply (lock_expires_on_time "s1" 0 ∅ [OpAcquire "s1"; OpElapse 3599; OpAcquire "s1"] 1).
  - vm_compute. reflexivity.
  - vm_compute. reflexivity.
  - vm_compute. lia.
  - vm_compute. lia.
Defined.

End LockExpiryFacts.

Module RegistryFacts.
Import Generate GenerateFacts.

(** *** The registry of background jobs only grows *)

Lemma job_trans_identity j j' :
  job_trans j j' ->
  taskId j' = taskId j /\ sessionId j' = sessionId j /\ createdAt j' = createdAt j /\
  doneEmitted j <= doneEmitted j'.
Proof.
  induction 1 as [ j | line j j' _ IH | j j' _ IH | j j' _ IH | j j' _ IH | j j' _ IH
    | n j j' _ IH | n j j' _ IH | e j j' _ IH | j j' _ IH | n j j' _ IH ];
    cbn; try done; destruct IH as (? & ? & ? & ?); repeat split; try done; lia.
Qed.

(** X15.  No route removes a job from [backgroundJobs], and none rewrites what is
    in its log: at any later moment of any run the job is still registered
    under its id, for the same session, with the same creation time, and its
    event log is the earlier log with events appended. *)
Theorem jobs_are_kept tr s s' t j :
  run tr s = Some s' ->
  backgroundJobs s !! t = Some j ->
  exists j' more,
    backgroundJobs s' !! t = Some j' /\
    taskId j' = taskId j /\ sessionId j' = sessionId j /\ createdAt j' = createdAt j /\
    events j' = events j ++ more.
Proof.
  intros Hrun Hj. destruct (run_jobs tr s s' t j Hrun Hj) as (j' & Hj' & Htr).
  destruct (job_trans_identity _ _ Htr) as (H1 & H2 & H3 & _).
  destruct (job_trans_le _ _ Htr) as [[more Hev] _].
  by exists j', more.
Qed.

Definition job_before_exit : BackgroundJob :=
  default (fresh_job "" "" 0 0) (backgroundJobs before_exit !! "job1").

Lemma jobs_are_kept_witness :
  exists j' more,
    backgroundJobs (state_after failed_run) !! "job1" = Some j' /\
    taskId j' = taskId job_before_exit /\ sessionId j' = sessionId job_before_exit /\
    createdAt j' = createdAt job_before_exit /\
    events j' = events job_before_exit ++ more.
Proof.
  apply (jobs_are_kept [Resume 0 (Throw "codex exited with code 1")] before_exit
           (state_after failed_run) "job1" job_before_exit).
  - vm_compute. reflexivity.
  - vm_compute. reflexivity.
Defined.

End RegistryFacts.

Module ExclusionFacts.
Import Generate GenerateFacts.

(** *** One generation per session *)

(** The program points between the reply that granted the lock and the
    return of the handler. *)
Definition past_lock (p : Pc) : bool :=
  match p with
  | P_Lock true | P_Worktree | P_UserMessage | P_BgWorktree | P_Scheduled | P_Core _ => true
  | _ => false
  end.

(** The program points at which the key of the session is the one this
    invocation wrote: past the lock, or thrown out of [createUserMessage]
    with the key left behind. *)
Definition holds_key (p : Pc) : bool :=
  past_lock p ||
  match p with
  | P_Threw m => bool_decide (m = "createUserMessage rejected")
  | _ => false
  end.

Definition key_of (r : Invocation) : string :=
  SessionLock.activeSessionKey (session_id (request r)).

Lemma writes_request contents : forall r,
  request (fold_left (fun r content => write content r) contents r) = request r.
Proof. induction contents as [|c contents IH]; intros r; cbn; [done|]. by rewrite IH. Qed.

(** What a step of an invocation does to the store: nothing, the [SET NX] of
    an invocation that does not hold the key, or the [DEL] of one that does. *)
Lemma resume_lock i rp s s' r :
  resume i rp s = Some s' ->
  invocations s !! i = Some r ->
  exists r',
    invocations s' !! i = Some r' /\ request r' = request r /\ clock s' = clock s /\
    (redis s' = redis s /\ (holds_key (pc r') = true -> holds_key (pc r) = true) \/
     holds_key (pc r) = false /\
       redis s' = snd (SessionLock.acquire (clock s) (session_id (request r)) (redis s)) /\
       pc r' = P_Lock (fst (SessionLock.acquire (clock s) (session_id (request r)) (redis s))) \/
     holds_key (pc r) = true /\ holds_key (pc r') = false /\
       redis s' = SessionLock.release (clock s) (session_id (request r)) (redis s)).
Proof.
  intros H Hr.
  unfold resume in H. rewrite Hr in H. cbn [mbind option_bind] in H.
  repeat (case_match; simplify_eq; try done);
    unfold_server; repeat (case_match; simplify_eq); unfold_server;
    (eexists; split; [ rewrite ?list_lookup_alter_eq, ?Hr; reflexivity | ]);
    unfold close, startTail in *; cbn in *; rewrite ?writes_pc, ?writes_request;
    repeat (case_match; cbn in *; simplify_eq; try congruence);
    repeat match goal with H : pc _ = _ |- _ => rewrite H end; cbn;
    try (split; [reflexivity|split; [reflexivity|]]);
    first [ left; split; [reflexivity|]; unfold holds_key; cbn; congruence
          | left; split; [reflexivity|]; by vm_compute
          | right; right; split; [done|split; [done|reflexivity]]
          | right; left; done
          | idtac ].
Qed.

(** The requests that delete the key [key] from outside the generate
    routes: DELETE /sessions/:sessionId deletes the lock key and the done
    key of the session it names. *)
Definition deletes (key : string) (l : Label) : bool :=
  match l with
  | DeleteSession sid =>
      bool_decide (key = SessionLock.activeSessionKey sid)
      || bool_decide (key = SessionLock.doneKey sid)
  | _ => false
  end.

(** For one lock key: the key of every invocation that holds it is in the
    store with an expiry no earlier than [LOCK_TTL], and no two invocations
    hold it. *)
Definition lock_inv (key : string) (s : Server) : Prop :=
  (forall i r, invocations s !! i = Some r -> holds_key (pc r) = true -> key_of r = key ->
     exists e, redis s !! key = Some e /\ SessionLock.LOCK_TTL <= Redis.expireAt e) /\
  (forall i j r r', invocations s !! i = Some r -> invocations s !! j = Some r' ->
     holds_key (pc r) = true -> holds_key (pc r') = true ->
     key_of r = key -> key_of r' = key -> i = j).

(** A step that leaves the key, the program points and the requests as they
    are. *)
Lemma lock_inv_frame key s s' :
  redis s' !! key = redis s !! key ->
  (forall k r', invocations s' !! k = Some r' ->
     exists r, invocations s !! k = Some r /\ pc r = pc r' /\ request r = request r') ->
  lock_inv key s -> lock_inv key s'.
Proof.
  intros Hd Hinv [HA HB]. split.
  - intros i r' Hi Hh Hkey. destruct (Hinv i r' Hi) as (r & Hr & Hpc & Hreq).
    rewrite <- Hpc in Hh. rewrite Hd. apply (HA i r Hr Hh).
    unfold key_of in *. by rewrite Hreq.
  - intros i j r1' r2' Hi Hj H1 H2 Hk1 Hk2.
    destruct (Hinv i r1' Hi) as (r1 & Hr1 & Hpc1 & Hreq1).
    destruct (Hinv j r2' Hj) as (r2 & Hr2 & Hpc2 & Hreq2).
    apply (HB i j r1 r2); unfold key_of in *; try done; congruence.
Qed.

Lemma held_is_live key s i r :
  lock_inv key s -> clock s < SessionLock.LOCK_TTL ->
  invocations s !! i = Some r -> holds_key (pc r) = true -> key_of r = key ->
  Redis.exists_ (clock s) key (redis s) = true.
Proof.
  intros [HA _] Hc Hr Hh Hkey. destruct (HA i r Hr Hh Hkey) as (e & He & Hle).
  apply SessionLockFacts.exists_lookup. exists e. split; [done|lia].
Qed.

Lemma resume_lock_inv key i rp s s' :
  clock s < SessionLock.LOCK_TTL ->
  resume i rp s = Some s' -> lock_inv key s -> lock_inv key s'.
Proof.
  intros Hc H Hinv.
  destruct (invocations s !! i) as [r|] eqn:Hr;
    [|by unfold resume in H; rewrite Hr in H].
  destruct (resume_lock i rp s s' r H Hr) as (r' & Hr' & Hreq & _ & Hcase).
  destruct (resume_frame i rp s s' r H Hr) as [Hframe _].
  assert (key_of r' = key_of r) as Hkey' by (unfold key_of; by rewrite Hreq).
  assert (forall k rk', invocations s' !! k = Some rk' ->
            k = i /\ rk' = r' \/ k <> i /\ invocations s !! k = Some rk') as Hwho.
  { intros k rk' Hk. destruct (decide (k = i)) as [->|Hne].
    - left. split; [done|congruence].
    - right. split; [done|]. by rewrite <- Hframe. }
  pose proof Hinv as [HA HB].
  destruct Hcase as [[Hd Hh] | [(Hnot & Hd & Hpc) | (Hheld & Hnot & Hd)]].
  - (* the store is not touched *)
    split.
    + intros k rk' Hk Hk' Hkey. rewrite Hd.
      destruct (Hwho k rk' Hk) as [[-> ->]|[Hne Hk0]]; [|by eapply HA].
      apply (HA i r Hr (Hh Hk')). congruence.
    + intros k l rk' rl' Hk Hl Hhk Hhl Hkk Hkl.
      destruct (Hwho k rk' Hk) as [[-> ->]|[Hnk Hk0]];
        destruct (Hwho l rl' Hl) as [[-> ->]|[Hnl Hl0]]; try done.
      * apply (HB i l r rl'); try done; [by apply Hh|congruence].
      * apply (HB k i rk' r); try done; [by apply Hh|congruence].
      * by apply (HB k l rk' rl').
  - (* SET key 1 EX 3600 NX *)
    rewrite SessionLockFacts.acquire_spec in Hd, Hpc.
    fold (key_of r) in Hd, Hpc.
    destruct (Redis.exists_ (clock s) (key_of r) (redis s)) eqn:Hex; cbn [fst snd] in Hd, Hpc.
    + (* rejected *)
      split.
      * intros k rk' Hk Hk' Hkey. rewrite Hd.
        destruct (Hwho k rk' Hk) as [[-> ->]|[Hne Hk0]]; [|by eapply HA].
        by rewrite Hpc in Hk'.
      * intros k l rk' rl' Hk Hl Hhk Hhl Hkk Hkl.
        destruct (Hwho k rk' Hk) as [[-> ->]|[Hnk Hk0]];
          destruct (Hwho l rl' Hl) as [[-> ->]|[Hnl Hl0]]; try done;
          try (by rewrite Hpc in Hhk); try (by rewrite Hpc in Hhl).
        by apply (HB k l rk' rl').
    + (* granted: nobody held the key this invocation asked for *)
      assert (forall k rk, invocations s !! k = Some rk -> holds_key (pc rk) = true ->
                key_of rk = key -> key_of r <> key) as Hfree.
      { intros k rk Hk Hhk Hkk Hkr.
        pose proof (held_is_live key s k rk Hinv Hc Hk Hhk Hkk) as Hlive.
        rewrite <- Hkr in Hlive. congruence. }
      split.
      * intros k rk' Hk Hk' Hkey. rewrite Hd.
        destruct (Hwho k rk' Hk) as [[-> ->]|[Hne Hk0]].
        -- rewrite <- Hkey, Hkey', lookup_insert_eq. eexists. split; [done|]. cbn. lia.
        -- destruct (HA k rk' Hk0 Hk' Hkey) as (e & He & Hle). exists e. split; [|done].
           rewrite lookup_insert_ne; [done|]. by apply (Hfree k rk' Hk0 Hk').
      * intros k l rk' rl' Hk Hl Hhk Hhl Hkk Hkl.
        destruct (Hwho k rk' Hk) as [[-> ->]|[Hnk Hk0]];
          destruct (Hwho l rl' Hl) as [[-> ->]|[Hnl Hl0]]; try done.
        -- exfalso. apply (Hfree l rl' Hl0 Hhl Hkl). congruence.
        -- exfalso. apply (Hfree k rk' Hk0 Hhk Hkk). congruence.
        -- by apply (HB k l rk' rl').
  - (* DEL key, by the invocation that holds it *)
    assert (forall k rk, k <> i -> invocations s !! k = Some rk -> holds_key (pc rk) = true ->
              key_of rk = key -> key_of r <> key) as Hother.
    { intros k rk Hne Hk Hhk Hkk Hkr. apply Hne. by apply (HB k i rk r). }
    split.
    + intros k rk' Hk Hk' Hkey. rewrite Hd.
      destruct (Hwho k rk' Hk) as [[-> ->]|[Hne Hk0]]; [congruence|].
      destruct (HA k rk' Hk0 Hk' Hkey) as (e & He & Hle). exists e. split; [|done].
      unfold SessionLock.release, Redis.del. cbn [snd].
      rewrite lookup_delete_ne; [done|]. fold (key_of r).
      by apply (Hother k rk' Hne Hk0 Hk').
    + intros k l rk' rl' Hk Hl Hhk Hhl Hkk Hkl.
      destruct (Hwho k rk' Hk) as [[-> ->]|[Hnk Hk0]];
        destruct (Hwho l rl' Hl) as [[-> ->]|[Hnl Hl0]]; try congruence.
      by apply (HB k l rk' rl').
Qed.

Lemma step_lock_inv key l s s' :
  clock s < SessionLock.LOCK_TTL ->
  deletes key l = false ->
  step l s = Some s' -> lock_inv key s -> lock_inv key s'.
Proof.
  intros Hc Hdel H Hinv. destruct l as [g|i rp|sid|t|t n0|n|sid]; cbn [step] in H.
  - (* a request arrives *)
    simplify_eq. pose proof Hinv as [HA HB].
    assert (forall k rk, (invocations s ++ [new_invocation g]) !! k = Some rk ->
              holds_key (pc rk) = true -> invocations s !! k = Some rk) as Hold.
    { intros k rk Hk Hh. apply lookup_app_Some in Hk as [Hk|[_ Hk]]; [done|].
      apply list_lookup_singleton_Some in Hk as [_ <-]. done. }
    split; cbn.
    + intros k rk Hk Hh. apply (HA k rk); [by apply Hold|done].
    + intros k l rk rl Hk Hl Hhk Hhl. apply (HB k l rk rl); try done; by apply Hold.
  - by eapply resume_lock_inv.
  - (* DELETE /:sessionId/stop *)
    destruct (sessionAbortControllers s !! sid) as [j|]; simplify_eq; [|done].
    apply (lock_inv_frame key s); [done| |done]. cbn. intros k r' Hk.
    destruct (decide (k = j)) as [->|Hne].
    + rewrite list_lookup_alter_eq in Hk. destruct (invocations s !! j) as [r|]; [|done].
      cbn in Hk. simplify_eq. by exists r.
    + rewrite list_lookup_alter_ne in Hk by done. by exists r'.
  - destruct (backgroundJobs s !! t); simplify_eq; [|done].
    apply (lock_inv_frame key s); [done| |done]. cbn. intros k r' Hk. by exists r'.
  - open_bind H. simplify_eq.
    apply (lock_inv_frame key s); [done| |done]. cbn. intros k r' Hk. by exists r'.
  - simplify_eq. apply (lock_inv_frame key s); [done| |done]. cbn. intros k r' Hk. by exists r'.
  - (* DELETE /sessions/:sessionId, of another session *)
    simplify_eq. cbn in Hdel. apply orb_false_elim in Hdel as [Ha Hd].
    apply bool_decide_eq_false in Ha, Hd.
    apply (lock_inv_frame key s); [| |done]; cbn.
    + unfold SessionLock.delete_session, Redis.del. cbn [snd].
      by rewrite !lookup_delete_ne.
    + intros k r' Hk. by exists r'.
Qed.

Lemma step_clock l s s' : step l s = Some s' -> clock s <= clock s'.
Proof.
  intros H. destruct l as [g|i rp|sid|t|t n0|n|sid]; cbn [step] in H.
  - by simplify_eq.
  - destruct (invocations s !! i) as [r|] eqn:Hr;
      [|by unfold resume in H; rewrite Hr in H].
    destruct (resume_lock i rp s s' r H Hr) as (r' & _ & _ & -> & _). done.
  - by destruct (sessionAbortControllers s !! sid); simplify_eq.
  - by destruct (backgroundJobs s !! t); simplify_eq.
  - open_bind H. by simplify_eq.
  - simplify_eq. cbn. lia.
  - by simplify_eq.
Qed.

Lemma run_clock tr : forall s s', run tr s = Some s' -> clock s <= clock s'.
Proof.
  induction tr as [|l tr IH]; intros s s' H; cbn in H; [by simplify_eq|].
  destruct (step l s) as [s1|] eqn:Hstep; [|done]. cbn in H.
  pose proof (step_clock _ _ _ Hstep). specialize (IH _ _ H). lia.
Qed.

Lemma run_lock_inv key tr : forall s s',
  run tr s = Some s' -> clock s' < SessionLock.LOCK_TTL ->
  forallb (fun l => negb (deletes key l)) tr = true ->
  lock_inv key s -> lock_inv key s'.
Proof.
  induction tr as [|l tr IH]; intros s s' H Hc Hdel Hinv; cbn in H; [by simplify_eq|].
  destruct (step l s) as [s1|] eqn:Hstep; [|done]. cbn in H.
  cbn in Hdel. apply andb_prop in Hdel as [Hl Hdel]. apply negb_true_iff in Hl.
  pose proof (step_clock _ _ _ Hstep). pose proof (run_clock _ _ _ H).
  apply (IH s1 s' H Hc Hdel). apply (step_lock_inv key l s s1); [lia|done|done|done].
Qed.

(** X16.  In a run that lasts less than the expiry of the lock and in which no
    DELETE /sessions/:sessionId deletes the key of the session: while a
    request is between the reply that granted it the lock and its return,
    the key of its session is in the store, so that every [SET NX] for the
    session is rejected, and no other request of the session is past the
    lock. *)
Theorem one_generation_per_session tr s i r :
  run tr init = Some s ->
  clock s < SessionLock.LOCK_TTL ->
  forallb (fun l => negb (deletes (key_of r) l)) tr = true ->
  invocations s !! i = Some r ->
  past_lock (pc r) = true ->
  fst (SessionLock.acquire (clock s) (session_id (request r)) (redis s)) = false /\
  forall j r',
    j <> i -> invocations s !! j = Some r' ->
    session_id (request r') = session_id (request r) ->
    past_lock (pc r') = false.
Proof.
  intros Hrun Hc Hdel Hr Hp.
  assert (lock_inv (key_of r) init) as Hinit by (split; intros ? ?; by cbn).
  pose proof (run_lock_inv (key_of r) tr init s Hrun Hc Hdel Hinit) as Hinv.
  assert (holds_key (pc r) = true) as Hh by (unfold holds_key; by rewrite Hp).
  split.
  - rewrite SessionLockFacts.acquire_spec.
    pose proof (held_is_live (key_of r) s i r Hinv Hc Hr Hh eq_refl) as Hlive.
    unfold key_of in Hlive. by rewrite Hlive.
  - intros j r' Hne Hr' Hsid.
    destruct (past_lock (pc r')) eqn:Hp'; [|done]. exfalso. apply Hne.
    destruct Hinv as [_ HB]. apply (HB j i r' r); try done.
    + unfold holds_key. by rewrite Hp'.
    + unfold key_of. by rewrite Hsid.
Qed.

(** The background generation of [bg_running] and the second request for its
    session, after the store has answered; a session of another name is
    deleted in between. *)
Definition both_requests_run : list Label :=
  bg_running ++ [DeleteSession "s2"] ++ second_request.

Definition both_requests : Server := state_after both_requests_run.

Definition first_invocation : Invocation :=
  default (new_invocation bg_codex) (invocations both_requests !! 0).

Lemma one_generation_per_session_witness :
  fst (SessionLock.acquire (clock both_requests) (session_id (request first_invocation))
         (redis both_requests)) = false /\
  forall j r',
    j <> 0 -> invocations both_requests !! j = Some r' ->
    session_id (request r') = session_id (request first_invocation) ->
    past_lock (pc r') = false.
Proof.
  apply (one_generation_per_session both_requests_run both_requests 0 first_invocation).
  - vm_compute. reflexivity.
  - vm_compute. lia.
  - vm_compute. reflexivity.
  - vm_compute. reflexivity.
  - vm_compute. reflexivity.
Defined.

(** The hypothesis on the deletions is needed: a session deleted while its
    generation runs loses its lock key, and a second request of the session
    gets past the lock while the first is still at work. *)
Lemma deleted_session_runs_twice :
  let s := state_after (bg_running ++ [DeleteSession "s1"] ++ second_request) in
  pc <$> invocations s !! 0 = Some (P_Core K_Loop) /\
  pc <$> invocations s !! 1 = Some P_UserMessage /\
  past_lock P_UserMessage = true.
Proof. by vm_compute. Qed.

End ExclusionFacts.

Module StreamFacts.
Import Generate GenerateFacts.

(** *** What a foreground request receives *)

Definition sdk (json : string) : Reply := Msg (SdkMessage json) None.

Lemma forward_messages i messages : forall s r,
  invocations s !! i = Some r ->
  pc r = P_Core K_Loop -> agent (request r) = claude_code -> jobId r = None ->
  aborted r = false -> closed r = false ->
  exists s' r',
    run (map (fun json => Resume i (sdk json)) messages) s = Some s' /\
    invocations s' !! i = Some r' /\
    pc r' = P_Core K_Loop /\ request r' = request r /\ jobId r' = None /\
    aborted r' = false /\ closed r' = false /\
    sent r' = sent r ++ messages /\
    redis s' = redis s /\ sessionAbortControllers s' = sessionAbortControllers s /\
    backgroundJobs s' = backgroundJobs s.
Proof.
  induction messages as [|json messages IH]; intros s r Hr Hpc Hag Hjob Hab Hcl.
  - exists s, r. cbn. rewrite app_nil_r. by repeat split.
  - cbn [map run step]. unfold resume, sdk. rewrite Hr. cbn [mbind option_bind].
    rewrite Hpc, Hab, Hag. unfold out. rewrite Hjob. cbn [mbind option_bind].
    set (s1 := update_inv i (write json) s).
    assert (invocations s1 !! i = Some (write json r)) as Hr1.
    { unfold s1, update_inv. cbn. by rewrite list_lookup_alter_eq, Hr. }
    destruct (IH s1 (write json r) Hr1) as (s' & r' & Hrun & Hr' & H1 & H2 & H3 & H4 & H5 & H6 & H7);
      try done.
    exists s', r'. repeat (split; [done|]). split; [|done].
    rewrite H6. cbn. rewrite Hcl. by rewrite <- app_assoc.
Qed.

(** X22.  A foreground Claude Code turn that is neither stopped nor disconnected:
    the client is sent every message of the agent, in the order in which the
    agent produced them, then the done line, and the response is ended with
    status 200; the handler returns with the lock released and the
    controller of the session removed. *)
Theorem foreground_stream i messages s r :
  invocations s !! i = Some r ->
  pc r = P_Core K_Loop -> agent (request r) = claude_code -> jobId r = None ->
  aborted r = false -> closed r = false ->
  exists s' r',
    run (map (fun json => Resume i (sdk json)) messages
         ++ [Resume i IterEnd; Resume i (Updated None)]) s = Some s' /\
    invocations s' !! i = Some r' /\
    sent r' = sent r ++ messages ++ [DONE_LINE] /\
    closed r' = true /\ statusCode r' = 200 /\ pc r' = P_Returned /\
    redis s' !! SessionLock.activeSessionKey (session_id (request r)) = None /\
    sessionAbortControllers s' !! session_id (request r) = None.
Proof.
  intros Hr Hpc Hag Hjob Hab Hcl.
  destruct (forward_messages i messages s r Hr Hpc Hag Hjob Hab Hcl)
    as (s1 & r1 & Hrun & Hr1 & Hpc1 & Hreq1 & Hjob1 & Hab1 & Hcl1 & Hsent1 & _).
  rewrite run_app, Hrun. cbn [mbind option_bind run step].
  unfold resume. rewrite Hr1. cbn [mbind option_bind]. rewrite Hpc1.
  unfold after_loop. rewrite Hreq1, Hag.
  set (s2 := update_inv i (set_pc (P_Core K_Update)) s1).
  assert (invocations s2 !! i = Some (set_pc (P_Core K_Update) r1)) as Hr2.
  { unfold s2, update_inv. cbn. by rewrite list_lookup_alter_eq, Hr1. }
  cbn [mbind option_bind]. rewrite Hr2. cbn [mbind option_bind pc set_pc].
  eexists _, _. split; [reflexivity|].
  unfold core_resolved, out. cbn [jobId set_pc]. rewrite Hjob1.
  unfold fg_finally, release_session, update_inv, with_redis, with_controllers,
    with_invocations. cbn [invocations redis sessionAbortControllers clock request set_pc].
  rewrite !list_lookup_alter_eq, Hr2. cbn [fmap option_fmap option_map].
  split; [reflexivity|]. rewrite Hreq1.
  unfold close, write. cbn. rewrite Hcl1. cbn. rewrite Hsent1, <- app_assoc.
  repeat (split; [done|]). unfold SessionLock.release, Redis.del. cbn [snd].
  split; apply lookup_delete_eq.
Qed.

(** A foreground Claude Code request up to the message loop. *)
Definition fg_running : list Label :=
  [Arrive fg_claude; Resume 0 (GotSession true); Resume 0 (GotMessages (Some false));
   Resume 0 LockReply; Resume 0 (UserMessage (Some ["u1"]) "")].

Definition fg_invocation : Invocation :=
  default (new_invocation fg_claude) (invocations (state_after fg_running) !! 0).

Lemma foreground_stream_witness :
  exists s' r',
    run (map (fun json => Resume 0 (sdk json)) ["m1"; "m2"]
         ++ [Resume 0 IterEnd; Resume 0 (Updated None)]) (state_after fg_running) = Some s' /\
    invocations s' !! 0 = Some r' /\
    sent r' = sent fg_invocation ++ ["m1"; "m2"] ++ [DONE_LINE] /\
    closed r' = true /\ statusCode r' = 200 /\ pc r' = P_Returned /\
    redis s' !! SessionLock.activeSessionKey (session_id (request fg_invocation)) = None /\
    sessionAbortControllers s' !! session_id (request fg_invocation) = None.
Proof.
  apply (foreground_stream 0 ["m1"; "m2"] (state_after fg_running) fg_invocation).
  - vm_compute. reflexivity.
  - vm_compute. reflexivity.
  - vm_compute. reflexivity.
  - vm_compute. reflexivity.
  - vm_compute. reflexivity.
  - vm_compute. reflexivity.
Defined.

End StreamFacts.

Module CodexAdapterFacts.
Import Codex.

(** *** More on the wait for the session file *)

Lemma poll_resolves timeoutMs intervalMs find abortAt k p :
  (k * intervalMs <= timeoutMs + 5)%N ->
  find (k * intervalMs)%N = Some p ->
  fired abortAt (k * intervalMs) = false ->
  forall n i fuel,
    (i + N.of_nat n = k)%N -> n < fuel ->
    (forall j, (i <= j < k)%N -> find (j * intervalMs)%N = None) ->
    poll fuel i timeoutMs intervalMs find abortAt = Resolved p (k * intervalMs).
Proof.
  intros Hk Hp Ha. induction n as [|n IH]; intros i fuel Hi Hfuel Hnone;
    (destruct fuel as [|fuel]; [lia|]); cbn [poll].
  - assert (i = k) as -> by lia.
    destruct (N.ltb_spec (timeoutMs + 5) (k * intervalMs)); [lia|].
    rewrite Hp. destruct abortAt as [a|]; [|done]. cbn in Ha. by rewrite Ha.
  - assert (i * intervalMs <= k * intervalMs)%N as Hle by nia.
    destruct (N.ltb_spec (timeoutMs + 5) (i * intervalMs)); [lia|].
    rewrite (Hnone i) by lia.
    assert (poll fuel (i + 1) timeoutMs intervalMs find abortAt = Resolved p (k * intervalMs))
      as -> by (apply IH; [lia|lia|intros; apply Hnone; lia]).
    destruct abortAt as [a|]; [|done]. cbn in Ha. apply N.leb_gt in Ha.
    destruct (N.leb_spec a (i * intervalMs)); [lia|done].
Qed.

(** X9.  The wait resolves at the first tick of the interval at which the search
    finds the file, with what the search returns then, when that tick comes
    before the timeout and before the signal fires. *)
Theorem wait_resolves_at_first_tick timeoutMs intervalMs find abortAt k p :
  (0 < intervalMs)%N -> (0 < k)%N -> (k * intervalMs <= timeoutMs + 5)%N ->
  (forall j, (j < k)%N -> find (j * intervalMs)%N = None) ->
  find (k * intervalMs)%N = Some p ->
  fired abortAt (k * intervalMs) = false ->
  waitForSessionFileById timeoutMs intervalMs find abortAt = Resolved p (k * intervalMs).
Proof.
  intros HI Hk Hle Hnone Hp Ha. unfold waitForSessionFileById.
  pose proof (Hnone 0%N Hk) as H0. rewrite N.mul_0_l in H0. rewrite H0.
  assert (fired abortAt 0 = false) as ->.
  { destruct abortAt as [a|]; [|done]. cbn in *. apply N.leb_gt in Ha. apply N.leb_gt. lia. }
  replace (N.max 1 intervalMs) with intervalMs by lia.
  apply (poll_resolves _ _ _ _ k p Hle Hp Ha (N.to_nat (k - 1))); [lia| |intros; apply Hnone; lia].
  assert (k <= (timeoutMs + 5) / intervalMs)%N.
  { apply N.div_le_lower_bound; lia. }
  lia.
Qed.

(** The session file appears 600 ms after the id was printed. *)
Definition appears_at_600 (t : N) : option string :=
  if (600 <=? t)%N then Some "/sessions/rollout.jsonl" else None.

Lemma wait_resolves_at_first_tick_witness :
  waitForSessionFileById WAIT_TIMEOUT_MS WAIT_INTERVAL_MS appears_at_600 None
  = Resolved "/sessions/rollout.jsonl" (3 * WAIT_INTERVAL_MS).
Proof.
  apply (wait_resolves_at_first_tick WAIT_TIMEOUT_MS WAIT_INTERVAL_MS appears_at_600 None 3
           "/sessions/rollout.jsonl").
  - reflexivity.
  - reflexivity.
  - by vm_compute.
  - intros j Hj. unfold appears_at_600, WAIT_INTERVAL_MS.
    destruct (N.leb_spec 600 (j * 250)); [lia|done].
  - reflexivity.
  - reflexivity.
Defined.

(** *** The init event *)

Lemma poll_sound fuel : forall k timeoutMs intervalMs find abortAt p t,
  poll fuel k timeoutMs intervalMs find abortAt = Resolved p t -> find t = Some p.
Proof.
  induction fuel as [|fuel IH]; intros k timeoutMs intervalMs find abortAt p t; cbn [poll];
    [done|].
  repeat case_match; try done; try (by intros [= <- <-]); apply IH.
Qed.

Lemma wait_sound timeoutMs intervalMs find abortAt p t :
  waitForSessionFileById timeoutMs intervalMs find abortAt = Resolved p t -> find t = Some p.
Proof.
  unfold waitForSessionFileById. destruct (find 0%N) eqn:H0.
  - by intros [= <- <-].
  - destruct (fired abortAt 0); [done|]. apply poll_sound.
Qed.

Definition is_init (e : CodexStreamEvent) : bool := negb (is_done e).

Lemma drain_at_most_one fuel : forall now pending stdoutEnd,
  drain fuel now pending stdoutEnd = [] \/
  exists t ev, pending = Some (t, ev) /\ drain fuel now pending stdoutEnd = [ev].
Proof.
  induction fuel as [|fuel IH]; intros now pending stdoutEnd; cbn [drain]; [by left|].
  destruct pending as [[t ev]|].
  - destruct (t <=? now)%N.
    + right. exists t, ev. split; [done|].
      destruct (stdoutEnd <=? now + DRAIN_MS)%N; [done|].
      by rewrite CodexFacts.drain_none.
    + destruct (stdoutEnd <=? now + DRAIN_MS)%N; [by left|]. cbn [app]. apply IH.
  - left. destruct (stdoutEnd <=? now + DRAIN_MS)%N; [done|]. apply CodexFacts.drain_none.
Qed.

(** X10.  Every event [queryCodex] yields before the end is the one init event of
    the turn: a resumed turn has none; it carries the id parsed from stderr
    and a path the search returned for that id; and a done event, if there
    is one, comes after it. *)
Theorem init_event_sound (c : CodexRun) :
  exists inits,
    fst (queryCodex c) = inits ++ List.filter is_done (fst (queryCodex c)) /\
    (inits = [] \/
     exists path id idAt t,
       inits = [Init path id] /\ resume c = "" /\
       stderrId c = Some (idAt, id) /\ sessionFile c id t = Some path).
Proof.
  unfold queryCodex. destruct (prompt c); [exists []; split; [done|by left]|].
  destruct (spawnError c); [exists []; split; [done|by left]|].
  set (inits := drain _ _ _ _). exists inits.
  assert (List.filter is_done inits = []) as Hnd.
  { pose proof (CodexFacts.drain_inits (S (N.to_nat (stdoutEnd c / DRAIN_MS))) 0 (pendingEmit c)
                  (stdoutEnd c) (CodexFacts.pendingEmit_init c)) as [Hc _].
    unfold done_count in Hc. fold inits in Hc. by destruct (List.filter is_done inits). }
  split.
  - repeat case_match; cbn [fst]; rewrite ?List.filter_app, ?Hnd; cbn; by rewrite ?app_nil_r.
  - destruct (drain_at_most_one (S (N.to_nat (stdoutEnd c / DRAIN_MS))) 0 (pendingEmit c)
                (stdoutEnd c)) as [H|(t & ev & Hp & H)]; fold inits in H; [by left|].
    right. unfold pendingEmit, discovery in Hp.
    destruct (resume c) eqn:Hres; [|done].
    destruct (stderrId c) as [[idAt id]|] eqn:Hid; [|done].
    destruct (waitForSessionFileById _ _ _ _) as [path t0|] eqn:Hw; [|done].
    apply wait_sound in Hw. simplify_eq. by exists path, id, idAt, (idAt + t0)%N.
Qed.

(** *** A session file found after the end of stdout *)

Lemma drain_late fuel : forall now t ev stdoutEnd,
  (now < t)%N -> (stdoutEnd <= t)%N ->
  drain fuel now (Some (t, ev)) stdoutEnd = [].
Proof.
  induction fuel as [|fuel IH]; intros now t ev stdoutEnd Hnow Hend; cbn [drain]; [done|].
  destruct (N.leb_spec t now); [lia|].
  destruct (N.leb_spec stdoutEnd (now + DRAIN_MS)); [done|].
  cbn [app]. apply IH; lia.
Qed.

(** X11.  The init event is flushed by the loop that runs while stdout is open:
    when the wait resolves once stdout has ended, the event is pushed and
    never yielded, and the turn ends as one in which no file was found. *)
Theorem late_discovery_is_dropped (c : CodexRun) t ev :
  prompt c <> "" -> spawnError c = None ->
  pendingEmit c = Some (t, ev) ->
  (0 < t)%N -> (stdoutEnd c <= t)%N ->
  queryCodex c = CodexFacts.exit_only c.
Proof.
  intros Hp Hs He Ht Hend. rewrite (CodexFacts.queryCodex_unfold c Hp Hs). cbv zeta.
  rewrite He, drain_late by done. done.
Qed.

(** The subprocess prints its id at 100 ms and closes its stdout at 400 ms;
    the session file appears at 600 ms. *)
Definition quick_run : CodexRun :=
  {| prompt := "fix the build"; resume := "";
     spawnError := None;
     stderrId := Some (100%N, "0199ea78-389d-7dc0-a2b9-a41cf7c8b782");
     sessionFile := fun _ t => if (600 <=? t)%N then Some "/sessions/rollout.jsonl" else None;
     abortedBefore := false; abortCall := None; stdoutEnd := 400; closeAt := 410; exitCode := Some 0%N |}.

Lemma late_discovery_is_dropped_witness :
  queryCodex quick_run = CodexFacts.exit_only quick_run.
Proof.
  apply (late_discovery_is_dropped quick_run 600
           (Init "/sessions/rollout.jsonl" "0199ea78-389d-7dc0-a2b9-a41cf7c8b782")).
  - done.
  - reflexivity.
  - by vm_compute.
  - reflexivity.
  - by vm_compute.
Defined.

End CodexAdapterFacts.

Module TailOrderFacts.
Import Tail.

(** *** The order of the lines *)

(** What a step does to the lines: it takes lines from the front of the
    queue and yields them, and it adds lines at the end of the queue; once
    the signal has fired it yields none. *)
Definition lines_step (t t' : Tailer) : Prop :=
  exists taken more,
    yielded t' = yielded t ++ taken /\
    yielded t' ++ queue t' = yielded t ++ queue t ++ more /\
    (aborted t = true -> taken = [] /\ aborted t' = true).

Lemma lines_step_refl t : lines_step t t.
Proof. exists [], []. by rewrite !app_nil_r. Qed.

Lemma lines_step_trans t1 t2 t3 : lines_step t1 t2 -> lines_step t2 t3 -> lines_step t1 t3.
Proof.
  intros (k1 & m1 & Hy1 & Hq1 & Ha1) (k2 & m2 & Hy2 & Hq2 & Ha2).
  exists (k1 ++ k2), (m1 ++ m2). split; [by rewrite Hy2, Hy1, app_assoc|]. split.
  - by rewrite Hq2, (app_assoc (yielded t2)), Hq1, <- !app_assoc.
  - intros Ha. destruct (Ha1 Ha) as [-> Ha']. by destruct (Ha2 Ha') as [-> ?].
Qed.

(** A step that leaves the lines and the flag as they are. *)
Lemma lines_step_same t t' :
  yielded t' = yielded t -> queue t' = queue t -> aborted t' = aborted t -> lines_step t t'.
Proof.
  intros Hy Hq Ha. exists [], []. rewrite Hy, Hq, Ha, !app_nil_r. done.
Qed.

Lemma readNew_lines t :
  yielded (readNew t) = yielded t /\ queue (readNew t) = queue t /\
  aborted (readNew t) = aborted t.
Proof. unfold readNew. by repeat case_match. Qed.

Lemma read_finally_lines t :
  yielded (read_finally t) = yielded t /\ queue (read_finally t) = queue t /\
  aborted (read_finally t) = aborted t.
Proof.
  unfold read_finally. case_match; [|done].
  destruct (readNew_lines (set_reader false false None t)) as (-> & -> & ->). done.
Qed.

Lemma opened_lines initial d t :
  yielded (opened initial d t) = yielded t /\ queue (opened initial d t) = queue t /\
  aborted (opened initial d t) = aborted t.
Proof. unfold opened. by case_match. Qed.

Lemma feed_lines bytes t :
  yielded (feed bytes t) = yielded t /\ aborted (feed bytes t) = aborted t /\
  exists more, queue (feed bytes t) = queue t ++ more.
Proof. unfold feed. destruct (take_lines _) as [lines rest]. cbn. eauto. Qed.

Ltac fin H := first [discriminate H | injection H as <- <-].

Lemma step_lines e d t d' t' : step e (d, t) = Some (d', t') -> lines_step t t'.
Proof.
  intros H. destruct e; cbn [step] in H.
  - (* Append *) repeat case_match; fin H. apply lines_step_refl.
  - repeat case_match; fin H. apply lines_step_refl.
  - repeat case_match; fin H. apply lines_step_refl.
  - (* Change *)
    destruct (aborted t); fin H; [apply lines_step_refl|].
    destruct (readNew_lines t) as (? & ? & ?). by apply lines_step_same.
  - (* Rename *)
    repeat case_match; fin H; by apply lines_step_same.
  - (* FirstOpen *)
    destruct (started t); [done|]. cbv zeta in H. fin H.
    destruct (opened_lines true d t) as (Hy & Hq & Ha).
    case_match; [by apply lines_step_same|].
    destruct (readNew_lines (set_flags true (aborted t) (opened true d t))) as (Hy' & Hq' & Ha').
    apply lines_step_same; [by rewrite Hy'|by rewrite Hq'|by rewrite Ha'].
  - (* ReaderOpen *)
    destruct (reader t) as [[| |]|]; try done. cbv zeta in H.
    destruct (opened_lines false d t) as (Hy & Hq & Ha).
    destruct (handle (opened false d t)); fin H.
    + by apply lines_step_same.
    + destruct (read_finally_lines (opened false d t)) as (Hy' & Hq' & Ha').
      apply lines_step_same; congruence.
  - (* StatDone *)
    destruct (reader t) as [[| |]|]; try done.
    repeat case_match; fin H;
      try (by apply lines_step_same);
      match goal with
      | |- lines_step _ (read_finally ?x) =>
          destruct (read_finally_lines x) as (Hy' & Hq' & Ha'); by apply lines_step_same
      end.
  - (* ReadDone *)
    destruct (reader t) as [[| |ino position remaining buflen]|]; try done.
    cbv zeta in H.
    destruct (feed_lines (read_at d ino position bytesRead) t) as (Hy & Ha & more & Hq).
    repeat case_match; fin H;
      try match goal with
      | |- lines_step _ (read_finally ?x) =>
          destruct (read_finally_lines x) as (Hy' & Hq' & Ha')
      end;
      try (by apply lines_step_same);
      (exists [], more; cbn in *; rewrite ?Hy', ?Hq', ?Ha'; cbn; rewrite ?Hy, ?Hq, ?Ha;
       rewrite ?app_nil_r; done).
  - (* CloseDone *)
    destruct (closing t); fin H. by apply lines_step_same.
  - (* RenameOpen *)
    destruct (opening t) as [|o]; fin H.
    destruct (opened_lines true d (set_renames (closing t) o t)) as (Hy & Hq & Ha).
    destruct (readNew_lines (opened true d (set_renames (closing t) o t))) as (Hy' & Hq' & Ha').
    cbn in Hy, Hq, Ha. apply lines_step_same; congruence.
  - (* Take *)
    destruct (started t); cbn in H; [|done]. destruct (aborted t) eqn:Hab; cbn in H; [done|].
    destruct (queue t) as [|line q] eqn:Hq; fin H.
    exists [line], []. cbn. rewrite Hq, app_nil_r, <- app_assoc.
    split; [done|]. split; [done|]. by rewrite Hab.
  - (* Abort *)
    fin H. exists [], []. cbn. rewrite !app_nil_r. by split.
Qed.

(** X17.  Whatever happens to the file, rotation included, the tailer only ever
    yields the line at the front of its queue and adds lines at the end of
    it: the lines yielded and queued at any moment are still there at every
    later moment, in the same order, followed by the lines read since; and
    once the signal has fired no further line is yielded. *)
Theorem tail_order_kept es : forall st st',
  run es st = Some st' ->
  exists taken more,
    yielded (snd st') = yielded (snd st) ++ taken /\
    yielded (snd st') ++ queue (snd st') = yielded (snd st) ++ queue (snd st) ++ more /\
    (aborted (snd st) = true -> taken = [] /\ aborted (snd st') = true).
Proof.
  induction es as [|e es IH]; intros st st' H; cbn [run] in H.
  - simplify_eq. apply lines_step_refl.
  - destruct (step e st) as [st1|] eqn:Hstep; [|done]. cbn in H.
    destruct st as [d t], st1 as [d1 t1].
    apply (lines_step_trans t t1 (snd st')); [by eapply step_lines|].
    exact (IH (d1, t1) st' H).
Qed.

Lemma tail_order_kept_witness :
  exists taken more,
    yielded (snd (default (TailFacts.one_line, start true)
                    (run TailFacts.rotation (TailFacts.one_line, start true))))
    = yielded (snd (TailFacts.one_line, start true)) ++ taken /\
    yielded (snd (default (TailFacts.one_line, start true)
                    (run TailFacts.rotation (TailFacts.one_line, start true))))
    ++ queue (snd (default (TailFacts.one_line, start true)
                     (run TailFacts.rotation (TailFacts.one_line, start true))))
    = yielded (snd (TailFacts.one_line, start true))
      ++ queue (snd (TailFacts.one_line, start true)) ++ more /\
    (aborted (snd (TailFacts.one_line, start true)) = true ->
     taken = [] /\
     aborted (snd (default (TailFacts.one_line, start true)
                     (run TailFacts.rotation (TailFacts.one_line, start true)))) = true).
Proof.
  apply (tail_order_kept TailFacts.rotation (TailFacts.one_line, start true)).
  vm_compute. reflexivity.
Defined.

End TailOrderFacts.

Module SessionFilesFacts.
Import Js SessionFiles.

(** *** The session id in the stderr of the subprocess *)

(** The text from unit [i] on is "session id:" in any case, white space, and
    the 36 units [id] of the class of the group. *)
Definition session_id_at (text : list N) (i : nat) (id : list N) : Prop :=
  exists key ws rest,
    drop i text = key ++ ws ++ id ++ rest /\
    toLowerCase key = SESSION_ID_KEY /\
    Forall (fun c => Tail.is_space c = true) ws /\
    length id = 36 /\ Forall (fun c => is_uuid_unit c = true) id.

Lemma startsWith_prefix p : forall s, startsWith s p = true <-> exists r, s = p ++ r.
Proof.
  induction p as [|a p IH]; intros s; cbn.
  - split; [intros _; by exists s|done].
  - destruct s as [|b s]; [split; [done|by intros [? ?]]|].
    rewrite andb_true_iff, N.eqb_eq, IH. split.
    + intros [-> [r ->]]. by exists r.
    + intros [r Hr]. simplify_eq. eauto.
Qed.

Lemma uuid_unit_not_space c : is_uuid_unit c = true -> Tail.is_space c = false.
Proof.
  unfold is_uuid_unit, is_digit, Tail.is_space. intros H.
  repeat (apply orb_prop in H as [H|H]);
    repeat match goal with
    | H : (_ && _ = true) |- _ => apply andb_prop in H as [? ?]
    | H : (_ <=? _)%N = true |- _ => apply N.leb_le in H
    | H : (_ =? _)%N = true |- _ => apply N.eqb_eq in H
    end;
    repeat (apply orb_false_intro); try apply andb_false_iff;
    rewrite ?N.leb_gt, ?N.eqb_neq; lia.
Qed.

Lemma drop_while_spaces ws : forall s,
  Forall (fun c => Tail.is_space c = true) ws ->
  drop_while Tail.is_space (ws ++ s) = drop_while Tail.is_space s.
Proof. induction 1 as [|c ws Hc _ IH]; cbn; [done|]. by rewrite Hc. Qed.

Lemma drop_while_split {A} (f : A -> bool) s :
  exists ws, s = ws ++ drop_while f s /\ Forall (fun c => f c = true) ws.
Proof.
  induction s as [|c s (ws & Hs & Hws)]; cbn.
  - by exists [].
  - destruct (f c) eqn:Hc.
    + exists (c :: ws). split; [cbn; by f_equal|by constructor].
    + by exists [].
Qed.

Lemma forallb_Forall {A} (f : A -> bool) l :
  forallb f l = true <-> Forall (fun c => f c = true) l.
Proof.
  induction l as [|c l IH]; cbn; [done|].
  rewrite andb_true_iff, IH. split.
  - intros [? ?]. by constructor.
  - by inversion 1.
Qed.

(** A match at the first unit, as a decomposition of the text. *)
Lemma match_session_id_spec s id :
  match_session_id s = Some id <-> session_id_at s 0 id.
Proof.
  unfold match_session_id, session_id_at. cbn [drop]. split.
  - destruct (startsWith _ _) eqn:Hkey; [|done].
    destruct (_ && _) eqn:Hgroup; [|done]. intros [= <-].
    apply andb_prop in Hgroup as [Hlen Hall]. apply Nat.eqb_eq in Hlen.
    apply forallb_Forall in Hall.
    destruct (drop_while_split Tail.is_space (drop 11 s)) as (ws & Hws & Hsp).
    exists (take 11 s), ws, (drop 36 (drop_while Tail.is_space (drop 11 s))).
    rewrite (take_drop 36 (drop_while Tail.is_space (drop 11 s))), <- Hws.
    rewrite (take_drop 11 s). repeat split; try done.
    apply startsWith_prefix in Hkey as [r Hr].
    assert (length (toLowerCase (take 11 s)) <= 11) as Hle.
    { unfold toLowerCase. rewrite length_map, length_take. lia. }
    rewrite Hr, length_app in Hle. cbn in Hle.
    destruct r; [by rewrite app_nil_r in Hr|cbn in Hle; lia].
  - intros (key & ws & rest & Hs & Hkey & Hws & Hlen & Hid).
    change (drop 0 s) with s in Hs. subst s.
    assert (length key = 11) as Hk.
    { apply (f_equal length) in Hkey. unfold toLowerCase in Hkey.
      by rewrite length_map in Hkey. }
    rewrite take_app_length' by done. rewrite Hkey. cbn [startsWith SESSION_ID_KEY lit].
    replace (startsWith _ _) with true by done.
    rewrite drop_app_length' by done. rewrite drop_while_spaces by done.
    assert (drop_while Tail.is_space (id ++ rest) = id ++ rest) as ->.
    { destruct id as [|c id]; [done|]. cbn. inversion Hid; subst.
      by rewrite uuid_unit_not_space. }
    rewrite take_app_length' by done. rewrite Hlen. cbn [Nat.eqb andb].
    by rewrite (proj2 (forallb_Forall _ _) Hid).
Qed.

Lemma session_id_at_S c text i id :
  session_id_at (c :: text) (S i) id <-> session_id_at text i id.
Proof. done. Qed.

(** X4.  [parseSessionId] returns the group of the leftmost match, and [null]
    when the text has no match. *)
Theorem parseSessionId_leftmost text :
  match parseSessionId text with
  | Some id =>
      exists i, session_id_at text i id /\
                forall j id', j < i -> ~ session_id_at text j id'
  | None => forall i id, ~ session_id_at text i id
  end.
Proof.
  induction text as [|c text IH]; cbn [parseSessionId].
  - destruct (match_session_id []) as [id|] eqn:Hm.
    + exists 0. split; [by apply match_session_id_spec|intros; lia].
    + intros i id (key & ws & rest & Hd & Hkey & _).
      rewrite drop_nil in Hd. destruct key; [done|done].
  - destruct (match_session_id (c :: text)) as [id|] eqn:Hm.
    + exists 0. split; [by apply match_session_id_spec|intros; lia].
    + destruct (parseSessionId text) as [id|].
      * destruct IH as (i & Hi & Hleft). exists (S i). split; [done|].
        intros [|j] id' Hj.
        -- intros H0. apply match_session_id_spec in H0. congruence.
        -- rewrite session_id_at_S. apply Hleft. lia.
      * intros [|i] id.
        -- intros H0. apply match_session_id_spec in H0. congruence.
        -- rewrite session_id_at_S. apply IH.
Qed.

Lemma parseSessionId_found text : forall id,
  parseSessionId text = Some id -> exists i, session_id_at text i id.
Proof.
  induction text as [|c text IH]; intros id; cbn [parseSessionId];
    destruct (match_session_id _) as [id0|] eqn:Hm; try done.
  - intros [= ->]. exists 0. by apply match_session_id_spec.
  - intros (i & Hi)%IH. by exists (S i).
Qed.

(** A position has at most one match. *)
Lemma session_id_at_unique text i id id' :
  session_id_at text i id -> session_id_at text i id' -> id = id'.
Proof.
  intros H H'. change (session_id_at (drop i text) 0 id) in H.
  change (session_id_at (drop i text) 0 id') in H'.
  apply match_session_id_spec in H, H'. congruence.
Qed.

Lemma session_id_at_length text i id : session_id_at text i id -> i + 47 <= length text.
Proof.
  intros (key & ws & rest & Hd & Hkey & _ & Hlen & _).
  apply (f_equal length) in Hd, Hkey. unfold toLowerCase in Hkey.
  rewrite length_drop, !length_app in Hd. rewrite length_map in Hkey. cbn in Hkey. lia.
Qed.

(** A match stays a match when text is appended. *)
Lemma session_id_at_app text more i id :
  session_id_at text i id -> session_id_at (text ++ more) i id.
Proof.
  intros H. pose proof (session_id_at_length _ _ _ H) as Hlen.
  destruct H as (key & ws & rest & Hd & Hrest). exists key, ws, (rest ++ more).
  split; [|done]. rewrite drop_app_le by lia. rewrite Hd. by rewrite <- !app_assoc.
Qed.

Lemma key_units s k x :
  startsWith (toLowerCase (take 11 s)) SESSION_ID_KEY = true ->
  SESSION_ID_KEY !! k = Some x -> to_lower <$> s !! k = Some x.
Proof.
  intros [r Hr]%startsWith_prefix Hk.
  assert (k < 11) as Hlt by (apply lookup_lt_Some in Hk; done).
  rewrite <- (lookup_take_lt s 11 k) by done. rewrite <- list_lookup_fmap.
  change (fmap to_lower (take 11 s)) with (toLowerCase (take 11 s)).
  rewrite Hr. by apply lookup_app_l_Some.
Qed.

Lemma drop_while_head {A} (f : A -> bool) s c r : drop_while f s = c :: r -> f c = false.
Proof.
  induction s as [|a s IH]; cbn; [done|].
  destruct (f a) eqn:Ha; [done|]. by intros [= -> _].
Qed.

Definition space_or_uuid (c : N) : Prop := Tail.is_space c = true \/ is_uuid_unit c = true.

(** A group that is complete in [w ++ more] and not in [w]: all of [w] is
    white space and units of the group. *)
Lemma partial_group w more :
  length (take 36 (drop_while Tail.is_space (w ++ more))) = 36 ->
  Forall (fun c => is_uuid_unit c = true) (take 36 (drop_while Tail.is_space (w ++ more))) ->
  ~ (length (take 36 (drop_while Tail.is_space w)) = 36 /\
     Forall (fun c => is_uuid_unit c = true) (take 36 (drop_while Tail.is_space w))) ->
  Forall space_or_uuid w.
Proof.
  intros Hlen Hall Hnot.
  destruct (drop_while_split Tail.is_space w) as (ws & Hw & Hws).
  assert (Forall space_or_uuid ws) as Hws'.
  { eapply List.Forall_impl; [|exact Hws]. intros c Hc. by left. }
  destruct (drop_while Tail.is_space w) as [|c g] eqn:Hg.
  - rewrite Hw, app_nil_r. done.
  - pose proof (drop_while_head _ _ _ _ Hg) as Hc.
    rewrite Hw, <- app_assoc, drop_while_spaces in Hlen, Hall by done.
    cbn [app drop_while] in Hlen, Hall. rewrite Hc in Hlen, Hall.
    change (c :: g ++ more) with ((c :: g) ++ more) in Hlen, Hall.
    destruct (decide (36 <= length (c :: g))) as [Hlong|Hshort].
    + exfalso. apply Hnot. by rewrite take_app_le in Hlen, Hall by done.
    + rewrite Hw. apply Forall_app. split; [done|].
      assert (c :: g = take (length (c :: g)) (take 36 ((c :: g) ++ more))) as ->.
      { rewrite take_take, Nat.min_l by lia. by rewrite take_app_length. }
      apply Forall_take. eapply List.Forall_impl; [|exact Hall]. intros ? ?. by right.
Qed.

Lemma lower_s c : to_lower c = 115%N -> ~ space_or_uuid c.
Proof.
  unfold to_lower. intros H.
  assert (c = 115 \/ c = 83)%N as [-> | ->].
  { destruct (_ && _) eqn:E; [right|left]; lia. }
  all: by intros [?|?].
Qed.

(** A text that matches at its first unit only once more text is appended
    has no match further on. *)
Lemma no_later_match s more d id id' :
  match_session_id (s ++ more) = Some id' ->
  match_session_id s = None ->
  session_id_at s (S d) id -> False.
Proof.
  intros Hfull Hnone Hlater.
  pose proof (session_id_at_length _ _ _ Hlater) as Hlen.
  change (session_id_at (drop (S d) s) 0 id) in Hlater.
  apply match_session_id_spec in Hlater.
  unfold match_session_id in *.
  rewrite take_app_le in Hfull by lia. rewrite drop_app_le in Hfull by lia.
  destruct (startsWith (toLowerCase (take 11 s)) SESSION_ID_KEY) eqn:Hkey; [|done].
  destruct (startsWith (toLowerCase (take 11 (drop (S d) s))) SESSION_ID_KEY) eqn:Hkey';
    [|done].
  pose proof (key_units _ 0 _ Hkey' eq_refl) as H0.
  pose proof (key_units _ 1 _ Hkey' eq_refl) as H1.
  rewrite lookup_drop in H0, H1.
  destruct (decide (S d < 11)) as [Hin|Hout].
  - (* the later match starts inside the key *)
    assert (exists x, SESSION_ID_KEY !! (S d + 0) = Some x /\
              (x <> 115%N \/
               exists y, SESSION_ID_KEY !! (S d + 1) = Some y /\ y <> 101%N))
      as (x & Hx & Hxy).
    { clear -Hin. do 10 (destruct d as [|d];
        [vm_compute; eexists; split; [reflexivity|];
         first [left; lia|right; eexists; split; [reflexivity|lia]]|]). lia. }
    rewrite (key_units _ _ _ Hkey Hx) in H0. simplify_eq.
    destruct Hxy as [?|(y & Hy & ?)]; [done|].
    rewrite (key_units _ _ _ Hkey Hy) in H1. by simplify_eq.
  - (* the later match starts in the white space or in the group *)
    destruct (_ && _) eqn:Hg in Hfull; [|done].
    apply andb_prop in Hg as [Hglen Hgall].
    apply Nat.eqb_eq in Hglen. apply forallb_Forall in Hgall.
    assert (Forall space_or_uuid (drop 11 s)) as Hw.
    { apply (partial_group _ more); [done|done|]. intros [Hl Ha].
      apply Nat.eqb_eq in Hl. apply forallb_Forall in Ha.
      by rewrite Hl, Ha in Hnone. }
    destruct (s !! (S d + 0)) as [c|] eqn:Hc; [|done].
    cbn in H0. injection H0 as H0. apply (lower_s c H0).
    rewrite Forall_forall in Hw. apply Hw.
    apply list_elem_of_lookup. exists (S d + 0 - 11). rewrite lookup_drop.
    rewrite <- Hc. f_equal. lia.
Qed.

(** The id found in a text is the id found in any extension of the text. *)
Lemma parseSessionId_app text more id :
  parseSessionId text = Some id -> parseSessionId (text ++ more) = Some id.
Proof.
  revert id. induction text as [|c text IH]; intros id; cbn [parseSessionId].
  - destruct (match_session_id []) eqn:Hm; [|done]. intros [= ->].
    apply match_session_id_spec, session_id_at_length in Hm. cbn in Hm. lia.
  - destruct (match_session_id (c :: text)) as [id0|] eqn:Hm.
    + intros [= ->]. apply match_session_id_spec in Hm.
      apply (session_id_at_app _ more) in Hm. apply match_session_id_spec in Hm.
      cbn [app parseSessionId]. cbn [app] in Hm. by rewrite Hm.
    + intros Hp. cbn [app parseSessionId].
      destruct (match_session_id (c :: text ++ more)) as [id'|] eqn:Hm'; [|by apply IH].
      exfalso. destruct (parseSessionId_found text id Hp) as (i & Hi).
      apply (no_later_match (c :: text) more i id id'); done.
Qed.

Lemma scan_found_stable resume chunks : forall st id,
  sessionIdFound st = Some id ->
  fold_left (on_stderr_data resume) chunks st = st.
Proof.
  induction chunks as [|data chunks IH]; intros st id Hst; cbn; [done|].
  assert (on_stderr_data resume st data = st) as ->.
  { unfold on_stderr_data. rewrite Hst. by destruct resume. }
  by eapply IH.
Qed.

Lemma scan_stderr_from chunks : forall buffer,
  parseSessionId buffer = None ->
  sessionIdFound
    (fold_left (on_stderr_data []) chunks {| stderrBuffer := buffer; sessionIdFound := None |})
  = parseSessionId (buffer ++ concat chunks).
Proof.
  induction chunks as [|data chunks IH]; intros buffer Hb.
  - cbn. by rewrite app_nil_r.
  - cbn [fold_left concat].
    assert (on_stderr_data [] {| stderrBuffer := buffer; sessionIdFound := None |} data
            = {| stderrBuffer := buffer ++ data;
                 sessionIdFound := parseSessionId (buffer ++ data) |}) as -> by done.
    destruct (parseSessionId (buffer ++ data)) as [id|] eqn:Hp.
    + erewrite scan_found_stable by done. cbn [sessionIdFound].
      rewrite app_assoc. symmetry. by apply parseSessionId_app.
    + rewrite IH by done. by rewrite app_assoc.
Qed.

(** X5.  The stderr of the subprocess arrives in chunks and the handler parses
    the text accumulated so far at each of them: the id it finds is the id
    of the whole text, wherever the chunks are cut; a resumed turn looks for
    none. *)
Theorem stderr_chunks_irrelevant resume chunks :
  sessionIdFound (scan_stderr resume chunks)
  = match resume with
    | [] => parseSessionId (concat chunks)
    | _ => None
    end.
Proof.
  unfold scan_stderr. destruct resume as [|c resume].
  - rewrite scan_stderr_from by done. done.
  - assert (forall st, fold_left (on_stderr_data (c :: resume)) chunks st = st) as ->; [|done].
    induction chunks as [|data chunks IH]; intros st; cbn; [done|]. apply IH.
Qed.

(** *** The uuid in the name of a session file *)

Lemma matches_length pat : forall s, matches pat s = true -> length s = length pat.
Proof.
  induction pat as [|k pat IH]; intros [|c s]; cbn; try done.
  intros [_ H]%andb_prop. by rewrite (IH s H).
Qed.

Lemma matches_app pat1 pat2 : forall s,
  matches (pat1 ++ pat2) s = true <->
  exists s1 s2, s = s1 ++ s2 /\ matches pat1 s1 = true /\ matches pat2 s2 = true.
Proof.
  induction pat1 as [|k pat1 IH]; intros s; cbn.
  - split.
    + intros H. by exists [], s.
    + intros (s1 & s2 & -> & H1 & H2). by destruct s1.
  - destruct s as [|c s].
    + split; [done|]. intros (s1 & s2 & Hs & H1 & H2). by destruct s1.
    + rewrite andb_true_iff, IH. split.
      * intros (Hc & s1 & s2 & -> & H1 & H2). exists (c :: s1), s2. cbn. by rewrite Hc, H1.
      * intros (s1 & s2 & Hs & H1 & H2). destruct s1 as [|c1 s1]; [done|].
        cbn in Hs, H1. apply andb_prop in H1 as [Hc H1]. simplify_eq.
        split; [done|]. by exists s1, s2.
Qed.

Lemma matches_units l : forall s, matches (map Unit l) s = true <-> s = l.
Proof.
  induction l as [|a l IH]; intros [|c s]; cbn; try done.
  rewrite andb_true_iff, N.eqb_eq, IH. split; [by intros [-> ->]|by intros [= -> ->]].
Qed.

Lemma matches_uuid n : forall s,
  matches (repeat UuidUnit n) s = true <->
  length s = n /\ Forall (fun c => is_uuid_unit c = true) s.
Proof.
  induction n as [|n IH]; intros [|c s]; cbn; try done.
  - split; [done|]. by intros [? _].
  - split; [done|]. by intros [? _].
  - rewrite andb_true_iff, IH. split.
    + intros (Hc & <- & Hs). split; [done|by constructor].
    + intros ([= <-] & Hall). by inversion Hall.
Qed.

(** X6.  [extractUuidFromJsonlPath] returns [u] exactly when the base name of the
    path ends in a rollout stamp, the 36 units [u] of the class of the group,
    and ".jsonl"; it returns [null] for any other path. *)
Theorem extractUuidFromJsonlPath_spec p u :
  extractUuidFromJsonlPath p = Some u <->
  exists pre stamp,
    basename p = pre ++ stamp ++ u ++ lit ".jsonl" /\
    matches ROLLOUT_STAMP stamp = true /\
    length u = 36 /\ Forall (fun c => is_uuid_unit c = true) u.
Proof.
  unfold extractUuidFromJsonlPath. cbv zeta. set (name := basename p).
  change (length ROLLOUT_FILE) with 70. change (length ROLLOUT_STAMP) with 28.
  split.
  - destruct (Nat.ltb_spec (length name) 70) as [|Hlen]; [done|].
    destruct (matches ROLLOUT_FILE (drop (length name - 70) name)) eqn:Hm; [|done].
    intros [= <-]. unfold ROLLOUT_FILE in Hm.
    apply matches_app in Hm as (stamp & s2 & Hs & Hstamp & Hm).
    apply matches_app in Hm as (uuid & ext & -> & Huuid & Hext).
    apply matches_units in Hext as ->. apply matches_uuid in Huuid as [Hlen' Hall].
    pose proof (matches_length _ _ Hstamp) as Hl. change (length ROLLOUT_STAMP) with 28 in Hl.
    exists (take (length name - 70) name), stamp.
    rewrite Hs, drop_app_length' by done. rewrite take_app_length' by done.
    rewrite <- Hs, take_drop. done.
  - intros (pre & stamp & Hname & Hstamp & Hlen & Hall).
    pose proof (matches_length _ _ Hstamp) as Hl. change (length ROLLOUT_STAMP) with 28 in Hl.
    assert (length name = length pre + 70) as Hn.
    { rewrite Hname, !length_app, Hl, Hlen. done. }
    destruct (Nat.ltb_spec (length name) 70) as [|_]; [lia|].
    replace (length name - 70) with (length pre) by lia.
    rewrite Hname, drop_app_length.
    assert (matches ROLLOUT_FILE (stamp ++ u ++ lit ".jsonl") = true) as ->.
    { unfold ROLLOUT_FILE. apply matches_app. exists stamp, (u ++ lit ".jsonl").
      split; [done|split; [done|]]. apply matches_app. exists u, (lit ".jsonl").
      split; [done|split; [by apply matches_uuid|by apply matches_units]]. }
    rewrite drop_app_length' by done. by rewrite take_app_length' by done.
Qed.

(** The name of a file is the base name of its path in a directory. *)
Lemma basename_join dir name :
  name <> [] -> Forall (fun c => is_slash c = false) name ->
  basename (dir ++ [SLASH] ++ name) = name.
Proof.
  intros Hne Hname. unfold basename. rewrite !rev_app_distr, <- app_assoc. cbn [rev app].
  assert (forall r, drop_while is_slash (rev name ++ r) = rev name ++ r) as ->.
  { intros r. pose proof (Forall_rev Hname) as Hr'.
    destruct (rev name) as [|c n] eqn:Hr.
    - apply (f_equal (@rev N)) in Hr. rewrite rev_involutive in Hr. done.
    - cbn. inversion Hr' as [|? ? Hc _]; subst. by rewrite Hc. }
  assert (forall n r, Forall (fun c => is_slash c = false) n ->
            take_while (fun c => negb (is_slash c)) (n ++ SLASH :: r) = n) as ->.
  { intros n r. induction 1 as [|c n Hc _ IH]; cbn; [done|]. by rewrite Hc, IH. }
  - apply rev_involutive.
  - by apply Forall_rev.
Qed.

End SessionFilesFacts.

Module FindSessionFacts.
Import Js SessionFiles FindSession.

(** The matches below a path: the files of the tree that pass the tests,
    each with its modification time or 0. *)
Fixpoint found_at (lowerId name fullPath : list N) (n : Node) : list Match :=
  match n with
  | File mtime =>
      if is_session_file lowerId name fullPath
      then [{| filePath := fullPath; mtimeMs := default 0%N mtime |}]
      else []
  | Directory entries =>
      (fix go (es : list (list N * Node)) : list Match :=
         match es with
         | [] => []
         | (name', child) :: es' =>
             found_at lowerId name' (join fullPath name') child ++ go es'
         end) entries
  | _ => []
  end.

(** A directory below the path cannot be read, for another reason than its
    absence. *)
Fixpoint broken (n : Node) : bool :=
  match n with
  | Broken _ => true
  | Directory entries =>
      (fix go (es : list (list N * Node)) : bool :=
         match es with
         | [] => false
         | (_, child) :: es' => broken child || go es'
         end) entries
  | _ => false
  end.

Definition found_entries (lowerId dir : list N) (es : list (list N * Node)) : list Match :=
  flat_map (fun e => found_at lowerId (fst e) (join dir (fst e)) (snd e)) es.

Definition broken_entries (es : list (list N * Node)) : bool :=
  existsb (fun e => broken (snd e)) es.

Definition turns_entries (es : list (list N * Node)) : nat :=
  list_sum (map (fun e => if isDirectory (snd e) then turns (snd e) else 0) es).

Lemma found_at_Directory lowerId name dir es :
  found_at lowerId name dir (Directory es) = found_entries lowerId dir es.
Proof.
  cbn [found_at]. unfold found_entries.
  induction es as [|[name' child] es IH]; cbn [flat_map fst snd]; [done|]. by rewrite IH.
Qed.

Lemma broken_Directory es : broken (Directory es) = broken_entries es.
Proof.
  cbn [broken]. unfold broken_entries.
  induction es as [|[name' child] es IH]; cbn [existsb fst snd]; [done|]. by rewrite IH.
Qed.

Lemma turns_Directory es : turns (Directory es) = S (turns_entries es).
Proof.
  cbn [turns]. unfold turns_entries. f_equal.
  induction es as [|[name' child] es IH]; unfold list_sum in *; cbn [map fold_right fst snd]; [done|]. by rewrite IH.
Qed.

(** The same for the directories on the stack. *)
Definition stack_found (lowerId : list N) (st : Stack) : list Match :=
  flat_map (fun e => found_at lowerId [] (fst e) (snd e)) st.

Definition stack_bad (st : Stack) : bool :=
  existsb (fun e => negb (isDirectory (snd e)) || broken (snd e)) st.

Definition stack_turns (st : Stack) : nat := list_sum (map (fun e => turns (snd e)) st).

Lemma found_at_directory lowerId name name' p n :
  isDirectory n = true -> found_at lowerId name p n = found_at lowerId name' p n.
Proof. by destruct n. Qed.

Lemma stack_turns_cons p n st : stack_turns ((p, n) :: st) = turns n + stack_turns st.
Proof. done. Qed.

Lemma stack_bad_cons p n st :
  stack_bad ((p, n) :: st) = negb (isDirectory n) || broken n || stack_bad st.
Proof. done. Qed.

Lemma stack_found_cons lowerId p n st :
  stack_found lowerId ((p, n) :: st) = found_at lowerId [] p n ++ stack_found lowerId st.
Proof. done. Qed.

Lemma turns_entries_cons name child es :
  turns_entries ((name, child) :: es)
  = (if isDirectory child then turns child else 0) + turns_entries es.
Proof. done. Qed.

Lemma broken_entries_cons name child es :
  broken_entries ((name, child) :: es) = broken child || broken_entries es.
Proof. done. Qed.

Lemma found_entries_cons lowerId dir name child es :
  found_entries lowerId dir ((name, child) :: es)
  = found_at lowerId name (join dir name) child ++ found_entries lowerId dir es.
Proof. done. Qed.

Lemma visit_fold lowerId dir es : forall st ms st' ms',
  fold_left (visit lowerId dir) es (st, ms) = (st', ms') ->
  stack_turns st' = turns_entries es + stack_turns st /\
  stack_bad st' = broken_entries es || stack_bad st /\
  (forall x, x ∈ ms' \/ x ∈ stack_found lowerId st' <->
             x ∈ ms \/ x ∈ stack_found lowerId st \/ x ∈ found_entries lowerId dir es).
Proof.
  induction es as [|[name child] es IH]; intros st ms st' ms' H; cbn [fold_left] in H.
  - simplify_eq. split; [done|]. split; [done|]. intros x. cbn.
    rewrite elem_of_nil. tauto.
  - unfold visit at 2 in H. cbv zeta in H.
    rewrite turns_entries_cons, broken_entries_cons, found_entries_cons.
    destruct (isDirectory child) eqn:Hd.
    + apply IH in H as (Ht & Hb & Hf). rewrite Ht, Hb.
      rewrite stack_turns_cons, stack_bad_cons, Hd. cbn [negb orb].
      split; [lia|]. split.
      { by rewrite orb_assoc, (orb_comm _ (broken child)). }
      intros x. rewrite Hf, stack_found_cons, !elem_of_app.
      rewrite (found_at_directory lowerId [] name _ child Hd). tauto.
    + assert (broken child = false) as -> by (by destruct child).
      destruct child as [mtime| | | |]; try done.
      * destruct (is_session_file lowerId name (join dir name)) eqn:Hs.
        -- apply IH in H as (Ht & Hb & Hf). split; [done|]. split; [done|].
           intros x. rewrite Hf. cbn [found_at]. rewrite Hs.
           rewrite !elem_of_app. tauto.
        -- apply IH in H as (Ht & Hb & Hf). split; [done|]. split; [done|].
           intros x. rewrite Hf. cbn [found_at]. rewrite Hs.
           rewrite !elem_of_app, elem_of_nil. tauto.
      * apply IH in H as (Ht & Hb & Hf). split; [done|]. split; [done|].
        intros x. rewrite Hf. cbn [found_at]. rewrite !elem_of_app, elem_of_nil. tauto.
Qed.

(** The loop ends within the turns of the directories on the stack; it
    throws exactly when one of them cannot be read, and else it adds the
    matches below them. *)
Lemma walk_spec lowerId fuel : forall st ms,
  stack_turns st < fuel ->
  match walk fuel lowerId st ms with
  | None => False
  | Some (Threw _) => stack_bad st = true
  | Some (Returned ms') =>
      stack_bad st = false /\
      forall x, x ∈ ms' <-> x ∈ ms \/ x ∈ stack_found lowerId st
  end.
Proof.
  induction fuel as [|fuel IH]; intros st ms Hfuel; [lia|]. cbn [walk].
  destruct st as [|[dir node] st].
  - split; [done|]. intros x. cbn. rewrite elem_of_nil. tauto.
  - rewrite stack_turns_cons in Hfuel. rewrite stack_bad_cons, stack_found_cons.
    destruct node as [mtime| |es| |err]; try done.
    + destruct (fold_left _ es _) as [st' ms'] eqn:Hfold.
      apply visit_fold in Hfold as (Ht & Hb & Hf).
      rewrite turns_Directory in Hfuel.
      specialize (IH st' ms' ltac:(lia)).
      destruct (walk fuel lowerId st' ms') as [[ms''|e]|]; [| |done].
      * destruct IH as [Hbad Hms]. rewrite Hb in Hbad.
        cbn [isDirectory negb orb]. rewrite broken_Directory. split; [done|].
        intros x. rewrite Hms, found_at_Directory, elem_of_app.
        specialize (Hf x). tauto.
      * rewrite Hb in IH. cbn [isDirectory negb orb]. by rewrite broken_Directory.
    + cbn in Hfuel. specialize (IH st ms ltac:(lia)).
      destruct (walk fuel lowerId st ms) as [[ms'|e]|]; [| |done]; cbn; [|done].
      destruct IH as [Hbad Hms]. split; [done|]. intros x. rewrite Hms. tauto.
Qed.

Lemma insert_desc_elem m x : forall l, x ∈ insert_desc m l <-> x = m \/ x ∈ l.
Proof.
  induction l as [|y l IH]; cbn.
  - rewrite elem_of_cons, elem_of_nil. tauto.
  - destruct (_ <=? _)%N; rewrite !elem_of_cons; [tauto|]. rewrite IH. tauto.
Qed.

Lemma sort_desc_elem x : forall l, x ∈ sort_desc l <-> x ∈ l.
Proof.
  induction l as [|y l IH]; cbn; [done|].
  rewrite insert_desc_elem, elem_of_cons, IH. tauto.
Qed.

(** The head of a list in which every element is followed by elements that
    are not newer. *)
Definition newest_first (l : list Match) : Prop :=
  match l with
  | [] => True
  | m :: rest => forall x, x ∈ rest -> (mtimeMs x <= mtimeMs m)%N
  end.

Lemma insert_desc_newest m l : newest_first l -> newest_first (insert_desc m l).
Proof.
  destruct l as [|y l]; cbn; [by intros _ x Hx%elem_of_nil|].
  intros Hy. destruct (N.leb_spec (mtimeMs y) (mtimeMs m)) as [Hle|Hlt]; cbn.
  - intros x [->|Hx]%elem_of_cons; [done|]. specialize (Hy x Hx). lia.
  - intros x [->|Hx]%insert_desc_elem; [lia|by apply Hy].
Qed.

Lemma sort_desc_newest l : newest_first (sort_desc l).
Proof. induction l as [|y l IH]; cbn; [done|]. by apply insert_desc_newest. Qed.

(** X7.  The search returns for every tree. It throws exactly when the root or a
    directory it reaches cannot be read for another reason than its absence;
    otherwise it returns [null] exactly when no file passes the tests, and
    else the path of a match that no other match was modified after. *)
Theorem findCodexSessionFileById_spec root sessions sessionId :
  match findCodexSessionFileById root sessions sessionId with
  | None => False
  | Some (Threw _) => isDirectory sessions = false \/ broken sessions = true
  | Some (Returned r) =>
      isDirectory sessions = true /\ broken sessions = false /\
      let found := found_at (toLowerCase sessionId) [] root sessions in
      match r with
      | None => found = []
      | Some p =>
          exists m, {| filePath := p; mtimeMs := m |} ∈ found /\
                    forall x, x ∈ found -> (mtimeMs x <= m)%N
      end
  end.
Proof.
  unfold findCodexSessionFileById.
  pose proof (walk_spec (toLowerCase sessionId) (S (turns sessions)) [(root, sessions)] []) as H.
  rewrite stack_turns_cons, stack_bad_cons, stack_found_cons in H.
  change (stack_turns []) with 0 in H. change (stack_bad []) with false in H.
  change (stack_found (toLowerCase sessionId) []) with (@nil Match) in H.
  specialize (H ltac:(lia)). rewrite app_nil_r, !orb_false_r in H.
  destruct (walk _ _ _ _) as [[ms|e]|]; [| |done].
  - destruct H as [Hbad Hms]. apply orb_false_elim in Hbad as [Hd Hb].
    apply negb_false_iff in Hd.
    assert (forall x, x ∈ sort_desc ms <-> x ∈ found_at (toLowerCase sessionId) [] root sessions)
      as Hsort.
    { intros x. rewrite sort_desc_elem, Hms, elem_of_nil. tauto. }
    pose proof (sort_desc_newest ms) as Hnew.
    destruct (sort_desc ms) as [|m rest]; cbv zeta.
    + repeat (split; [done|]).
      destruct (found_at _ _ _ _) as [|x l]; [done|].
      specialize (Hsort x). rewrite elem_of_nil, elem_of_cons in Hsort. tauto.
    + repeat (split; [done|]). exists (mtimeMs m). split.
      * apply Hsort. destruct m. by left.
      * intros x [->|Hx]%Hsort%elem_of_cons; [lia|by apply Hnew].
  - by apply orb_prop in H as [?%negb_true_iff|?]; [left|right].
Qed.

Lemma found_at_none lowerId :
  (forall name p, is_session_file lowerId name p = false) ->
  forall n name p, found_at lowerId name p n = [].
Proof.
  intros Hno. fix IH 1. intros n name p. destruct n as [mtime| |es| |err].
  - cbn. rewrite Hno. reflexivity.
  - reflexivity.
  - rewrite found_at_Directory. induction es as [|[name' child] es IHes]; [reflexivity|].
    rewrite found_entries_cons, IH, IHes. reflexivity.
  - reflexivity.
  - reflexivity.
Qed.

(** X8.  An id that is not 36 units long, such as the empty id of a session that
    has had no turn yet, names no file: the search returns [null] after it
    has read every directory, or throws. *)
Theorem findCodexSessionFileById_short_id root sessions sessionId :
  length sessionId <> 36 ->
  findCodexSessionFileById root sessions sessionId = Some (Returned None) \/
  exists err, findCodexSessionFileById root sessions sessionId = Some (Threw err).
Proof.
  intros Hlen.
  assert (forall n name p, found_at (toLowerCase sessionId) name p n = []) as Hnone.
  { apply found_at_none. intros name p. unfold is_session_file.
    destruct (extractUuidFromJsonlPath p) as [u|] eqn:Hu; [|by rewrite andb_false_r].
    assert (length u = 36) as Hu'.
    { unfold extractUuidFromJsonlPath in Hu. repeat case_match; simplify_eq.
      match goal with H : matches _ _ = true |- _ => apply SessionFilesFacts.matches_length in H as Hl end.
      rewrite length_take, length_drop, Hl. by vm_compute. }
    rewrite bool_decide_eq_false_2; [by rewrite andb_false_r|].
    intros Heq. apply (f_equal length) in Heq. unfold toLowerCase in Heq.
    rewrite !length_map in Heq. lia. }
  unfold findCodexSessionFileById.
  pose proof (walk_spec (toLowerCase sessionId) (S (turns sessions)) [(root, sessions)] []) as H.
  rewrite stack_turns_cons in H. change (stack_turns []) with 0 in H.
  specialize (H ltac:(lia)).
  destruct (walk _ _ _ _) as [[ms|e]|]; [|right; by exists e|done].
  destruct H as [_ Hms]. left.
  destruct ms as [|x ms]; [done|]. exfalso.
  specialize (Hms x). rewrite stack_found_cons, Hnone in Hms.
  assert (x ∈ x :: ms) as Hx by by left. apply Hms in Hx as [Hx|Hx]; by apply elem_of_nil in Hx.
Qed.

(** A session that has had no turn yet, under a sessions directory that
    holds the file of another session. *)
Definition other_session : list N :=
  lit "rollout-2025-10-15T12-00-01-0199ea78-389d-7dc0-a2b9-a41cf7c8b782.jsonl".

Definition one_session : Node :=
  Directory [(lit "2025", Directory [(other_session, File (Some 5%N))])].

Lemma findCodexSessionFileById_short_id_witness :
  findCodexSessionFileById (lit "/home/appuser/.codex/sessions") one_session []
  = Some (Returned None) \/
  exists err,
    findCodexSessionFileById (lit "/home/appuser/.codex/sessions") one_session []
    = Some (Threw err).
Proof.
  apply (findCodexSessionFileById_short_id (lit "/home/appuser/.codex/sessions")
           one_session []).
  cbn. lia.
Defined.

End FindSessionFacts.

Module AuthFacts.
Import Js Auth.

Lemma replace_first_prefix pattern replacement s :
  startsWith s pattern = true ->
  replace_first pattern replacement s = replacement ++ drop (length pattern) s.
Proof. intros H. destruct s; cbn; by rewrite H. Qed.

(** X12.  The middleware calls [next()] exactly when the server has a key that is
    not empty and the header is "Bearer " followed by that very key (whose
    first unit is not a line terminator); every other request is answered,
    with 500 when the server has no key, whatever the header, and with 401
    otherwise. *)
Theorem validateApiKey_decision expected authorization :
  (forall token,
     validateApiKey expected authorization = Next token <->
     exists c key,
       expected = Some (c :: key) /\ token = c :: key /\
       authorization = Some (BEARER ++ token) /\ is_line_terminator c = false) /\
  (forall status error,
     validateApiKey expected authorization = Respond status error ->
     status = match expected with
              | None | Some [] => 500
              | Some _ => 401
              end).
Proof.
  unfold validateApiKey, getValidatedApiKey. split.
  - intros token. split.
    + destruct expected as [[|c key]|]; try done.
      destruct (header_ok authorization) eqn:Hok; [|done]. cbn [negb].
      destruct authorization as [a|]; [|done]. cbn [header_ok] in Hok.
      apply andb_prop in Hok as [Hpre Hrest].
      cbn [extractApiKey]. rewrite Hpre, (replace_first_prefix _ _ _ Hpre). cbn [app].
      apply SessionFilesFacts.startsWith_prefix in Hpre as [r ->].
      rewrite drop_app_length in Hrest |- *.
      destruct r as [|c' r]; [done|]. apply negb_true_iff in Hrest.
      case_bool_decide as Heq; [|done]. intros [= <-]. simplify_eq. by exists c, key.
    + intros (c & key & -> & -> & -> & Hc).
      assert (startsWith (BEARER ++ c :: key) BEARER = true) as Hpre.
      { apply SessionFilesFacts.startsWith_prefix. by eexists. }
      cbn [header_ok extractApiKey]. rewrite Hpre, (replace_first_prefix _ _ _ Hpre).
      rewrite drop_app_length, Hc. cbn [negb andb app].
      by rewrite bool_decide_eq_true_2.
  - intros status error.
    destruct expected as [[|c key]|]; cbn; try by intros [= <- _].
    destruct (header_ok authorization); cbn; [|by intros [= <- _]].
    destruct (extractApiKey authorization); [by intros [= <- _]|].
    case_bool_decide; [done|by intros [= <- _]].
Qed.

End AuthFacts.

Module EnvRouteFacts.
Import Js EnvRoute.

Lemma results_lookup (f : list N -> bool) names : forall (m : gmap (list N) bool) name,
  fold_left (fun results n => <[n := f n]> results) names m !! name
  = if bool_decide (name ∈ names) then Some (f name) else m !! name.
Proof.
  induction names as [|n names IH]; intros m name; cbn [fold_left].
  - rewrite bool_decide_eq_false_2; [done|]. apply not_elem_of_nil.
  - rewrite IH. destruct (decide (name ∈ names)) as [Hin|Hin].
    + rewrite !bool_decide_eq_true_2; [done| |done]. by right.
    + rewrite (bool_decide_eq_false_2 _ Hin). destruct (decide (name = n)) as [->|Hne].
      * rewrite lookup_insert_eq, bool_decide_eq_true_2; [done|by left].
      * rewrite lookup_insert_ne by done. rewrite bool_decide_eq_false_2; [done|].
        by intros [?|?]%elem_of_cons.
Qed.

(** X13.  The route answers with the map from each name asked for to whether the
    variable is set to a string that is not empty, and with nothing else,
    exactly when [env_name] has 1 to 1024 units and splits at commas into
    trimmed names of which at least one is not empty and all the ones that
    are not empty match [A-Z0-9_]+; any other request gets status 400, and
    the token it reports is one that does not match. *)
Theorem get_env_spec env env_name :
  match get_env env env_name with
  | Json results =>
      1 <= length env_name <= 1024 /\ tokens env_name <> [] /\
      Forall (fun t => is_env_name t = true) (tokens env_name) /\
      forall name,
        results !! name
        = if bool_decide (name ∈ tokens env_name) then Some (exists_ env name) else None
  | BadRequest _ invalid =>
      (length env_name < 1 \/ 1024 < length env_name \/ tokens env_name = [] \/
       exists t, t ∈ tokens env_name /\ is_env_name t = false) /\
      forall t, invalid = Some t -> t ∈ tokens env_name /\ is_env_name t = false
  end.
Proof.
  unfold get_env.
  destruct (Nat.ltb_spec (length env_name) 1) as [|Hmin]; cbn [orb]; [split; [lia|done]|].
  destruct (Nat.ltb_spec 1024 (length env_name)) as [|Hmax]; [split; [lia|done]|].
  destruct (tokens env_name) as [|t0 ts] eqn:Htok; [split; [tauto|done]|].
  rewrite <- Htok.
  destruct (List.find _ (tokens env_name)) as [invalid|] eqn:Hfind.
  - apply List.find_some in Hfind as [Hin Hbad]. apply negb_true_iff in Hbad.
    apply list_elem_of_In in Hin. split.
    + do 3 right. by exists invalid.
    + by intros t [= <-].
  - split; [lia|]. split; [by rewrite Htok|]. split.
    + apply Forall_forall. intros t Hin. apply list_elem_of_In in Hin.
      apply (List.find_none _ _ Hfind) in Hin. by apply negb_false_iff in Hin.
    + intros name. rewrite results_lookup. by rewrite lookup_empty.
Qed.

End EnvRouteFacts.

Module WorktreeFacts.
Import Js Worktree.

(** The names the loop tries, in order. *)
Definition candidates (base : list N) : list (list N) :=
  base :: map (numbered base) (seq 1 9).

(** X14.  The branch chosen is the first of [session/<id>], [session/<id>-1], ...,
    [session/<id>-9] that does not exist; when all ten exist it is
    [session/<id>-10], which the loop never looks up. So the branch chosen
    does not exist yet unless those ten do. *)
Theorem choose_branch_fresh branch_exists sessionId :
  choose_branch branch_exists sessionId
  = default (numbered (branchBase sessionId) 10)
      (List.find (fun b => negb (branch_exists b)) (candidates (branchBase sessionId)))
  /\ (branch_exists (choose_branch branch_exists sessionId) = true ->
      Forall (fun b => branch_exists b = true) (candidates (branchBase sessionId)) /\
      choose_branch branch_exists sessionId = numbered (branchBase sessionId) 10).
Proof.
  unfold choose_branch. set (base := branchBase sessionId).
  assert (choose 11 branch_exists base 0 base
          = default (numbered base 10)
              (List.find (fun b => negb (branch_exists b)) (candidates base))) as Heq.
  { unfold candidates. cbn [choose Nat.ltb Nat.leb seq map List.find].
    repeat (match goal with |- context [branch_exists ?b] =>
              destruct (branch_exists b) eqn:?; cbn [negb]; [|done] end).
    done. }
  split; [done|]. rewrite Heq.
  destruct (List.find _ (candidates base)) as [b|] eqn:Hfind; unfold default; cbn [from_option id].
  - apply List.find_some in Hfind as [_ Hb]. apply negb_true_iff in Hb.
    intros Hb'. congruence.
  - intros _. split; [|done]. apply Forall_forall. intros b Hb.
    apply list_elem_of_In in Hb. apply (List.find_none _ _ Hfind) in Hb.
    by apply negb_false_iff in Hb.
Qed.

End WorktreeFacts.

Module MessagesFacts.
Import Js Messages Tail.

(** *** Replaying a session file and tailing it *)

Definition last_line (pending : list N) : list (list N) :=
  match trim pending with
  | [] => []
  | line => [line]
  end.

Lemma split_no_sep sep s :
  Forall (fun c => (c =? sep)%N = false) s -> split sep s = [s].
Proof.
  induction 1 as [|c s Hc _ IH]; cbn; [done|]. by rewrite Hc, IH.
Qed.

Lemma split_at_sep sep cur s :
  Forall (fun c => (c =? sep)%N = false) cur ->
  split sep (cur ++ sep :: s) = cur :: split sep s.
Proof.
  induction 1 as [|c cur Hc _ IH]; cbn.
  - by rewrite N.eqb_refl.
  - by rewrite Hc, IH.
Qed.

Lemma jsonl_lines_scan s : forall cur,
  TailFacts.no_newline cur ->
  jsonl_lines (cur ++ s)
  = (let (lines, pending) := TailFacts.scan cur s in lines ++ last_line pending).
Proof.
  unfold jsonl_lines. induction s as [|c s IH]; intros cur Hcur.
  - cbn [TailFacts.scan]. rewrite app_nil_r, (split_no_sep _ _ Hcur). cbn.
    unfold last_line. by destruct (trim cur).
  - cbn [TailFacts.scan]. destruct (c =? NL)%N eqn:Hc.
    + apply N.eqb_eq in Hc as ->. rewrite (split_at_sep _ _ _ Hcur).
      specialize (IH [] ltac:(constructor)). cbn [app] in IH.
      cbn [map List.filter]. rewrite IH.
      destruct (TailFacts.scan [] s) as [lines pending].
      unfold TailFacts.emit. by destruct (trim cur).
    + replace (cur ++ c :: s) with ((cur ++ [c]) ++ s) by by rewrite <- app_assoc.
      apply IH. apply Forall_app. split; [done|]. by constructor.
Qed.

(** On one text, the line discipline of [getMessages] and the line loop of
    the tailer agree: the same lines in the same order, and then the rest
    after the last newline, which the tailer keeps pending. *)
Lemma jsonl_lines_take_lines (text : list N) :
  jsonl_lines text = fst (take_lines text) ++ last_line (snd (take_lines text)).
Proof.
  rewrite TailFacts.take_lines_scan.
  pose proof (jsonl_lines_scan text [] ltac:(constructor)) as H.
  cbn [app] in H. rewrite H. by destruct (TailFacts.scan [] text).
Qed.

Lemma plain_appended es :
  Forall TailFacts.plain_event es -> TailFacts.plain (TailFacts.appended es).
Proof.
  unfold TailFacts.appended. induction 1 as [|e es He _ IH]; cbn; [constructor|].
  apply Forall_app. split; [|exact IH]. destruct e; try constructor. exact He.
Qed.

(** X19.  A session file of one-byte characters is tailed from its start, the
    first open having settled before the watcher reports anything, and is
    only appended to. Once every append has been notified and no read is in
    flight, the lines [getMessages] hands to [JSON.parse] when it reads the
    file are the lines the tailer has yielded or queued, in the same order,
    followed by the text the tailer keeps pending, trimmed, when the file
    does not end in a newline and that text is not blank. *)
Theorem replay_matches_tail d ino c0 es d' t' :
  bound d = Some ino -> inodes d !! ino = Some c0 ->
  TailFacts.plain c0 ->
  forallb TailFacts.append_only es = true -> Forall TailFacts.plain_event es ->
  run (FirstOpen :: es) (d, start false) = Some (d', t') ->
  fold_left TailFacts.unnotified es false = false -> reader t' = None ->
  exists content,
    inodes d' !! ino = Some content /\
    jsonl_lines (utf8_decode content)
    = (yielded t' ++ queue t') ++ last_line (pending t').
Proof.
  intros Hb Hc Hpl Hes Hev Hrun Hu Hr.
  destruct (TailFacts.tail_reads_all false d ino c0 es d' t' Hb Hc Hpl Hes Hev Hrun Hu Hr)
    as (Hcontent & Hlines & Hpending & _).
  cbn [TailFacts.first_offset drop] in Hlines, Hpending.
  exists (c0 ++ TailFacts.appended es). split; [done|].
  rewrite Hlines. unfold full_read, lines_of. rewrite jsonl_lines_take_lines.
  f_equal. f_equal.
  assert (TailFacts.plain (c0 ++ TailFacts.appended es)) as Hall.
  { apply Forall_app. split; [done|]. by apply plain_appended. }
  by rewrite Hpending, (TailFacts.utf8_decode_plain _ Hall).
Qed.

Lemma replay_matches_tail_witness :
  exists content,
    inodes (fst TailFacts.after_burst) !! 0 = Some content /\
    jsonl_lines (utf8_decode content)
    = (yielded (snd TailFacts.after_burst) ++ queue (snd TailFacts.after_burst))
      ++ last_line (pending (snd TailFacts.after_burst)).
Proof.
  apply (replay_matches_tail TailFacts.empty_file 0 [] TailFacts.burst
           (fst TailFacts.after_burst) (snd TailFacts.after_burst)).
  - reflexivity.
  - reflexivity.
  - constructor.
  - reflexivity.
  - repeat constructor; by vm_compute.
  - by vm_compute.
  - reflexivity.
  - reflexivity.
Defined.

End MessagesFacts.

Module UploadFacts.
Import Js Upload Tail.

(** *** Uploaded file names stay below the target directory *)

(** A segment that names something below the directory that holds it. *)
Definition safe_segment (segment : list N) : Prop :=
  segment <> [] /\ segment <> [DOT] /\ segment <> [DOT; DOT] /\
  Forall (fun c => c <> SLASH /\ c <> BACKSLASH) segment.

Lemma split_pieces sep s : Forall (Forall (fun c => c <> sep)) (split sep s).
Proof.
  induction s as [|c s IH]; cbn; [by repeat constructor|].
  destruct (N.eqb_spec c sep) as [->|Hne]; [by constructor|].
  destruct (split sep s) as [|piece pieces]; [by repeat constructor|].
  inversion IH; subst. constructor; [by constructor|done].
Qed.

Lemma split_join sep pieces :
  pieces <> [] -> Forall (Forall (fun c => c <> sep)) pieces ->
  split sep (join sep pieces) = pieces.
Proof.
  intros Hne Hall. induction Hall as [|piece pieces Hp Hall IH]; [done|].
  assert (Forall (fun c => (c =? sep)%N = false) piece) as Hp'.
  { eapply List.Forall_impl; [|exact Hp]. intros c Hc. by apply N.eqb_neq. }
  destruct pieces as [|piece' pieces].
  - cbn. by apply MessagesFacts.split_no_sep.
  - change (join sep (piece :: piece' :: pieces))
      with (piece ++ sep :: join sep (piece' :: pieces)).
    rewrite MessagesFacts.split_at_sep by done. by rewrite IH.
Qed.

Lemma replace_backslashes_none b s : Forall (fun c => c <> BACKSLASH) (replace_backslashes b s).
Proof.
  revert b. induction s as [|c s IH]; intros b; cbn; [done|].
  destruct (N.eqb_spec c BACKSLASH) as [->|Hne].
  - apply Forall_app. split; [|done]. destruct b; by repeat constructor.
  - by constructor.
Qed.

Lemma replace_backslashes_id b s :
  Forall (fun c => c <> BACKSLASH) s -> replace_backslashes b s = s.
Proof.
  intros H. revert b. induction H as [|c s Hc _ IH]; intros b; cbn; [done|].
  destruct (N.eqb_spec c BACKSLASH); [done|]. by rewrite IH.
Qed.

Lemma drop_while_Forall {A} (P : A -> Prop) f s : Forall P s -> Forall P (drop_while f s).
Proof. induction 1 as [|c s Hc Hs IH]; cbn; [done|]. destruct (f c); [done|by constructor]. Qed.

Lemma trim_start_Forall (P : N -> Prop) s : Forall P s -> Forall P (trim_start s).
Proof. induction 1 as [|c s Hc Hs IH]; cbn; [done|]. destruct (is_space c); [done|by constructor]. Qed.

Lemma trim_Forall (P : N -> Prop) s : Forall P s -> Forall P (trim s).
Proof.
  intros H. unfold trim. apply Forall_rev, trim_start_Forall, Forall_rev.
  by apply trim_start_Forall.
Qed.

(** What [trim_start] returns does not start with white space. *)
Definition starts_clean (s : list N) : Prop :=
  match s with
  | [] => True
  | c :: _ => is_space c = false
  end.

Lemma trim_start_clean s : starts_clean (trim_start s).
Proof. induction s as [|c s IH]; cbn; [done|]. by destruct (is_space c) eqn:Hc. Qed.

Lemma trim_start_id s : starts_clean s -> trim_start s = s.
Proof. destruct s as [|c s]; cbn; [done|]. by intros ->. Qed.

Lemma trim_start_suffix s : exists ws, s = ws ++ trim_start s.
Proof.
  induction s as [|c s [ws IH]]; cbn; [by exists []|].
  destruct (is_space c); [|by exists []]. exists (c :: ws). cbn. by f_equal.
Qed.

Lemma trim_idem s : trim (trim s) = trim s.
Proof.
  unfold trim. set (y := trim_start s). set (z := trim_start (rev y)).
  assert (starts_clean (rev z)) as Hclean.
  { destruct (trim_start_suffix (rev y)) as [ws Hws]. fold z in Hws.
    apply (f_equal (@rev N)) in Hws. rewrite rev_involutive, rev_app_distr in Hws.
    pose proof (trim_start_clean s) as Hy. fold y in Hy. rewrite Hws in Hy.
    destruct (rev z); [done|]. done. }
  rewrite (trim_start_id _ Hclean), rev_involutive.
  by rewrite (trim_start_id z (trim_start_clean _)).
Qed.

Lemma filter_map_Forall {A} (f : A -> bool) l : Forall (fun x => f x = true) (List.filter f l).
Proof.
  induction l as [|x l IH]; cbn; [done|]. destruct (f x) eqn:Hx; [by constructor|done].
Qed.

Lemma filter_all {A} (f : A -> bool) l : Forall (fun x => f x = true) l -> List.filter f l = l.
Proof. induction 1 as [|x l Hx _ IH]; cbn; [done|]. by rewrite Hx, IH. Qed.

Lemma drop_slashes_join segments :
  Forall (fun seg => is_name seg = true) segments ->
  Forall (Forall (fun c => c <> SLASH)) segments ->
  drop_while (fun c => (c =? SLASH)%N) (join SLASH segments) = join SLASH segments.
Proof.
  intros Hn Hs. destruct segments as [|seg segments]; [done|].
  inversion Hn as [|? ? Hseg _]; subst. inversion Hs as [|? ? Hc _]; subst.
  destruct seg as [|c seg]; [done|]. inversion Hc as [|? ? Hc0 _]; subst.
  apply N.eqb_neq in Hc0. destruct segments; cbn; by rewrite Hc0.
Qed.

(** X20.  What [sanitizeRelativePath] returns is a relative path that stays below
    the directory it is joined to: it has no backslash, and each of its
    segments between slashes is a name that is not empty, not "." and not
    ".."; a path of that form is returned as it is. *)
Theorem sanitizeRelativePath_safe filePath safe :
  sanitizeRelativePath filePath = Some safe ->
  Forall safe_segment (split SLASH safe) /\ sanitizeRelativePath safe = Some safe.
Proof.
  unfold sanitizeRelativePath at 1. cbv zeta.
  set (normalized := drop_while _ (replace_backslashes false filePath)).
  set (segments := List.filter is_name (map trim (split SLASH normalized))).
  assert (Forall (fun seg => is_name seg = true) segments) as Hnames
    by apply filter_map_Forall.
  assert (Forall (Forall (fun c => c <> SLASH /\ c <> BACKSLASH)) segments) as Hunits.
  { apply List.incl_Forall with (l1 := map trim (split SLASH normalized));
      [apply List.incl_filter|].
    apply Forall_map. pose proof (split_pieces SLASH normalized) as Hp.
    assert (Forall (fun c => c <> BACKSLASH) normalized) as Hb
      by apply drop_while_Forall, replace_backslashes_none.
    assert (Forall (Forall (fun c => c <> BACKSLASH)) (split SLASH normalized)) as Hb'.
    { clear -Hb. induction normalized as [|c s IH]; cbn; [by repeat constructor|].
      inversion Hb; subst. specialize (IH ltac:(done)).
      destruct (c =? SLASH)%N; [by constructor|].
      destruct (split SLASH s) as [|piece pieces]; [by repeat constructor|].
      inversion IH; subst. constructor; [by constructor|done]. }
    clear -Hp Hb'. induction Hp as [|piece pieces H1 _ IH]; [done|].
    inversion Hb' as [|? ? H2 Hb'']; subst. constructor; [|by apply IH].
    cbn. apply trim_Forall. rewrite Forall_forall in H1, H2. apply Forall_forall.
    intros c Hc. split; [by apply H1|by apply H2]. }
  assert (Forall (fun seg => trim seg = seg) segments) as Htrimmed.
  { apply List.incl_Forall with (l1 := map trim (split SLASH normalized));
      [apply List.incl_filter|].
    apply Forall_map, Forall_forall. intros seg _. cbn. apply trim_idem. }
  destruct segments as [|seg0 segs] eqn:Hsegs; [done|]. rewrite <- Hsegs in *.
  intros [= <-].
  assert (segments <> []) as Hne by by rewrite Hsegs.
  assert (Forall (Forall (fun c => c <> SLASH)) segments) as Hslash.
  { eapply List.Forall_impl; [|exact Hunits]. intros seg Hseg.
    eapply List.Forall_impl; [|exact Hseg]. by intros c [? _]. }
  rewrite (split_join SLASH segments Hne Hslash). split.
  - clear -Hnames Hunits. induction Hnames as [|seg segs Hseg _ IH]; [done|].
    inversion Hunits; subst. constructor; [|by apply IH].
    unfold is_name in Hseg. apply andb_prop in Hseg as [[Hn1 Hn2]%andb_prop Hn3].
    apply negb_true_iff, bool_decide_eq_false in Hn2, Hn3.
    split; [by destruct seg|done].
  - unfold sanitizeRelativePath.
    rewrite replace_backslashes_id.
    2:{ clear -Hunits Hne. induction Hunits as [|seg segs Hseg _ IH]; [done|].
        assert (Forall (fun c => c <> BACKSLASH) seg) as Hs.
        { eapply List.Forall_impl; [|exact Hseg]. by intros c [_ ?]. }
        destruct segs as [|seg' segs]; [done|]. cbn [join].
        apply Forall_app. split; [done|]. constructor; [done|]. by apply IH. }
    rewrite (drop_slashes_join _ Hnames Hslash), (split_join SLASH segments Hne Hslash).
    assert (map trim segments = segments) as ->.
    { clear -Htrimmed. induction Htrimmed as [|seg segs Hseg _ IH]; [done|].
      cbn. by rewrite Hseg, IH. }
    rewrite (filter_all _ _ Hnames). by rewrite Hsegs.
Qed.

Lemma sanitizeRelativePath_safe_witness :
  Forall safe_segment (split SLASH (lit "etc/passwd")) /\
  sanitizeRelativePath (lit "etc/passwd") = Some (lit "etc/passwd").
Proof.
  apply (sanitizeRelativePath_safe (lit "..\\..//etc/ ./passwd ") (lit "etc/passwd")).
  vm_compute. reflexivity.
Defined.

End UploadFacts.

Module SseFacts.
Import Js Sse.

Lemma escape_no_newline data : Forall (fun c => (c =? NL)%N = false) (escape data).
Proof.
  induction data as [|c data IH]; cbn; [done|].
  destruct (c =? NL)%N eqn:Hc; repeat constructor; done.
Qed.

Definition CR : N := 13.

Lemma escape_no_return data :
  Forall (fun c => c <> CR) data -> Forall (fun c => c <> CR) (escape data).
Proof.
  induction 1 as [|c data Hc _ IH]; cbn; [done|].
  destruct (c =? NL)%N; repeat constructor; done.
Qed.

(** X21.  Split at its line feeds, the text written for a sequence of events
    has, for each event in order, one line "data: " followed by the event
    with each of its line feeds written as a backslash and an "n", and one
    empty line; nothing else: no line feed of an event reaches the stream.
    Nothing but the line feed is escaped, and a carriage return in an event
    is written as it is; when no event holds one, the text holds none, and
    its line feeds are its only line breaks. *)
Theorem send_one_line_each (events : list (list N)) :
  split NL (concat (map send events))
  = flat_map (fun data => [lit "data: " ++ escape data; []]) events ++ [[]] /\
  (Forall (Forall (fun c => c <> CR)) events ->
   Forall (fun c => c <> CR) (concat (map send events))).
Proof.
  split.
  - induction events as [|data events IH]; [done|].
    cbn [map concat flat_map]. unfold send at 1.
    assert (Forall (fun c => (c =? NL)%N = false) (lit "data: " ++ escape data)) as Hline.
    { apply Forall_app. split; [by repeat constructor|apply escape_no_newline]. }
    rewrite <- !app_assoc. rewrite (app_assoc (lit "data: ")).
    cbn [app]. rewrite (MessagesFacts.split_at_sep NL _ _ Hline).
    change (NL :: concat (map send events)) with ([] ++ NL :: concat (map send events)).
    rewrite (MessagesFacts.split_at_sep NL [] _ ltac:(constructor)). by rewrite IH.
  - induction 1 as [|data events Hdata _ IH]; [done|].
    cbn [map concat]. apply Forall_app. split; [|exact IH].
    unfold send. apply Forall_app. split; [by repeat constructor|].
    apply Forall_app. split; [by apply escape_no_return|by repeat constructor].
Qed.

(** Two events, the first of two lines. *)
Lemma send_one_line_each_witness :
  split NL (concat (map send [lit "a" ++ [NL] ++ lit "b"; lit "c"]))
  = [lit "data: a\nb"; []; lit "data: c"; []; []] /\
  Forall (fun c => c <> CR) (concat (map send [lit "a" ++ [NL] ++ lit "b"; lit "c"])).
Proof.
  split; [by vm_compute|].
  apply (proj2 (send_one_line_each [lit "a" ++ [NL] ++ lit "b"; lit "c"])).
  repeat constructor; by vm_compute.
Defined.

(** A carriage return goes through. *)
Lemma send_keeps_carriage_return : send [CR] = lit "data: " ++ [CR; NL; NL].
Proof. reflexivity. Qed.

End SseFacts.
